(** * Tensor descriptors, overlap analysis and the TensorMap of the
    tensormap_and_ringbuffer runtime.

    Shallow embedding of
    - runtime/tensor.h, runtime/tensor.cpp (Segment, Tensor,
      ContiguousMemSegIterator, is_overlap, complex_overlap, offset_to_ndims,
      make_1d_contiguous, make_tensor, make_tensor_external),
    - the orchestration half of the Tensor methods (get_fuzzy_seg,
      is_valid_tensor, resort_strides, is_contiguous, reshape, view,
      transpose, numel, ...),
    - pto_tensormap.cpp (init, reset, hash, insert, lookup, remove_entry,
      cleanup_retired, valid_count).

    uint64_t arithmetic is Z with the wrap-around written out ([add64],
    [sub64], [mul64]); the fixed arrays [strides[]], [repeats[]] and
    [indexes_[]] are lists read with [nth] and written with stdpp's list
    insert; the first [ndims] cells are the ones the code uses. *)

From Stdlib Require Import ZArith Lia Sorting.Sorted.
From stdpp Require Import base list.

Open Scope Z_scope.

(* ------------------------------------------------------------------ *)
(** ** Machine integers *)

Definition u64 (z : Z) : Z := z mod 2 ^ 64.
Definition add64 (a b : Z) : Z := u64 (a + b).
Definition sub64 (a b : Z) : Z := u64 (a - b).
Definition mul64 (a b : Z) : Z := u64 (a * b).

(* ------------------------------------------------------------------ *)
(** ** Data types *)

(** Modelled from the spec: data_type.h (the DataType enum and
    get_element_size) is not among the sources; the spec only says that
    dtype is a fixed enum with an element_size function.  The sources use
    FLOAT32 and BFLOAT16; the other members are the usual ones. *)
Inductive DataType :=
  | FLOAT32 | FLOAT16 | BFLOAT16 | INT8 | INT16 | INT32 | INT64.

Definition get_element_size (d : DataType) : Z :=
  match d with
  | FLOAT32 => 4 | FLOAT16 => 2 | BFLOAT16 => 2
  | INT8 => 1 | INT16 => 2 | INT32 => 4 | INT64 => 8
  end.

Definition dtype_eqb (a b : DataType) : bool :=
  match a, b with
  | FLOAT32, FLOAT32 | FLOAT16, FLOAT16 | BFLOAT16, BFLOAT16
  | INT8, INT8 | INT16, INT16 | INT32, INT32 | INT64, INT64 => true
  | _, _ => false
  end.

(* ------------------------------------------------------------------ *)
(** ** Segment *)

Record Segment := mkSeg { seg_begin : Z; seg_end : Z }.

(** [Segment::line_segment_intersection] *)
Definition line_segment_intersection (s o : Segment) : bool :=
  (seg_begin o <? seg_end s) && (seg_begin s <? seg_end o).

(** [Segment::contains] *)
Definition contains (s o : Segment) : bool :=
  (seg_begin s <=? seg_begin o) && (seg_end o <=? seg_end s).

(* ------------------------------------------------------------------ *)
(** ** Tensor descriptor *)

Inductive OverlapType := Accurate | Fuzzy.
Inductive OverlapStatus := NO_OVERLAP | COVERED | OTHER.

Record PTOBufferHandle := mkBuf { addr : Z; size : Z }.

Record Tensor := mkTensor {
  buffer : PTOBufferHandle;
  start_offset : Z;
  strides : list Z;
  repeats : list Z;
  ndims : nat;
  dtype : DataType;
  version : Z;
  overlap_type : OverlapType
}.

Definition RUNTIME_MAX_TENSOR_DIMS : nat := 8.

(** [Tensor::get_fuzzy_seg] *)
Definition get_fuzzy_seg (t : Tensor) : Segment :=
  let end_offset :=
    fold_left (fun acc i =>
                 add64 acc (mul64 (nth i (strides t) 0)
                                  (sub64 (nth i (repeats t) 0) 1)))
              (seq 0 (ndims t)) (start_offset t) in
  mkSeg (start_offset t) (add64 end_offset 1).

(** [Tensor::is_same_memref] *)
Definition is_same_memref (t o : Tensor) : bool :=
  addr (buffer t) =? addr (buffer o).

(** [Tensor::is_same_strides] *)
Definition is_same_strides (t o : Tensor) : bool :=
  forallb (fun i => nth i (strides t) 0 =? nth i (strides o) 0)
          (seq 0 (ndims t)).

(** [Tensor::offset_to_ndims]: [offset_ndims[i] = cur / strides[i];
    cur %= strides[i]] down the stride vector. *)
Fixpoint offset_to_ndims_from (ss : list Z) (cur : Z) : list Z :=
  match ss with
  | [] => []
  | s :: ss' => cur / s :: offset_to_ndims_from ss' (cur mod s)
  end.

Definition offset_to_ndims (t : Tensor) : list Z :=
  offset_to_ndims_from (take (ndims t) (strides t)) (start_offset t).

(* ------------------------------------------------------------------ *)
(** ** ContiguousMemSegIterator *)

Record IterState := mkIter { indexes : list Z; cur_seg : Segment }.

(** the constructor *)
Definition iter_init (t : Tensor) : IterState :=
  mkIter (replicate (ndims t) 0)
         (mkSeg (start_offset t)
                (add64 (start_offset t) (nth (ndims t - 1)%nat (repeats t) 0))).

(** one turn of the carry loop of [operator++], at dimension [i >= 1] *)
Definition carry_at (t : Tensor) (i : nat) (st : list Z * Z) : list Z * Z :=
  let '(idx, b) := st in
  if nth i idx 0 =? nth i (repeats t) 0 then
    (<[i := 0]> (<[(i - 1)%nat := add64 (nth (i - 1)%nat idx 0) 1]> idx),
     add64 b (sub64 (nth (i - 1)%nat (strides t) 0)
                    (mul64 (nth i (strides t) 0) (nth i (repeats t) 0))))
  else (idx, b).

(** [for (i = ndims - 1; i >= 1; i--)]: [carry_loop t j] runs the turns
    [j, j-1, ..., 1] in this order *)
Fixpoint carry_loop (t : Tensor) (j : nat) (st : list Z * Z) : list Z * Z :=
  match j with
  | O => st
  | S j' => carry_loop t j' (carry_at t (S j') st)
  end.

(** [ContiguousMemSegIterator::operator++] *)
Definition iter_next (t : Tensor) (st : IterState) : IterState :=
  let n := ndims t in
  let rl := nth (n - 1)%nat (repeats t) 0 in
  let idx := <[(n - 1)%nat := add64 (nth (n - 1)%nat (indexes st) 0) rl]> (indexes st) in
  let b := add64 (seg_begin (cur_seg st)) rl in
  let '(idx', b') := carry_loop t (n - 1)%nat (idx, b) in
  mkIter idx' (mkSeg b' (add64 b' rl)).

(** [ContiguousMemSegIterator::is_end] *)
Definition iter_is_end (t : Tensor) (st : IterState) : bool :=
  nth 0 (repeats t) 0 <=? nth 0 (indexes st) 0.

(** The segments the iterator yields, [*it] before each [++], until
    [is_end]. *)
Fixpoint iter_collect (fuel : nat) (t : Tensor) (st : IterState) : list Segment :=
  match fuel with
  | O => []
  | S f => if iter_is_end t st then []
           else cur_seg st :: iter_collect f t (iter_next t st)
  end.

(** Number of segments of a descriptor whose repeats are all positive:
    the product of the repeats of all dimensions but the innermost.  It
    bounds the iteration; [iter_collect] stops at [is_end] before it. *)
Definition seg_count (t : Tensor) : nat :=
  Z.to_nat (fold_right Z.mul 1 (take (ndims t - 1)%nat (repeats t))).

Definition mem_segs (t : Tensor) : list Segment :=
  iter_collect (seg_count t) t (iter_init t).

(* ------------------------------------------------------------------ *)
(** ** complex_overlap: two-pointer walk over the byte segments *)

Fixpoint walk (xs ys : list Segment) : bool :=
  match xs with
  | [] => false
  | x :: xs' =>
      (fix walk_out (ys : list Segment) : bool :=
         match ys with
         | [] => false
         | y :: ys' =>
             if seg_end x <=? seg_begin y then walk xs' ys
             else if seg_end y <=? seg_begin x then walk_out ys'
             else true
         end) ys
  end.

Definition to_byte_seg (es : Z) (s : Segment) : Segment :=
  mkSeg (mul64 (seg_begin s) es) (mul64 (seg_end s) es).

(** [Tensor::complex_overlap] *)
Definition complex_overlap (t p : Tensor) : bool :=
  walk (map (to_byte_seg (get_element_size (dtype t))) (mem_segs t))
       (map (to_byte_seg (get_element_size (dtype p))) (mem_segs p)).

(* ------------------------------------------------------------------ *)
(** ** is_overlap *)

(** The O(ndims) per-axis loop of [is_overlap]; returns
    [(need_complex_compare, contains, overlap)]. *)
Fixpoint axis_loop (t p : Tensor) (io oo : list Z) (is : list nat)
    (cont ovl : bool) : bool * bool * bool :=
  match is with
  | [] => (false, cont, ovl)
  | i :: is' =>
      let in_r := mkSeg (nth i io 0) (add64 (nth i io 0) (nth i (repeats t) 0)) in
      let out_r := mkSeg (nth i oo 0) (add64 (nth i oo 0) (nth i (repeats p) 0)) in
      if (0 <? i)%nat &&
         ((nth (i - 1)%nat (strides t) 0 <? mul64 (seg_end in_r) (nth i (strides t) 0))
          || (nth (i - 1)%nat (strides p) 0 <? mul64 (seg_end out_r) (nth i (strides p) 0)))
      then (true, cont, ovl)
      else if negb (line_segment_intersection in_r out_r)
      then axis_loop t p io oo is' cont false
      else if negb (contains in_r out_r)
      then axis_loop t p io oo is' false ovl
      else axis_loop t p io oo is' cont ovl
  end.

(** the same-dtype / same-ndims / same-strides branch: [Some status] when it
    decides, [None] when it falls through to [complex_overlap] *)
Definition hyper_rect_status (t p : Tensor) : option OverlapStatus :=
  if dtype_eqb (dtype t) (dtype p) && Nat.eqb (ndims t) (ndims p)
     && is_same_strides t p then
    match axis_loop t p (offset_to_ndims t) (offset_to_ndims p)
                    (seq 0 (ndims t)) true true with
    | (false, cont, ovl) =>
        Some (if cont then COVERED else if ovl then OTHER else NO_OVERLAP)
    | _ => None
    end
  else None.

Definition byte_fuzzy_seg (t : Tensor) : Segment :=
  to_byte_seg (get_element_size (dtype t)) (get_fuzzy_seg t).

(** [Tensor::is_overlap]: [t] is the reader, [p] the earlier producer
    ([pre_task_output]).  The debug-only assertion on versions is not a
    branch of the release code. *)
Definition is_overlap (t p : Tensor) : OverlapStatus :=
  if negb (is_same_memref t p) then NO_OVERLAP
  else if version p <? version t then OTHER
  else
    let ib := byte_fuzzy_seg t in
    let ob := byte_fuzzy_seg p in
    if negb (line_segment_intersection ib ob) then NO_OVERLAP
    else if (match overlap_type p with Fuzzy => true | Accurate => false end) then OTHER
    else if Nat.eqb (ndims t) 1 && Nat.eqb (ndims p) 1 then
      (if contains ib ob then COVERED else OTHER)
    else
      match hyper_rect_status t p with
      | Some st => st
      | None => if complex_overlap t p then OTHER else NO_OVERLAP
      end.


(* ------------------------------------------------------------------ *)
(** ** Normalization, contiguity and reshape (orchestration methods) *)

(** [std::swap(a[i], a[j])] *)
Definition swap_at (l : list Z) (i j : nat) : list Z :=
  <[i := nth j l 0]> (<[j := nth i l 0]> l).

(** body of the inner loop of [resort_strides] *)
Definition resort_step (i : nat) (st : list Z * list Z) (j : nat) : list Z * list Z :=
  let '(ss, rs) := st in
  if (nth i ss 0 <? nth j ss 0)
     || ((nth i ss 0 =? nth j ss 0) && (nth i rs 0 <? nth j rs 0))
  then (swap_at ss i j, swap_at rs i j)
  else (ss, rs).

(** [Tensor::resort_strides]: [for i < ndims, for i < j < ndims] *)
Definition resort_arrays (n : nat) (ss rs : list Z) : list Z * list Z :=
  fold_left (fun st i => fold_left (resort_step i) (seq (S i) (n - S i)) st)
            (seq 0 n) (ss, rs).

Definition resort_strides (t : Tensor) : Tensor :=
  let '(ss, rs) := resort_arrays (ndims t) (strides t) (repeats t) in
  mkTensor (buffer t) (start_offset t) ss rs (ndims t) (dtype t)
           (version t) (overlap_type t).

(** [Tensor::optimize]; the rest of its body is debug-only checking *)
Definition optimize (t : Tensor) : Tensor := resort_strides t.

(** [Tensor::is_contiguous] *)
Definition is_contiguous (t : Tensor) : bool :=
  let n := ndims t in
  if Nat.eqb n 0 then true
  else if negb (nth (n - 1)%nat (strides t) 0 =? 1) then false
  else forallb (fun i => nth i (strides t) 0
                         =? mul64 (nth (S i) (strides t) 0) (nth (S i) (repeats t) 0))
               (seq 0 (n - 1)).

(** [Tensor::numel] *)
Definition numel (t : Tensor) : Z :=
  if Nat.eqb (ndims t) 0 then 0
  else fold_left (fun acc i => mul64 acc (nth i (repeats t) 0)) (seq 0 (ndims t)) 1.

(** the loop of [Tensor::reshape]: [for (i = new_ndims - 1; i >= 0; i--)] *)
Definition reshape_loop (shapes : list Z) (nn : nat) : list Z * list Z * Z :=
  fold_left (fun st i =>
               let '(ns, nr, stride) := st in
               (<[i := stride]> ns, <[i := nth i shapes 0]> nr,
                mul64 stride (nth i shapes 0)))
            (rev (seq 0 nn)) (replicate nn 0, replicate nn 0, 1).

(** [Tensor::reshape]; [None] is the failure of [always_assert(is_contiguous())] *)
Definition reshape (t : Tensor) (shapes : list Z) (new_ndims : nat) : option Tensor :=
  if negb (is_contiguous t) then None
  else
    let '(ns, nr, _) := reshape_loop shapes new_ndims in
    Some (mkTensor (mkBuf (addr (buffer t)) (size (buffer t))) (start_offset t)
                   ns nr new_ndims (dtype t) (version t) (overlap_type t)).

(* ------------------------------------------------------------------ *)
(** ** Reachable offsets (the spec's definitions) *)

Definition zseq (r : Z) : list Z := map Z.of_nat (seq 0 (Z.to_nat r)).

(** [start_offset + sum idx_i * strides_i] over all index vectors with
    [idx_i < repeats_i], outermost index first *)
Fixpoint offsets_from (o : Z) (ss rs : list Z) : list Z :=
  match ss, rs with
  | s :: ss', r :: rs' => flat_map (fun k => offsets_from (o + k * s) ss' rs') (zseq r)
  | _, _ => [o]
  end.

Definition elem_offsets (t : Tensor) : list Z :=
  offsets_from (start_offset t) (take (ndims t) (strides t)) (take (ndims t) (repeats t)).

(** byte [b] is reachable when it lies in a reachable element *)
Definition reach_byte (t : Tensor) (b : Z) : Prop :=
  exists o, In o (elem_offsets t) /\
            o * get_element_size (dtype t) <= b < (o + 1) * get_element_size (dtype t).

(** a 1-D contiguous descriptor ([strides = [1]], one positive repeat)
    whose byte range [[start_offset * es, (start_offset + n) * es)] fits in
    64 bits *)
Definition desc_1d (t : Tensor) : Prop :=
  ndims t = 1%nat /\ strides t = [1] /\
  exists n, repeats t = [n] /\ 1 <= n /\ 0 <= start_offset t /\
            (start_offset t + n) * get_element_size (dtype t) < 2 ^ 64.

(** the arrays hold the [ndims] dimensions *)
Definition wf_dims (t : Tensor) : Prop :=
  length (strides t) = ndims t /\ length (repeats t) = ndims t.

(** the layout [is_valid_tensor] accepts after [optimize], read on the
    [ndims] live dimensions: the innermost stride is 1, strides do not
    increase outwards, each inner block fits in the next outer stride, and
    every repeat is at least 1 *)
Fixpoint norm_dims (ss rs : list Z) : Prop :=
  match ss, rs with
  | [s], [r] => s = 1 /\ 1 <= r
  | s :: ((s' :: _) as ss'), r :: ((r' :: _) as rs') =>
      s' <= s /\ s' * r' <= s /\ 1 <= r /\ norm_dims ss' rs'
  | _, _ => False
  end.

Definition normalized (t : Tensor) : Prop :=
  wf_dims t /\ norm_dims (strides t) (repeats t).

(** the [uint64_t] fields hold values below 2^64 *)
Definition u64_fields (t : Tensor) : Prop :=
  0 <= start_offset t < 2 ^ 64 /\ Forall (fun x => 0 <= x < 2 ^ 64) (strides t) /\
  Forall (fun x => 0 <= x < 2 ^ 64) (repeats t).

(** every reachable byte has an address below 2^64 *)
Definition bytes_in_u64 (t : Tensor) : Prop :=
  forall o, In o (elem_offsets t) -> (o + 1) * get_element_size (dtype t) < 2 ^ 64.

(** the element offsets at which the innermost contiguous runs start, in
    iteration order *)
Fixpoint seg_starts (o : Z) (ss rs : list Z) : list Z :=
  match ss, rs with
  | s :: ((_ :: _) as ss'), r :: ((_ :: _) as rs') =>
      flat_map (fun k => seg_starts (o + k * s) ss' rs') (zseq r)
  | _, _ => [o]
  end.

(** the number of innermost runs: the product of the outer repeats *)
Fixpoint nseg (rs : list Z) : nat :=
  match rs with
  | r :: ((_ :: _) as rs') => (Z.to_nat r * nseg rs')%nat
  | _ => 1%nat
  end.

(** an iterator state at index vector [idx] whose current run starts at [g] *)
Definition it_state (rl : Z) (idx : list Z) (g : Z) : IterState :=
  mkIter idx (mkSeg (u64 g) (add64 (u64 g) rl)).

(** a descriptor with its outermost dimension dropped *)
Definition tl_tensor (t : Tensor) : Tensor :=
  mkTensor (buffer t) (start_offset t) (tl (strides t)) (tl (repeats t))
           (pred (ndims t)) (dtype t) (version t) (overlap_type t).

(** segments in strictly ascending, pairwise disjoint order, none empty *)
Definition seg_ordered (segs : list Segment) : Prop :=
  StronglySorted (fun x y => seg_end x <= seg_begin y) segs /\
  Forall (fun s => seg_begin s < seg_end s) segs.

(** the byte segments produced by the iterator are ordered and cover exactly
    the reachable bytes *)
Definition segs_enumerate (t : Tensor) : Prop :=
  let segs := map (to_byte_seg (get_element_size (dtype t))) (mem_segs t) in
  seg_ordered segs /\
  (forall b, reach_byte t b <-> exists s, In s segs /\ seg_begin s <= b < seg_end s).

(* ------------------------------------------------------------------ *)
(** ** TensorMap *)

Record PTO2TensorMapEntry := mkEntry {
  tensor : Tensor;
  producer_task_id : Z;
  with_alloc : bool;
  in_bucket : bool;
  next_in_bucket : Z;
  prev_in_bucket : Z;
  next_in_task : Z;
  prev_in_task : Z
}.

Record PTO2TensorMap := mkTM {
  buckets : list Z;
  num_buckets : Z;
  entry_pool : list PTO2TensorMapEntry;
  pool_size : Z;
  pool_head : Z;
  task_entry_head : list Z;
  last_task_alive : Z
}.

(** Modelled from the spec: PTO2_TASK_WINDOW_SIZE lives in a header that is
    not among the sources; 16384 is the default the example orchestration
    defines for it. *)
Definition PTO2_TASK_WINDOW_SIZE : Z := 16384.

(** field writes through an entry pointer *)
Definition set_bucket_links (e : PTO2TensorMapEntry) (ib : bool) (nx pv : Z) :=
  mkEntry (tensor e) (producer_task_id e) (with_alloc e) ib nx pv
          (next_in_task e) (prev_in_task e).
Definition set_next_in_bucket (e : PTO2TensorMapEntry) (v : Z) :=
  set_bucket_links e (in_bucket e) v (prev_in_bucket e).
Definition set_prev_in_bucket (e : PTO2TensorMapEntry) (v : Z) :=
  set_bucket_links e (in_bucket e) (next_in_bucket e) v.
Definition set_task_links (e : PTO2TensorMapEntry) (nx pv : Z) :=
  mkEntry (tensor e) (producer_task_id e) (with_alloc e) (in_bucket e)
          (next_in_bucket e) (prev_in_bucket e) nx pv.
Definition set_prev_in_task (e : PTO2TensorMapEntry) (v : Z) :=
  set_task_links e (next_in_task e) v.

Definition with_pool (tm : PTO2TensorMap) (p : list PTO2TensorMapEntry) :=
  mkTM (buckets tm) (num_buckets tm) p (pool_size tm) (pool_head tm)
       (task_entry_head tm) (last_task_alive tm).
Definition with_buckets (tm : PTO2TensorMap) (bs : list Z) :=
  mkTM bs (num_buckets tm) (entry_pool tm) (pool_size tm) (pool_head tm)
       (task_entry_head tm) (last_task_alive tm).
Definition with_task_heads (tm : PTO2TensorMap) (hs : list Z) :=
  mkTM (buckets tm) (num_buckets tm) (entry_pool tm) (pool_size tm) (pool_head tm)
       hs (last_task_alive tm).

(** array reads; an index outside the array is undefined behaviour, [None] *)
Definition zlookup {A} (l : list A) (i : Z) : option A :=
  if 0 <=? i then l !! Z.to_nat i else None.
Definition zstore {A} (l : list A) (i : Z) (x : A) : option (list A) :=
  if (0 <=? i) && (i <? Z.of_nat (length l)) then Some (<[Z.to_nat i := x]> l) else None.

Definition get_entry (tm : PTO2TensorMap) (i : Z) := zlookup (entry_pool tm) i.
Definition put_entry (tm : PTO2TensorMap) (i : Z) (e : PTO2TensorMapEntry) :=
  p ← zstore (entry_pool tm) i e; Some (with_pool tm p).
Definition put_bucket (tm : PTO2TensorMap) (b v : Z) :=
  bs ← zstore (buckets tm) b v; Some (with_buckets tm bs).
Definition put_task_head (tm : PTO2TensorMap) (s v : Z) :=
  hs ← zstore (task_entry_head tm) s v; Some (with_task_heads tm hs).

(** [pto2_tensormap_init]; the entries start zeroed (calloc), then with
    no links and [producer_task_id = -1] *)
Definition empty_tensor : Tensor :=
  mkTensor (mkBuf 0 0) 0 (replicate 8 0) (replicate 8 0) 0 FLOAT32 0 Accurate.
Definition empty_entry : PTO2TensorMapEntry :=
  mkEntry empty_tensor (-1) false false (-1) (-1) (-1) (-1).

Definition pto2_tensormap_init (nb ps : Z) : option PTO2TensorMap :=
  if negb (Z.land nb (nb - 1) =? 0) then None
  else Some (mkTM (replicate (Z.to_nat nb) (-1)) nb
                  (replicate (Z.to_nat ps) empty_entry) ps 0
                  (replicate (Z.to_nat PTO2_TASK_WINDOW_SIZE) (-1)) 0).

(** [pto2_tensormap_hash]: [(uint64_t)addr], two xor-shift mixes, then
    [key & (num_buckets - 1)] (the int32 mask is sign-extended to 64 bits)
    narrowed to uint32 *)
Definition pto2_tensormap_hash (tm : PTO2TensorMap) (t : Tensor) : Z :=
  let key := addr (buffer t) in
  let key := Z.lxor key (Z.shiftr key 16) in
  let key := Z.lxor key (Z.shiftr key 32) in
  Z.land key (u64 (num_buckets tm - 1)) mod 2 ^ 32.

(** Modelled from the spec: [pto2_tensormap_entry_valid] is declared in
    pto_tensormap.h, which is not among the sources; the spec: an entry is
    valid iff [producer_task_id >= last_task_alive]. *)
Definition pto2_tensormap_entry_valid (tm : PTO2TensorMap) (e : PTO2TensorMapEntry) : bool :=
  last_task_alive tm <=? producer_task_id e.

(** [pto2_tensormap_sync_validity] *)
Definition pto2_tensormap_sync_validity (tm : PTO2TensorMap) (lta : Z) : PTO2TensorMap :=
  mkTM (buckets tm) (num_buckets tm) (entry_pool tm) (pool_size tm) (pool_head tm)
       (task_entry_head tm) lta.

(** [pto2_tensormap_remove_from_bucket]; the entry is given by its pool
    offset and every field is read from the current state, as through the
    C++ pointer *)
Definition pto2_tensormap_remove_from_bucket (tm : PTO2TensorMap) (off : Z)
    : option PTO2TensorMap :=
  e ← get_entry tm off;
  if negb (in_bucket e) then Some tm
  else
    tm1 ← (if prev_in_bucket e =? -1 then
             put_bucket tm (pto2_tensormap_hash tm (tensor e)) (next_in_bucket e)
           else
             p ← get_entry tm (prev_in_bucket e);
             put_entry tm (prev_in_bucket e) (set_next_in_bucket p (next_in_bucket e)));
    e1 ← get_entry tm1 off;
    tm2 ← (if 0 <=? next_in_bucket e1 then
             n ← get_entry tm1 (next_in_bucket e1);
             put_entry tm1 (next_in_bucket e1) (set_prev_in_bucket n (prev_in_bucket e1))
           else Some tm1);
    e2 ← get_entry tm2 off;
    put_entry tm2 off (set_bucket_links e2 false (-1) (-1)).

(** the walk of one task's entry list in [pto2_tensormap_cleanup_retired];
    [fuel] bounds the [while (offset >= 0)] loop *)
Fixpoint cleanup_task_walk (fuel : nat) (tm : PTO2TensorMap) (task_id off : Z)
    : option PTO2TensorMap :=
  match fuel with
  | O => None
  | S f =>
      if negb (0 <=? off) then Some tm
      else
        e ← get_entry tm off;
        let nxt := next_in_task e in
        tm' ← (if producer_task_id e =? task_id then
                 tm1 ← pto2_tensormap_remove_from_bucket tm off;
                 e1 ← get_entry tm1 off;
                 put_entry tm1 off (set_task_links e1 (-1) (-1))
               else Some tm);
        cleanup_task_walk f tm' task_id nxt
  end.

(** [pto2_tensormap_cleanup_retired] over task ids [old, new) *)
Fixpoint cleanup_from (fuel : nat) (tm : PTO2TensorMap) (task_id : Z) (cnt : nat)
    : option PTO2TensorMap :=
  match cnt with
  | O => Some tm
  | S c =>
      let slot := Z.land task_id (PTO2_TASK_WINDOW_SIZE - 1) in
      h ← zlookup (task_entry_head tm) slot;
      tm1 ← cleanup_task_walk fuel tm task_id h;
      tm2 ← put_task_head tm1 slot (-1);
      cleanup_from fuel tm2 (task_id + 1) c
  end.

Definition pto2_tensormap_cleanup_retired (fuel : nat) (tm : PTO2TensorMap)
    (old_lta new_lta : Z) : option PTO2TensorMap :=
  cleanup_from fuel tm old_lta (Z.to_nat (new_lta - old_lta)).

(** the [int32_t* prev_ptr] of [pto2_tensormap_lookup]: a bucket head or
    the [next_in_bucket] field of an entry *)
Inductive link_ptr := BucketHead (b : Z) | NextOf (off : Z).

Definition write_link (tm : PTO2TensorMap) (p : link_ptr) (v : Z) : option PTO2TensorMap :=
  match p with
  | BucketHead b => put_bucket tm b v
  | NextOf off => e ← get_entry tm off; put_entry tm off (set_next_in_bucket e v)
  end.

(** the inner loop that marks the truncated tail as not in bucket *)
Fixpoint truncate_walk (fuel : nat) (tm : PTO2TensorMap) (off : Z) : option PTO2TensorMap :=
  match fuel with
  | O => None
  | S f =>
      if negb (0 <=? off) then Some tm
      else
        e ← get_entry tm off;
        let nxt := next_in_bucket e in
        tm' ← put_entry tm off (set_bucket_links e false (-1) (-1));
        truncate_walk f tm' nxt
  end.

(** the outer loop of [pto2_tensormap_lookup]: results are
    (entry offset, overlap status) pairs *)
Fixpoint lookup_walk (fuel : nat) (tm : PTO2TensorMap) (t : Tensor) (prev : link_ptr)
    (off : Z) (acc : list (Z * OverlapStatus))
    : option (list (Z * OverlapStatus) * PTO2TensorMap) :=
  match fuel with
  | O => None
  | S f =>
      if negb (0 <=? off) then Some (acc, tm)
      else
        e ← get_entry tm off;
        if negb (pto2_tensormap_entry_valid tm e) then
          tm1 ← write_link tm prev (-1);
          tm2 ← truncate_walk f tm1 off;
          Some (acc, tm2)
        else
          let st := is_overlap t (tensor e) in
          let acc' := match st with NO_OVERLAP => acc | _ => acc ++ [(off, st)] end in
          lookup_walk f tm t (NextOf off) (next_in_bucket e) acc'
  end.

(** [pto2_tensormap_lookup] *)
Definition pto2_tensormap_lookup (fuel : nat) (tm : PTO2TensorMap) (t : Tensor)
    : option (list (Z * OverlapStatus) * PTO2TensorMap) :=
  let b := pto2_tensormap_hash tm t in
  h ← zlookup (buckets tm) b;
  lookup_walk fuel tm t (BucketHead b) h [].

Definition with_pool_head (tm : PTO2TensorMap) (ph : Z) :=
  mkTM (buckets tm) (num_buckets tm) (entry_pool tm) (pool_size tm) ph
       (task_entry_head tm) (last_task_alive tm).

(** [pto2_tensormap_insert].  When the reused slot is still in a bucket the
    code spins on [pto2_orchestrator_sync_tensormap] (sync_validity and
    cleanup_retired); that wait is [None] here, and the sync steps it
    performs are operations of their own. *)
Definition pto2_tensormap_insert (tm0 : PTO2TensorMap) (t : Tensor) (id : Z) (wa : bool)
    : option PTO2TensorMap :=
  let off := pool_head tm0 in
  e0 ← get_entry tm0 off;
  let tm := with_pool_head tm0 (Z.rem (pool_head tm0 + 1) (pool_size tm0)) in
  if in_bucket e0 then None
  else
    tm1 ← put_entry tm off (mkEntry t id wa (in_bucket e0) (next_in_bucket e0)
                                    (prev_in_bucket e0) (next_in_task e0) (prev_in_task e0));
    let b := pto2_tensormap_hash tm1 t in
    h ← zlookup (buckets tm1) b;
    e2 ← get_entry tm1 off;
    tm2 ← put_entry tm1 off (set_bucket_links e2 (in_bucket e2) h (-1));
    e2' ← get_entry tm2 off;
    tm3 ← (if 0 <=? next_in_bucket e2' then
             n ← get_entry tm2 (next_in_bucket e2');
             put_entry tm2 (next_in_bucket e2') (set_prev_in_bucket n off)
           else Some tm2);
    tm4 ← put_bucket tm3 b off;
    e4 ← get_entry tm4 off;
    tm5 ← put_entry tm4 off (set_bucket_links e4 true (next_in_bucket e4) (prev_in_bucket e4));
    let slot := Z.land id (PTO2_TASK_WINDOW_SIZE - 1) in
    th ← zlookup (task_entry_head tm5) slot;
    e5 ← get_entry tm5 off;
    tm6 ← put_entry tm5 off (set_task_links e5 th (-1));
    e6 ← get_entry tm6 off;
    tm7 ← (if 0 <=? next_in_task e6 then
             n ← get_entry tm6 (next_in_task e6);
             put_entry tm6 (next_in_task e6) (set_prev_in_task n off)
           else Some tm6);
    put_task_head tm7 slot off.

(** operations on the TensorMap *)
Inductive tm_op :=
  | OpInsert (t : Tensor) (id : Z) (wa : bool)
  | OpLookup (t : Tensor)
  | OpCleanup (old_lta new_lta : Z)
  | OpSync (lta : Z).

Definition tm_exec (fuel : nat) (tm : PTO2TensorMap) (op : tm_op) : option PTO2TensorMap :=
  match op with
  | OpInsert t id wa => pto2_tensormap_insert tm t id wa
  | OpLookup t => r ← pto2_tensormap_lookup fuel tm t; Some (snd r)
  | OpCleanup o n => pto2_tensormap_cleanup_retired fuel tm o n
  | OpSync l => Some (pto2_tensormap_sync_validity tm l)
  end.

Fixpoint tm_run (fuel : nat) (tm : PTO2TensorMap) (ops : list tm_op) : option PTO2TensorMap :=
  match ops with
  | [] => Some tm
  | op :: ops' => tm' ← tm_exec fuel tm op; tm_run fuel tm' ops'
  end.

Definition insert_ids (ops : list tm_op) : list Z :=
  omap (fun op => match op with OpInsert _ id _ => Some id | _ => None end) ops.

(** the bucket chain from [h]: following [next_in_bucket] until a
    negative offset *)
Inductive chain (tm : PTO2TensorMap) : Z -> list Z -> Prop :=
  | chain_nil h : h < 0 -> chain tm h []
  | chain_cons h e L :
      0 <= h -> get_entry tm h = Some e -> chain tm (next_in_bucket e) L ->
      chain tm h (h :: L).

Fixpoint chain_ids (tm : PTO2TensorMap) (L : list Z) : list Z :=
  match L with
  | [] => []
  | i :: L' => match get_entry tm i with
               | Some e => producer_task_id e :: chain_ids tm L'
               | None => chain_ids tm L'
               end
  end.

Definition bucket_head (tm : PTO2TensorMap) (b : Z) : Z :=
  match zlookup (buckets tm) b with Some h => h | None => -1 end.


(* ------------------------------------------------------------------ *)
(** ** Concrete descriptors of the spec's scenarios *)

(** S3: [t0: write B[0:256]] and [t1: read B[64:192]] *)
Definition s3_write : Tensor :=
  mkTensor (mkBuf 4096 1024) 0 [1] [256] 1 FLOAT32 0 Accurate.
Definition s3_read : Tensor :=
  mkTensor (mkBuf 4096 1024) 64 [1] [128] 1 FLOAT32 0 Accurate.

(** S4: [A = (strides [10;1], repeats [3;6], start 0)],
    [B = (strides [10;1], repeats [3;3], start 6)] on one buffer *)
Definition s4_A : Tensor :=
  mkTensor (mkBuf 4096 1024) 0 [10; 1] [3; 6] 2 FLOAT32 0 Accurate.
Definition s4_B : Tensor :=
  mkTensor (mkBuf 4096 1024) 6 [10; 1] [3; 3] 2 FLOAT32 0 Accurate.

(** a 2-D accurate descriptor and a 1-D fuzzy one on one buffer with one
    version: elements {0,1,10,11} and {3..7} *)
Definition sym_A : Tensor :=
  mkTensor (mkBuf 4096 1024) 0 [10; 1] [2; 2] 2 FLOAT32 0 Accurate.
Definition sym_B : Tensor :=
  mkTensor (mkBuf 4096 1024) 3 [1] [5] 1 FLOAT32 0 Fuzzy.

(** a 2-D accurate descriptor on the buffer of [s4_A], with the same
    version: elements {6,7,8,16,17,18}, none of which [s4_A] reaches *)
Definition sym_C : Tensor :=
  mkTensor (mkBuf 4096 1024) 6 [10; 1] [2; 3] 2 FLOAT32 0 Accurate.

(** one tensor inserted twice by one task *)
Definition tm_ops_same_task : list tm_op :=
  [OpInsert s3_write 0 false; OpInsert s3_write 0 false].

(** three tasks write or read one buffer, then [last_task_alive] moves to 1 *)
Definition tm_ops_before_lookup : list tm_op :=
  [OpInsert s3_write 0 false; OpInsert s3_read 1 false; OpInsert s3_write 2 true; OpSync 1].

(** the same, followed by a lookup (which truncates the stale entry of
    task 0) and the cleanup of task 0 *)
Definition tm_ops_mixed : list tm_op :=
  tm_ops_before_lookup ++ [OpLookup s3_read; OpCleanup 0 1].

(* ------------------------------------------------------------------ *)
(** ** Auxiliary definitions of the proofs *)

(** [offsets_from] read over the zipped (stride, repeat) pairs *)
Fixpoint offsets_pairs (o : Z) (ps : list (Z * Z)) : list Z :=
  match ps with
  | [] => [o]
  | (s, r) :: ps' => flat_map (fun k => offsets_pairs (o + k * s) ps') (zseq r)
  end.

Definition pairs_inv (n : nat) (ps0 : list (Z * Z)) (st : list Z * list Z) : Prop :=
  length (fst st) = n /\ length (snd st) = n /\ combine (fst st) (snd st) ≡ₚ ps0.

Definition zprod (l : list Z) : Z := fold_right Z.mul 1 l.

(** row-major strides of a shape: [strides_i = repeats_(i+1) * ...] *)
Fixpoint suffix_strides (rs : list Z) : list Z :=
  match rs with
  | [] => []
  | _ :: rs' => zprod rs' :: suffix_strides rs'
  end.

(** the fields of an entry the bucket chains read *)
Record bview := mkBV {
  bv_tensor : Tensor; bv_id : Z; bv_in : bool; bv_next : Z; bv_prev : Z }.

Definition to_bv (e : PTO2TensorMapEntry) : bview :=
  mkBV (tensor e) (producer_task_id e) (in_bucket e) (next_in_bucket e) (prev_in_bucket e).

Definition view (tm : PTO2TensorMap) (j : Z) : option bview :=
  option_map to_bv (get_entry tm j).

Definition bv_set_next (v : bview) (n : Z) : bview :=
  mkBV (bv_tensor v) (bv_id v) (bv_in v) n (bv_prev v).
Definition bv_set_prev (v : bview) (p : Z) : bview :=
  mkBV (bv_tensor v) (bv_id v) (bv_in v) (bv_next v) p.
Definition bv_clear (v : bview) : bview :=
  mkBV (bv_tensor v) (bv_id v) false (-1) (-1).

Definition vupd (gv : Z -> option bview) (y : Z) (f : bview -> bview) : Z -> option bview :=
  fun z => if z =? y then option_map f (gv y) else gv z.
Definition bupd (bh : Z -> Z) (b v : Z) : Z -> Z :=
  fun c => if c =? b then v else bh c.

(** the hash reads only [num_buckets] of the map *)
Definition hash_nb (nb : Z) (t : Tensor) : Z :=
  pto2_tensormap_hash (mkTM [] nb [] 0 0 [] 0) t.

(** chains and chain segments over a view of the pool *)
Inductive vchain (gv : Z -> option bview) : Z -> list Z -> Prop :=
  | vchain_nil h : h < 0 -> vchain gv h []
  | vchain_cons h v L :
      0 <= h -> gv h = Some v -> vchain gv (bv_next v) L -> vchain gv h (h :: L).

Inductive vseg (gv : Z -> option bview) : Z -> list Z -> Z -> Prop :=
  | vseg_nil h : vseg gv h [] h
  | vseg_cons h v L m :
      0 <= h -> gv h = Some v -> vseg gv (bv_next v) L m -> vseg gv h (h :: L) m.

Fixpoint prev_ok (gv : Z -> option bview) (p : Z) (L : list Z) : Prop :=
  match L with
  | [] => True
  | x :: L' => (exists v, gv x = Some v /\ bv_prev v = p) /\ prev_ok gv x L'
  end.

Fixpoint vids (gv : Z -> option bview) (L : list Z) : list Z :=
  match L with
  | [] => []
  | x :: L' => match gv x with
               | Some v => bv_id v :: vids gv L'
               | None => vids gv L'
               end
  end.

Definition lastd (d : Z) (L : list Z) : Z := List.last L d.

(** bucket [b] with head [h] holds the chain [L]: linked both ways, every
    member in a bucket, hashing to [b], with an id at most [G], and the
    ids non-increasing *)
Definition bok (gv : Z -> option bview) (hf : Tensor -> Z) (G b h : Z) (L : list Z) : Prop :=
  vchain gv h L /\
  (forall x, In x L -> exists v, gv x = Some v /\ bv_in v = true /\
                                 hf (bv_tensor v) = b /\ bv_id v <= G) /\
  prev_ok gv (-1) L /\ Sorted Z.ge (vids gv L).

(** every bucket holds such a chain, and every entry marked in a bucket is
    on the chain of its hash bucket *)
Definition inva (gv : Z -> option bview) (bh : Z -> Z) (hf : Tensor -> Z) (nbk G : Z) : Prop :=
  (forall b, 0 <= b < nbk -> exists L, bok gv hf G b (bh b) L) /\
  (forall x v, gv x = Some v -> bv_in v = true ->
     0 <= hf (bv_tensor v) < nbk /\
     exists L, bok gv hf G (hf (bv_tensor v)) (bh (hf (bv_tensor v))) L /\ In x L).

(** the [prev_ptr] of the lookup loop after it has passed the entries [P]
    of bucket [b] *)
Definition link_of (b : Z) (P : list Z) : link_ptr :=
  match P with [] => BucketHead b | _ => NextOf (lastd (-1) P) end.

Definition tm_inv (tm : PTO2TensorMap) (G : Z) : Prop :=
  inva (view tm) (bucket_head tm) (hash_nb (num_buckets tm))
       (Z.of_nat (length (buckets tm))) G.

(* ------------------------------------------------------------------ *)
(** ** More of the Tensor methods and of the TensorMap *)

(** [Tensor::offset_ndim_to_1d]: [result += offset_ndims[i] * strides[i]] *)
Definition offset_ndim_to_1d (t : Tensor) (offs : list Z) : Z :=
  fold_left (fun acc i => add64 acc (mul64 (nth i offs 0) (nth i (strides t) 0)))
            (seq 0 (ndims t)) 0.

(** [Tensor::valid_view] *)
Definition valid_view (t : Tensor) (shapes offs : list Z) : bool :=
  forallb (fun i => negb (nth i (repeats t) 0 <? add64 (nth i shapes 0) (nth i offs 0)))
          (seq 0 (ndims t)).

(** [Tensor::view] (both overloads); the [debug_assert(valid_view(...))]
    is not part of the release code *)
Definition tensor_view (t : Tensor) (shapes offs : list Z) : Tensor :=
  mkTensor (buffer t) (add64 (start_offset t) (offset_ndim_to_1d t offs)) (strides t)
           (fold_left (fun rs i => <[i := nth i shapes 0]> rs) (seq 0 (ndims t)) (repeats t))
           (ndims t) (dtype t) (version t) (overlap_type t).

(** [Tensor::valid_transpose] *)
Definition valid_transpose (t : Tensor) (x y : nat) : bool :=
  (x <? ndims t)%nat && (y <? ndims t)%nat.

(** [Tensor::transpose]: [std::swap] of [strides[x], strides[y]] and of
    [repeats[x], repeats[y]] *)
Definition transpose (t : Tensor) (x y : nat) : Tensor :=
  mkTensor (buffer t) (start_offset t) (swap_at (strides t) x y) (swap_at (repeats t) x y)
           (ndims t) (dtype t) (version t) (overlap_type t).

(** [Tensor::make_1d_contiguous] *)
Definition make_1d_contiguous (a size_bytes : Z) (d : DataType) (v : Z) : Tensor :=
  let size_elements := size_bytes / get_element_size d in
  mkTensor (mkBuf a size_bytes) 0 [1] [size_elements] 1 d v Accurate.

(** the stride loop of [make_tensor] and [make_tensor_external]:
    [strides[ndims-1] = 1; for (i = ndims-1; i > 0; i--)
     strides[i-1] = strides[i] * shapes[i]] *)
Definition make_strides (shapes : list Z) (n : nat) : list Z :=
  fold_left (fun ss i => <[(i - 1)%nat := mul64 (nth i ss 0) (nth i shapes 0)]> ss)
            (rev (seq 1 (n - 1))) (<[(n - 1)%nat := 1]> (replicate n 0)).

(** [make_tensor_external(addr, shapes, ndims, dtype, version)]; [None] when
    [ndims] is 0 ([strides[ndims - 1]] is then outside the array) or above
    [RUNTIME_MAX_TENSOR_DIMS]; the constructor copies the first [ndims]
    shapes *)
Definition make_tensor_external (a : Z) (shapes : list Z) (n : nat) (d : DataType) (v : Z)
    : option Tensor :=
  if (n =? 0)%nat || (RUNTIME_MAX_TENSOR_DIMS <? n)%nat then None
  else
    let ss := make_strides shapes n in
    Some (mkTensor (mkBuf a (mul64 (mul64 (nth 0 ss 0) (nth 0 shapes 0)) (get_element_size d)))
                   0 ss (take n shapes) n d v Accurate).

(** [make_tensor(shapes, ndims, dtype, version)]: address 0 *)
Definition make_tensor (shapes : list Z) (n : nat) (d : DataType) (v : Z) : option Tensor :=
  if (n =? 0)%nat || (RUNTIME_MAX_TENSOR_DIMS <? n)%nat then None
  else
    let ss := make_strides shapes n in
    Some (mkTensor (mkBuf 0 (mul64 (mul64 (nth 0 ss 0) (nth 0 shapes 0)) (get_element_size d)))
                   0 ss (take n shapes) n d v Accurate).

(** the dot product of two lists *)
Fixpoint dotz (xs ys : list Z) : Z :=
  match xs, ys with
  | x :: xs', y :: ys' => x * y + dotz xs' ys'
  | _, _ => 0
  end.


(** the loop of [Tensor::is_valid_tensor] over [i = 1 .. ndims-1];
    [None] is the undefined [strides[i-1] % strides[i]] with a zero stride *)
Fixpoint valid_loop (ss rs : list Z) (is : list nat) : option bool :=
  match is with
  | [] => Some true
  | i :: is' =>
      if nth (i - 1)%nat ss 0 <? nth i ss 0 then Some false
      else if nth i ss 0 =? 0 then None
      else if negb (nth (i - 1)%nat ss 0 mod nth i ss 0 =? 0) then Some false
      else if nth (i - 1)%nat ss 0 <? mul64 (nth i ss 0) (nth i rs 0) then Some false
      else valid_loop ss rs is'
  end.

(** [Tensor::is_valid_tensor]; [None] is undefined behaviour: [ndims = 0]
    reads [strides[ndims - 1]] out of bounds, or a zero stride is a divisor *)
Definition is_valid_tensor (t : Tensor) : option bool :=
  let n := ndims t in
  if Nat.eqb n 0 then None
  else if negb (nth (n - 1)%nat (strides t) 0 =? 1) then Some false
  else match valid_loop (strides t) (repeats t) (seq 1 (n - 1)) with
       | Some true =>
           let fuzzy_seg := get_fuzzy_seg t in
           let end_byte_offset := mul64 (seg_end fuzzy_seg) (get_element_size (dtype t)) in
           Some (negb (size (buffer t) <? end_byte_offset))
       | r => r
       end.

(** the end of [get_fuzzy_seg] computed over Z, without wrap-around *)
Definition exact_fuzzy_end (t : Tensor) : Z :=
  fold_left (fun acc i => acc + (nth i (repeats t) 0 - 1) * nth i (strides t) 0)
            (seq 0 (ndims t)) (start_offset t) + 1.


(** [for (int32_t i = 0; i < n; i++) a[i] = x;] *)
Definition zfill {A} (l : list A) (n : Z) (x : A) : option (list A) :=
  fold_left (fun acc i => l ← acc; zstore l (Z.of_nat i) x) (seq 0 (Z.to_nat n)) (Some l).

(** [for (int32_t i = 0; i < n; i++) update a[i] in place] *)
Definition zupdate {A} (l : list A) (n : Z) (f : A -> A) : option (list A) :=
  fold_left (fun acc i => l ← acc; x ← zlookup l (Z.of_nat i); zstore l (Z.of_nat i) (f x))
            (seq 0 (Z.to_nat n)) (Some l).

(** the field writes of [pto2_tensormap_reset] (and of the loop in
    [pto2_tensormap_init]) on one entry *)
Definition reset_entry (e : PTO2TensorMapEntry) : PTO2TensorMapEntry :=
  mkEntry (tensor e) (-1) (with_alloc e) false (-1) (-1) (-1) (-1).

(** [pto2_tensormap_reset] *)
Definition pto2_tensormap_reset (tm : PTO2TensorMap) : option PTO2TensorMap :=
  bs ← zfill (buckets tm) (num_buckets tm) (-1);
  pool ← zupdate (entry_pool tm) (pool_size tm) reset_entry;
  hs ← zfill (task_entry_head tm) PTO2_TASK_WINDOW_SIZE (-1);
  Some (mkTM bs (num_buckets tm) pool (pool_size tm) 0 hs 0).

(** [pto2_tensormap_valid_count] *)
Definition pto2_tensormap_valid_count (tm : PTO2TensorMap) : option Z :=
  fold_left (fun acc i =>
               count ← acc;
               e ← get_entry tm (Z.of_nat i);
               Some (if in_bucket e && pto2_tensormap_entry_valid tm e then count + 1 else count))
            (seq 0 (Z.to_nat (pool_size tm))) (Some 0).

(** the stride lists on which [offset_to_ndims] inverts [offset_ndim_to_1d]:
    every stride at least 1, the innermost one equal to 1 *)
Fixpoint offset_dot_ok (ss : list Z) : Prop :=
  match ss with
  | [] => False
  | [s] => s = 1
  | s :: ss' => 1 <= s /\ offset_dot_ok ss'
  end.

(** [(s1, r1)] is at most [(s2, r2)] in the lexicographic order *)
Definition lex_le (s1 r1 s2 r2 : Z) : Prop := s1 < s2 \/ (s1 = s2 /\ r1 <= r2).

(** the first [i] positions hold, in order, the largest pairs of [n] *)
Definition sorted_upto (ss rs : list Z) (n i : nat) : Prop :=
  forall a b, (a < i)%nat -> (a < b < n)%nat ->
    lex_le (nth b ss 0) (nth b rs 0) (nth a ss 0) (nth a rs 0).

(** a pair [(offset, status)] that [pto2_tensormap_lookup] may return *)
Definition reported (tm : PTO2TensorMap) (t : Tensor) (p : Z * OverlapStatus) : Prop :=
  exists e, get_entry tm (fst p) = Some e /\ pto2_tensormap_entry_valid tm e = true /\
            snd p = is_overlap t (tensor e) /\ snd p <> NO_OVERLAP.


(** [entry->next_in_task = v] *)
Definition set_next_in_task (e : PTO2TensorMapEntry) (v : Z) :=
  set_task_links e v (prev_in_task e).

(** [pto2_tensormap_remove_from_task]; like [pto2_tensormap_remove_from_bucket]
    every field is read from the current state, as through the pointer *)
Definition pto2_tensormap_remove_from_task (tm : PTO2TensorMap) (off : Z)
    : option PTO2TensorMap :=
  e ← get_entry tm off;
  tm1 ← (if prev_in_task e =? -1 then
           put_task_head tm (Z.land (producer_task_id e) (PTO2_TASK_WINDOW_SIZE - 1))
                         (next_in_task e)
         else
           p ← get_entry tm (prev_in_task e);
           put_entry tm (prev_in_task e) (set_next_in_task p (next_in_task e)));
  e1 ← get_entry tm1 off;
  tm2 ← (if 0 <=? next_in_task e1 then
           n ← get_entry tm1 (next_in_task e1);
           put_entry tm1 (next_in_task e1) (set_prev_in_task n (prev_in_task e1))
         else Some tm1);
  e2 ← get_entry tm2 off;
  put_entry tm2 off (set_task_links e2 (-1) (-1)).

(** [pto2_tensormap_remove_entry] *)
Definition pto2_tensormap_remove_entry (tm : PTO2TensorMap) (off : Z) : option PTO2TensorMap :=
  tm1 ← pto2_tensormap_remove_from_bucket tm off;
  pto2_tensormap_remove_from_task tm1 off.

(** a map from [pto2_tensormap_init 4 4]; the same after task 0 wrote
    [s3_write]; and after its entry 0 was removed *)
Definition tm_small : PTO2TensorMap := default (mkTM [] 0 [] 0 0 [] 0) (pto2_tensormap_init 4 4).
Definition tm_small_w : PTO2TensorMap :=
  default tm_small (pto2_tensormap_insert tm_small s3_write 0 false).
Definition tm_small_r : PTO2TensorMap :=
  default tm_small_w (pto2_tensormap_remove_entry tm_small_w 0).

(* ================================================================== *)
(** * Proofs *)

(* ------------------------------------------------------------------ *)
(** ** Generic facts *)

Lemma in_zseq (k r : Z) : In k (zseq r) <-> 0 <= k < r.
Proof.
  unfold zseq. rewrite in_map_iff. split.
  - intros (n & <- & Hn). apply in_seq in Hn. lia.
  - intros Hk. exists (Z.to_nat k). split; [lia|]. apply in_seq. lia.
Qed.

Lemma offsets_from_1d (o0 s r o : Z) :
  In o (offsets_from o0 [s] [r]) <-> exists k, 0 <= k < r /\ o = o0 + k * s.
Proof.
  simpl. rewrite in_flat_map. split.
  - intros (k & Hk & [<- | []]). apply in_zseq in Hk. eauto.
  - intros (k & Hk & ->). exists k. split; [apply in_zseq; lia | left; reflexivity].
Qed.

Lemma u64_id (z : Z) : 0 <= z < 2 ^ 64 -> u64 z = z.
Proof. intros H. unfold u64. apply Z.mod_small. exact H. Qed.

Lemma u64_range (z : Z) : 0 <= u64 z < 2 ^ 64.
Proof. unfold u64. apply Z.mod_pos_bound. lia. Qed.

Lemma get_element_size_pos (d : DataType) : 1 <= get_element_size d <= 8.
Proof. destruct d; simpl; lia. Qed.

Lemma dtype_eqb_eq (a b : DataType) : dtype_eqb a b = true <-> a = b.
Proof. destruct a, b; simpl; split; congruence. Qed.

(* ------------------------------------------------------------------ *)
(** ** C5: a newer reader version is OTHER before any range test *)

(** C5: for a reader [r] and a producer [p] on the same base address with
    [version r > version p], [is_overlap r p] is [OTHER], whatever their
    byte ranges. *)
Theorem is_overlap_newer_version (r p : Tensor) :
  addr (buffer r) = addr (buffer p) -> version p < version r ->
  is_overlap r p = OTHER.
Proof.
  intros Ha Hv. unfold is_overlap, is_same_memref. rewrite Ha, Z.eqb_refl. simpl.
  apply Z.ltb_lt in Hv. rewrite Hv. reflexivity.
Qed.

Lemma is_overlap_newer_version_witness :
  (addr (buffer (mkTensor (mkBuf 4096 1024) 200 [1] [8] 1 FLOAT32 1 Accurate))
   = addr (buffer s3_write) /\ version s3_write < 1) /\
  is_overlap (mkTensor (mkBuf 4096 1024) 200 [1] [8] 1 FLOAT32 1 Accurate)
             (mkTensor (mkBuf 4096 1024) 0 [1] [8] 1 FLOAT32 0 Accurate) = OTHER.
Proof.
  split; [split; reflexivity|].
  apply is_overlap_newer_version; reflexivity.
Defined.

(* ------------------------------------------------------------------ *)
(** ** C9: the hash reads only the base address *)

(** C9: two tensors with the same [buffer.addr] land in the same bucket,
    whatever their other fields, and when [num_buckets] is a power of two
    representable in int32 the bucket index is below [num_buckets]. *)
Theorem tensormap_hash_base_addr_only (tm : PTO2TensorMap) (t1 t2 : Tensor) (k : Z) :
  (addr (buffer t1) = addr (buffer t2) ->
   pto2_tensormap_hash tm t1 = pto2_tensormap_hash tm t2) /\
  (0 <= k <= 30 -> num_buckets tm = 2 ^ k ->
   0 <= pto2_tensormap_hash tm t1 < num_buckets tm).
Proof.
  split.
  - intros Ha. unfold pto2_tensormap_hash. rewrite Ha. reflexivity.
  - intros Hk Hnb. unfold pto2_tensormap_hash. rewrite Hnb.
    assert (Hp : 0 < 2 ^ k) by (apply Z.pow_pos_nonneg; lia).
    assert (Hle : 2 ^ k <= 2 ^ 30) by (apply Z.pow_le_mono_r; lia).
    rewrite u64_id by lia.
    replace (2 ^ k - 1) with (Z.ones k) by (rewrite Z.ones_equiv; lia).
    rewrite Z.land_ones by lia.
    set (x := _ mod 2 ^ k).
    assert (0 <= x < 2 ^ k) by (apply Z.mod_pos_bound; lia).
    rewrite Z.mod_small by lia. lia.
Qed.

Lemma tensormap_hash_base_addr_only_witness :
  pto2_tensormap_hash (mkTM [] 16 [] 0 0 [] 0) s4_A
  = pto2_tensormap_hash (mkTM [] 16 [] 0 0 [] 0) s4_B /\
  0 <= pto2_tensormap_hash (mkTM [] 16 [] 0 0 [] 0) s4_A < 16.
Proof.
  destruct (tensormap_hash_base_addr_only (mkTM [] 16 [] 0 0 [] 0) s4_A s4_B 4)
    as [H1 H2].
  split.
  - apply H1. reflexivity.
  - apply H2; [lia | reflexivity].
Defined.

(* ------------------------------------------------------------------ *)
(** ** C4: the S4 pair *)

(** C4 (code defect): on the S4 pair the per-axis hyper-rectangle branch
    decides (it returns [Some _], so [complex_overlap] is not reached),
    but it answers [COVERED]: axis 1 does not intersect, which clears
    [overlap] and leaves [contains] true, and [contains] is tested
    first.  The two element sets are disjoint. *)
Theorem s4_per_axis_covered :
  hyper_rect_status s4_A s4_B = Some COVERED /\
  is_overlap s4_A s4_B = COVERED /\
  elem_offsets s4_A = [0; 1; 2; 3; 4; 5; 10; 11; 12; 13; 14; 15; 20; 21; 22; 23; 24; 25] /\
  elem_offsets s4_B = [6; 7; 8; 16; 17; 18; 26; 27; 28].
Proof. repeat split; reflexivity. Qed.

(* ------------------------------------------------------------------ *)
(** ** C1: the S3 pair *)

(** C1 (counterexample): every byte the S3 read reaches is written by the
    S3 write, yet the read is classified [OTHER] against the write: the
    1-D branch asks whether the reader's segment contains the producer's. *)
Lemma s3_read_not_covered :
  (forall b, reach_byte s3_read b -> reach_byte s3_write b) /\
  is_overlap s3_read s3_write = OTHER.
Proof.
  split; [|reflexivity].
  intros b (o & Ho & Hb). unfold elem_offsets in Ho. simpl in Ho.
  change (In o (offsets_from 64 [1] [128])) in Ho.
  apply offsets_from_1d in Ho as (k & Hk & ->).
  exists (64 + k * 1). split; [|exact Hb].
  unfold elem_offsets. simpl. change (In (64 + k * 1) (offsets_from 0 [1] [256])).
  apply offsets_from_1d. exists (64 + k). split; lia.
Qed.

(* ------------------------------------------------------------------ *)
(** ** C1: the 1-D branch *)

Lemma byte_seg_1d (t : Tensor) (n : Z) :
  ndims t = 1%nat -> strides t = [1] -> repeats t = [n] -> 1 <= n ->
  0 <= start_offset t ->
  (start_offset t + n) * get_element_size (dtype t) < 2 ^ 64 ->
  byte_fuzzy_seg t =
  mkSeg (start_offset t * get_element_size (dtype t))
        ((start_offset t + n) * get_element_size (dtype t)).
Proof.
  intros Hn Hs Hr Hn1 Hso Hov.
  pose proof (get_element_size_pos (dtype t)) as Hes.
  unfold byte_fuzzy_seg, to_byte_seg, get_fuzzy_seg.
  rewrite Hn, Hs, Hr. simpl.
  unfold add64, mul64, sub64.
  rewrite (u64_id (n - 1)) by nia. rewrite (u64_id (1 * (n - 1))) by nia.
  rewrite (u64_id (start_offset t + 1 * (n - 1))) by nia.
  rewrite (u64_id (start_offset t + 1 * (n - 1) + 1)) by nia.
  replace (start_offset t + 1 * (n - 1) + 1) with (start_offset t + n) by lia.
  rewrite !u64_id by nia. reflexivity.
Qed.

Lemma reach_1d (t : Tensor) (n b : Z) :
  ndims t = 1%nat -> strides t = [1] -> repeats t = [n] ->
  reach_byte t b <->
  start_offset t * get_element_size (dtype t) <= b <
  (start_offset t + n) * get_element_size (dtype t).
Proof.
  intros Hn Hs Hr.
  pose proof (get_element_size_pos (dtype t)) as Hes.
  set (es := get_element_size (dtype t)) in *.
  unfold reach_byte, elem_offsets. rewrite Hn, Hs, Hr. simpl take.
  split.
  - intros (o & Ho & Hb). apply offsets_from_1d in Ho as (k & Hk & ->). nia.
  - intros Hb. exists (b / es).
    pose proof (Z.div_mod b es ltac:(lia)) as Hd.
    pose proof (Z.mod_pos_bound b es ltac:(lia)) as Hm.
    assert (start_offset t <= b / es) by (apply Z.div_le_lower_bound; lia).
    assert (b / es < start_offset t + n) by (apply Z.div_lt_upper_bound; lia).
    split; [|nia].
    apply offsets_from_1d. exists (b / es - start_offset t). split; lia.
Qed.

(** C1 (amended): for a reader [r] and a producer [p], both 1-D contiguous,
    on one base address, with equal versions, an accurate producer and
    intersecting fuzzy byte segments, [is_overlap r p] is [COVERED] exactly
    when every byte the producer reaches is reached by the reader (the
    reader's set contains the producer's), and [OTHER] otherwise. *)
Theorem is_overlap_1d_covered (r p : Tensor) :
  desc_1d r -> desc_1d p ->
  is_same_memref r p = true -> version r = version p ->
  overlap_type p = Accurate ->
  line_segment_intersection (byte_fuzzy_seg r) (byte_fuzzy_seg p) = true ->
  (is_overlap r p = COVERED <-> (forall b, reach_byte p b -> reach_byte r b)) /\
  (is_overlap r p <> COVERED -> is_overlap r p = OTHER).
Proof.
  intros (Hnr & Hsr & nr & Hrr & Hnr1 & Hr0 & Hrov)
         (Hnp & Hsp & np & Hrp & Hnp1 & Hp0 & Hpov) Hm Hv Ho Hi.
  pose proof (get_element_size_pos (dtype r)) as Her.
  pose proof (get_element_size_pos (dtype p)) as Hep.
  assert (Hc : is_overlap r p =
               if contains (byte_fuzzy_seg r) (byte_fuzzy_seg p) then COVERED else OTHER).
  { unfold is_overlap. rewrite Hm, Hv, Z.ltb_irrefl, Hi, Ho, Hnr, Hnp. reflexivity. }
  rewrite (byte_seg_1d r nr), (byte_seg_1d p np) in Hc by assumption.
  unfold contains in Hc. simpl in Hc.
  split.
  - rewrite Hc. split.
    + intros Hcov b Hb.
      destruct (_ && _) eqn:E; [|discriminate].
      apply andb_true_iff in E as [E1 E2]. apply Z.leb_le in E1, E2.
      apply (reach_1d r nr b Hnr Hsr Hrr). apply (reach_1d p np b Hnp Hsp Hrp) in Hb. lia.
    + intros Hsub.
      assert (H1 := Hsub (start_offset p * get_element_size (dtype p))).
      assert (H2 := Hsub ((start_offset p + np) * get_element_size (dtype p) - 1)).
      rewrite (reach_1d p np _ Hnp Hsp Hrp), (reach_1d r nr _ Hnr Hsr Hrr) in H1.
      rewrite (reach_1d p np _ Hnp Hsp Hrp), (reach_1d r nr _ Hnr Hsr Hrr) in H2.
      assert (start_offset r * get_element_size (dtype r) <=
              start_offset p * get_element_size (dtype p)) by (apply H1; nia).
      assert ((start_offset p + np) * get_element_size (dtype p) <=
              (start_offset r + nr) * get_element_size (dtype r))
        by (enough (Hlt : (start_offset p + np) * get_element_size (dtype p) - 1 <
                        (start_offset r + nr) * get_element_size (dtype r)) by lia;
            apply H2; nia).
      rewrite (proj2 (Z.leb_le _ _)), (proj2 (Z.leb_le _ _)) by lia. reflexivity.
  - rewrite Hc. destruct (_ && _); [contradiction|reflexivity].
Qed.

(** the C1 theorem at the S3 pair read the other way round: the S3 write as
    the reader, the S3 read as the producer *)
Lemma is_overlap_1d_covered_witness :
  desc_1d s3_write /\ desc_1d s3_read /\
  is_same_memref s3_write s3_read = true /\ version s3_write = version s3_read /\
  overlap_type s3_read = Accurate /\
  line_segment_intersection (byte_fuzzy_seg s3_write) (byte_fuzzy_seg s3_read) = true /\
  ((is_overlap s3_write s3_read = COVERED <->
    (forall b, reach_byte s3_read b -> reach_byte s3_write b)) /\
   (is_overlap s3_write s3_read <> COVERED -> is_overlap s3_write s3_read = OTHER)).
Proof.
  assert (D1 : desc_1d s3_write).
  { split; [reflexivity|]. split; [reflexivity|]. exists 256. repeat split; simpl; try reflexivity; lia. }
  assert (D2 : desc_1d s3_read).
  { split; [reflexivity|]. split; [reflexivity|]. exists 128. repeat split; simpl; try reflexivity; lia. }
  split; [exact D1|]. split; [exact D2|].
  split; [reflexivity|]. split; [reflexivity|]. split; [reflexivity|].
  split; [reflexivity|].
  apply (is_overlap_1d_covered s3_write s3_read D1 D2);
    reflexivity.
Defined.

(* ------------------------------------------------------------------ *)
(** ** C3: two ways the symmetry on NO_OVERLAP fails *)

(** C3 (code bug): with equal versions, [is_overlap] is not symmetric on
    [NO_OVERLAP].  Both [s4_A] and [sym_C] are accurate and reach disjoint
    elements; [s4_A] against [sym_C] is decided by the per-axis branch as
    [COVERED], [sym_C] against [s4_A] is [NO_OVERLAP].  With a fuzzy
    producer, [sym_A] against [sym_B] is [OTHER], [sym_B] against [sym_A]
    is [NO_OVERLAP]. *)
Lemma overlap_not_symmetric :
  (version s4_A = version sym_C /\
   overlap_type s4_A = Accurate /\ overlap_type sym_C = Accurate /\
   (forall o, In o (elem_offsets s4_A) -> ~ In o (elem_offsets sym_C)) /\
   is_overlap s4_A sym_C = COVERED /\ is_overlap sym_C s4_A = NO_OVERLAP) /\
  (version sym_A = version sym_B /\
   is_overlap sym_A sym_B = OTHER /\ is_overlap sym_B sym_A = NO_OVERLAP).
Proof.
  split; [|repeat split; reflexivity].
  split; [reflexivity|]. split; [reflexivity|]. split; [reflexivity|].
  split; [|split; reflexivity].
  intros o H1 H2. vm_compute in H1, H2.
  repeat (destruct H1 as [<-|H1]); [..|contradiction];
    repeat (destruct H2 as [H2|H2]; [discriminate H2|]); exact H2.
Qed.

(* ------------------------------------------------------------------ *)
(** ** C6: two entries of one task in one bucket *)

(** C6 (counterexample): from the initial map, two inserts of one tensor
    by task 0 (non-decreasing ids) leave bucket 0 with the chain [1; 0]
    whose ids [0; 0] are not strictly decreasing. *)
Lemma bucket_chain_not_strict :
  Sorted Z.le (insert_ids tm_ops_same_task) /\
  match pto2_tensormap_init 4 4 with
  | Some tm0 =>
      match tm_run 10 tm0 tm_ops_same_task with
      | Some tm => chain tm (bucket_head tm 0) [1; 0] /\
                   chain_ids tm [1; 0] = [0; 0] /\
                   ~ Sorted Z.gt (chain_ids tm [1; 0])
      | None => False
      end
  | None => False
  end.
Proof.
  split; [repeat constructor; lia|].
  vm_compute.
  split; [|split; [reflexivity|]].
  - econstructor; [lia|reflexivity|].
    econstructor; [lia|reflexivity|]. constructor. cbn. lia.
  - intros Hs. apply Sorted_inv in Hs as [_ Hh]. apply HdRel_inv in Hh.
    vm_compute in Hh. discriminate.
Qed.

(* ------------------------------------------------------------------ *)
(** ** Offsets over (stride, repeat) pairs *)

Lemma offsets_from_pairs (o : Z) (ss rs : list Z) :
  offsets_from o ss rs = offsets_pairs o (combine ss rs).
Proof.
  revert o rs. induction ss as [|s ss IH]; intros o [|r rs]; try reflexivity.
  simpl. apply flat_map_ext. intros k. apply IH.
Qed.

Lemma flat_map_perm_ext {A B} (f g : A -> list B) (l : list A) :
  (forall x, f x ≡ₚ g x) -> flat_map f l ≡ₚ flat_map g l.
Proof.
  intros H. induction l as [|x l IH]; simpl; [reflexivity|].
  apply Permutation_app; [apply H | exact IH].
Qed.

Lemma flat_map_app_distr {A B} (f g : A -> list B) (l : list A) :
  flat_map (fun x => f x ++ g x) l ≡ₚ flat_map f l ++ flat_map g l.
Proof.
  induction l as [|x l IH]; simpl; [reflexivity|].
  rewrite IH, <- !app_assoc. apply Permutation_app_head.
  rewrite !app_assoc. apply Permutation_app_tail. apply Permutation_app_comm.
Qed.

Lemma flat_map_nil_fun {A B} (l : list A) :
  flat_map (fun _ => @nil B) l = [].
Proof. induction l; simpl; auto. Qed.

Lemma flat_map_comm {A B C} (f : A -> B -> list C) (l1 : list A) (l2 : list B) :
  flat_map (fun x => flat_map (fun y => f x y) l2) l1
  ≡ₚ flat_map (fun y => flat_map (fun x => f x y) l1) l2.
Proof.
  induction l1 as [|x l1 IH]; simpl.
  - rewrite flat_map_nil_fun. reflexivity.
  - rewrite flat_map_app_distr. apply Permutation_app_head. exact IH.
Qed.

Lemma offsets_pairs_perm (ps ps' : list (Z * Z)) :
  ps ≡ₚ ps' -> forall o, offsets_pairs o ps ≡ₚ offsets_pairs o ps'.
Proof.
  induction 1 as [|[s r] ps ps' _ IH|[sx rx] [sy ry] ps|ps ps' ps'' _ IH1 _ IH2];
    intros o; simpl.
  - reflexivity.
  - apply flat_map_perm_ext. intros k. apply IH.
  - etransitivity;
      [apply (flat_map_comm (fun k j => offsets_pairs (o + k * sy + j * sx) ps))|].
    apply flat_map_perm_ext. intros j. apply flat_map_perm_ext. intros k.
    replace (o + k * sy + j * sx) with (o + j * sx + k * sy) by lia. reflexivity.
  - etransitivity; [apply IH1 | apply IH2].
Qed.

(* ------------------------------------------------------------------ *)
(** ** resort_strides permutes the (stride, repeat) pairs *)

Lemma fold_left_inv {A B} (P : A -> Prop) (f : A -> B -> A) (l : list B) (a : A) :
  P a -> (forall a b, In b l -> P a -> P (f a b)) -> P (fold_left f l a).
Proof.
  revert a. induction l as [|b l IH]; intros a Ha Hf; simpl; [exact Ha|].
  apply IH; [apply Hf; [left; reflexivity | exact Ha]|].
  intros a' b' Hb. apply Hf. right. exact Hb.
Qed.

Lemma combine_insert {A B} (l1 : list A) (l2 : list B) (i : nat) (a : A) (b : B) :
  combine (<[i := a]> l1) (<[i := b]> l2) = <[i := (a, b)]> (combine l1 l2).
Proof.
  revert l2 i. induction l1 as [|x l1 IH]; intros [|y l2] [|i]; simpl; auto.
  f_equal. apply IH.
Qed.

Lemma lookup_combine_nth (ss rs : list Z) (i : nat) :
  (i < length ss)%nat -> (i < length rs)%nat ->
  combine ss rs !! i = Some (nth i ss 0, nth i rs 0).
Proof.
  revert rs i. induction ss as [|s ss IH]; intros [|r rs] [|i] H1 H2; simpl in *;
    try lia; auto.
  apply IH; lia.
Qed.

Lemma resort_step_inv (n i j : nat) (ps0 : list (Z * Z)) (st : list Z * list Z) :
  (i < n)%nat -> (j < n)%nat -> pairs_inv n ps0 st -> pairs_inv n ps0 (resort_step i st j).
Proof.
  intros Hi Hj. destruct st as [ss rs]. unfold pairs_inv, resort_step; simpl.
  intros (Hs & Hr & Hp).
  destruct (_ || _); simpl; [|auto].
  unfold swap_at. rewrite !length_insert. split; [exact Hs|]. split; [exact Hr|].
  rewrite !combine_insert. etransitivity; [|exact Hp].
  apply Permutation_insert_swap; apply lookup_combine_nth; lia.
Qed.

Lemma resort_arrays_inv (n : nat) (ss rs : list Z) :
  length ss = n -> length rs = n ->
  pairs_inv n (combine ss rs) (resort_arrays n ss rs).
Proof.
  intros Hs Hr. unfold resort_arrays.
  apply fold_left_inv; [unfold pairs_inv; simpl; auto|].
  intros st i Hi Hst. apply in_seq in Hi.
  apply fold_left_inv; [exact Hst|].
  intros st' j Hj Hst'. apply in_seq in Hj.
  apply resort_step_inv; [lia | lia | exact Hst'].
Qed.

(* ------------------------------------------------------------------ *)
(** ** C8: normalization keeps the multiset of element offsets *)

(** C8: for a descriptor whose arrays hold its [ndims] dimensions,
    [optimize] (the joint sort of [resort_strides]) leaves the list of
    reachable element offsets [start_offset + sum idx_i * strides_i] equal
    up to permutation, i.e. the same multiset. *)
Theorem optimize_preserves_offsets (t : Tensor) :
  wf_dims t -> elem_offsets (optimize t) ≡ₚ elem_offsets t.
Proof.
  intros [Hs Hr]. unfold optimize, resort_strides, elem_offsets.
  pose proof (resort_arrays_inv (ndims t) (strides t) (repeats t) Hs Hr) as Hinv.
  destruct (resort_arrays _ _ _) as [ss rs] eqn:E.
  destruct Hinv as (Hs' & Hr' & Hp); simpl in *.
  rewrite !take_ge by lia. rewrite !offsets_from_pairs.
  apply offsets_pairs_perm. exact Hp.
Qed.

Lemma optimize_preserves_offsets_witness :
  wf_dims (mkTensor (mkBuf 4096 1024) 2 [1; 10] [6; 3] 2 FLOAT32 0 Accurate) /\
  elem_offsets (optimize (mkTensor (mkBuf 4096 1024) 2 [1; 10] [6; 3] 2 FLOAT32 0 Accurate))
  ≡ₚ elem_offsets (mkTensor (mkBuf 4096 1024) 2 [1; 10] [6; 3] 2 FLOAT32 0 Accurate).
Proof.
  split; [split; reflexivity|].
  apply optimize_preserves_offsets. split; reflexivity.
Defined.

(* ------------------------------------------------------------------ *)
(** ** Contiguous layouts: strides are suffix products *)

Lemma zprod_ge1 (l : list Z) : Forall (fun x => 1 <= x) l -> 1 <= zprod l.
Proof. induction 1; simpl; nia. Qed.

Lemma zprod_pos_all (l : list Z) :
  Forall (fun x => 0 <= x) l -> 1 <= zprod l -> Forall (fun x => 1 <= x) l.
Proof.
  induction 1 as [|x l Hx Hl IH]; simpl; intros Hp; constructor.
  - assert (0 <= zprod l).
    { clear -Hl. induction Hl; simpl; nia. }
    nia.
  - apply IH. assert (0 <= zprod l).
    { clear -Hl. induction Hl; simpl; nia. }
    nia.
Qed.

Lemma zprod_drop_le (l : list Z) (i : nat) :
  Forall (fun x => 1 <= x) l -> zprod (drop i l) <= zprod l.
Proof.
  revert i. induction l as [|x l IH]; intros [|i] H; simpl; try lia.
  inversion H as [|? ? Hx Hl]; subst.
  pose proof (zprod_ge1 l Hl). specialize (IH i Hl). nia.
Qed.

Lemma nth_suffix_strides (l : list Z) (i : nat) :
  (i < length l)%nat -> nth i (suffix_strides l) 0 = zprod (drop (S i) l).
Proof.
  revert i. induction l as [|x l IH]; intros [|i] H; simpl in *; try lia; auto.
  apply IH. lia.
Qed.

Lemma length_suffix_strides (l : list Z) : length (suffix_strides l) = length l.
Proof. induction l; simpl; auto. Qed.

Lemma contig_suffix (ss rs : list Z) :
  length ss = length rs -> (1 <= length ss)%nat ->
  Forall (fun x => 1 <= x) rs -> zprod rs < 2 ^ 64 ->
  nth (length ss - 1) ss 0 = 1 ->
  (forall i, (S i < length ss)%nat ->
     nth i ss 0 = mul64 (nth (S i) ss 0) (nth (S i) rs 0)) ->
  ss = suffix_strides rs.
Proof.
  revert rs. induction ss as [|s ss IH]; intros [|r rs] Hl H1 Hf Hp Hlast Hstep;
    simpl in *; try lia.
  inversion Hf as [|? ? Hr Hrs]; subst.
  pose proof (zprod_ge1 rs Hrs) as Hge.
  destruct ss as [|s' ss'].
  - destruct rs; simpl in *; [|lia]. rewrite Hlast. reflexivity.
  - assert (Hss : s' :: ss' = suffix_strides rs).
    { apply IH; auto; simpl in *; try lia.
      - replace (length ss' - 0)%nat with (length ss') in Hlast by lia.
        replace (S (length ss') - 1)%nat with (length ss') by lia.
        destruct (length ss') eqn:E; [exact Hlast|]. exact Hlast.
      - intros i Hi. apply (Hstep (S i)). simpl. lia. }
    rewrite <- Hss. f_equal.
    rewrite (Hstep 0%nat) by (simpl; lia). simpl.
    destruct rs as [|r' rs']; simpl in *; [lia|].
    injection Hss as Hs' _. rewrite Hs'.
    inversion Hrs as [|? ? Hr' Hrs']; subst.
    unfold mul64. rewrite Z.mul_comm. apply u64_id.
    pose proof (zprod_ge1 rs' Hrs'). unfold zprod in *. simpl in *. nia.
Qed.

Lemma map_of_nat_seq_shift (s j m : nat) :
  map Z.of_nat (seq (s + j) m) = map (fun x => Z.of_nat s + Z.of_nat x) (seq j m).
Proof.
  revert j. induction m as [|m IH]; intros j; simpl; [reflexivity|].
  f_equal; [lia|]. rewrite <- Nat.add_succ_r. apply IH.
Qed.

Lemma zseq_add (a b : Z) :
  0 <= a -> 0 <= b -> zseq (a + b) = zseq a ++ map (Z.add a) (zseq b).
Proof.
  intros Ha Hb. unfold zseq. rewrite Z2Nat.inj_add by lia.
  rewrite seq_app, map_app. f_equal. simpl.
  rewrite <- (Nat.add_0_r (Z.to_nat a)) at 1.
  rewrite map_of_nat_seq_shift, map_map. apply map_ext. intros x. lia.
Qed.

Lemma map_flat_map {A B C} (f : B -> C) (g : A -> list B) (l : list A) :
  map f (flat_map g l) = flat_map (fun x => map f (g x)) l.
Proof. induction l; simpl; [reflexivity|]. rewrite map_app. f_equal. assumption. Qed.

Lemma zseq_mul (r p : Z) :
  0 <= r -> 0 <= p ->
  zseq (r * p) = flat_map (fun k => map (fun m => k * p + m) (zseq p)) (zseq r).
Proof.
  intros Hr Hp. rewrite <- (Z2Nat.id r) by lia.
  induction (Z.to_nat r) as [|n IH].
  - reflexivity.
  - rewrite Nat2Z.inj_succ, <- Z.add_1_r, Z.mul_add_distr_r, Z.mul_1_l.
    rewrite zseq_add by lia. rewrite (zseq_add (Z.of_nat n) 1) by lia.
    rewrite flat_map_app, IH. f_equal. simpl. rewrite app_nil_r.
    apply map_ext. intros m. lia.
Qed.

Lemma offsets_suffix (o : Z) (rs : list Z) :
  Forall (fun x => 0 <= x) rs ->
  offsets_from o (suffix_strides rs) rs = map (Z.add o) (zseq (zprod rs)).
Proof.
  revert o. induction rs as [|r rs IH]; intros o Hf; simpl.
  - rewrite Z.add_0_r. reflexivity.
  - inversion Hf as [|? ? Hr Hrs]; subst.
    assert (0 <= zprod rs).
    { clear -Hrs. induction Hrs; simpl; nia. }
    unfold zprod at 2. simpl. fold (zprod rs).
    rewrite zseq_mul, map_flat_map by lia.
    apply flat_map_ext. intros k. rewrite IH by exact Hrs. rewrite map_map.
    apply map_ext. intros m. lia.
Qed.

(** a loop [for i < n] reading [l[i]] is a fold over [l] *)
Lemma fold_left_nth_seq {A} (f : A -> Z -> A) (pre l : list Z) (a : A) :
  fold_left (fun acc i => f acc (nth i (pre ++ l) 0)) (seq (length pre) (length l)) a
  = fold_left f l a.
Proof.
  revert pre a. induction l as [|x l IH]; intros pre a; simpl; [reflexivity|].
  rewrite nth_middle. specialize (IH (pre ++ [x]) (f a x)).
  rewrite <- app_assoc, length_app in IH. simpl in IH.
  rewrite Nat.add_1_r in IH. exact IH.
Qed.

Lemma fold_mul64 (l : list Z) (a : Z) :
  0 <= a < 2 ^ 64 -> fold_left mul64 l a = u64 (a * zprod l).
Proof.
  revert a. induction l as [|x l IH]; intros a Ha; simpl.
  - rewrite Z.mul_1_r, u64_id by lia. reflexivity.
  - rewrite IH by apply u64_range. unfold mul64, u64.
    rewrite Zmult_mod_idemp_l. f_equal. unfold zprod. simpl. ring.
Qed.

Lemma insert_replicate_app (i : nat) (x : Z) (X : list Z) :
  <[i := x]> (replicate (S i) 0 ++ X) = replicate i 0 ++ x :: X.
Proof. induction i as [|i IH]; simpl; [reflexivity|]. f_equal. exact IH. Qed.

Lemma drop_nth (l : list Z) (i : nat) :
  (i < length l)%nat -> drop i l = nth i l 0 :: drop (S i) l.
Proof.
  revert i. induction l as [|x l IH]; intros [|i] H; simpl in *; try lia; auto.
  apply IH. lia.
Qed.

Lemma fold_left_rev {A B} (f : A -> B -> A) (l : list B) (a : A) :
  fold_left f (rev l) a = fold_right (fun x y => f y x) a l.
Proof. induction l; simpl; [reflexivity|]. rewrite fold_left_app. simpl. f_equal. assumption. Qed.

Lemma reshape_loop_spec (shapes : list Z) (nn : nat) :
  length shapes = nn -> Forall (fun x => 1 <= x) shapes -> zprod shapes < 2 ^ 64 ->
  reshape_loop shapes nn = (suffix_strides shapes, shapes, zprod shapes).
Proof.
  intros Hl Hf Hp. unfold reshape_loop. rewrite fold_left_rev.
  enough (H : forall m i, (i + m = nn)%nat ->
    fold_right (fun x y => let '(ns, nr, stride) := y in
                  (<[x := stride]> ns, <[x := nth x shapes 0]> nr,
                   mul64 stride (nth x shapes 0)))
      (replicate nn 0, replicate nn 0, 1) (seq i m)
    = (replicate i 0 ++ suffix_strides (drop i shapes),
       replicate i 0 ++ drop i shapes, zprod (drop i shapes))).
  { specialize (H nn 0%nat eq_refl). simpl in H. rewrite drop_0 in H. exact H. }
  induction m as [|m IH]; intros i Hi; simpl.
  - rewrite Nat.add_0_r in Hi. subst i. rewrite drop_ge by lia. simpl.
    rewrite !app_nil_r. reflexivity.
  - rewrite IH by lia. rewrite !insert_replicate_app.
    rewrite (drop_nth shapes i) by lia. simpl. f_equal.
    unfold mul64. rewrite u64_id; [unfold zprod; simpl; ring|].
    pose proof (zprod_drop_le shapes i Hf) as Hle.
    rewrite (drop_nth shapes i) in Hle by lia.
    assert (Hd : Forall (fun x => 1 <= x) (drop (S i) shapes))
      by (apply Forall_drop; exact Hf).
    pose proof (zprod_ge1 _ Hd).
    assert (1 <= nth i shapes 0).
    { apply (proj1 (Forall_nth _ 0 shapes) Hf). lia. }
    unfold zprod in *. simpl in Hle. nia.
Qed.

Lemma numel_zprod (t : Tensor) :
  length (repeats t) = ndims t -> (1 <= ndims t)%nat ->
  Forall (fun x => 0 <= x) (repeats t) -> zprod (repeats t) < 2 ^ 64 ->
  numel t = zprod (repeats t).
Proof.
  intros Hr Hn Hf Hp. unfold numel.
  destruct (Nat.eqb_spec (ndims t) 0); [lia|]. rewrite <- Hr.
  pose proof (fold_left_nth_seq mul64 [] (repeats t) 1) as E. simpl in E.
  rewrite E, fold_mul64 by lia. rewrite Z.mul_1_l. apply u64_id.
  split; [|exact Hp]. clear -Hf.
  induction Hf as [|x l Hx Hl IH]; unfold zprod in *; simpl; nia.
Qed.

Lemma is_contiguous_suffix (t : Tensor) :
  wf_dims t -> (1 <= ndims t)%nat -> Forall (fun x => 1 <= x) (repeats t) ->
  zprod (repeats t) < 2 ^ 64 -> is_contiguous t = true ->
  strides t = suffix_strides (repeats t).
Proof.
  intros [Hs Hr] Hn Hf Hp Hc. unfold is_contiguous in Hc.
  destruct (Nat.eqb_spec (ndims t) 0); [lia|].
  destruct (Z.eqb_spec (nth (ndims t - 1) (strides t) 0) 1) as [Hl|]; [|discriminate].
  simpl in Hc. rewrite forallb_forall in Hc.
  apply contig_suffix; try lia; auto.
  - rewrite Hs. exact Hl.
  - intros i Hi. apply Z.eqb_eq, Hc, in_seq. lia.
Qed.

(* ------------------------------------------------------------------ *)
(** ** C10: reshape of a contiguous descriptor *)

(** C10: let [t] be contiguous with [ndims >= 1], all repeats [>= 1] and
    an element count below [2^64], and let [s] be a shape of [nn >= 1]
    uint64 extents with the same product.  Then [t.reshape(s, nn)]
    succeeds (the [is_contiguous] assertion holds) and yields a descriptor
    with [t]'s buffer address and size, start_offset, dtype, version and
    overlap_type, the shape [s], which is contiguous and whose element
    offsets are, like [t]'s, exactly [start_offset + k] for
    [0 <= k < numel t] in ascending order.  [reshape] is a function of
    [t], which it leaves as it is. *)
Theorem reshape_contiguous_same_offsets (t : Tensor) (s : list Z) (nn : nat) :
  wf_dims t -> (1 <= ndims t)%nat -> Forall (fun r => 1 <= r) (repeats t) ->
  is_contiguous t = true ->
  length s = nn -> (1 <= nn)%nat -> Forall (fun x => 0 <= x) s ->
  zprod s = zprod (repeats t) -> zprod (repeats t) < 2 ^ 64 ->
  exists t', reshape t s nn = Some t' /\
    addr (buffer t') = addr (buffer t) /\ size (buffer t') = size (buffer t) /\
    start_offset t' = start_offset t /\ dtype t' = dtype t /\
    version t' = version t /\ overlap_type t' = overlap_type t /\
    ndims t' = nn /\ repeats t' = s /\
    is_contiguous t' = true /\
    elem_offsets t' = map (Z.add (start_offset t)) (zseq (numel t)) /\
    elem_offsets t = map (Z.add (start_offset t)) (zseq (numel t)).
Proof.
  intros Hwf Hn Hf Hc Hl Hnn Hs0 Hps Hp.
  assert (Hf0 : Forall (fun x => 0 <= x) (repeats t))
    by (eapply Forall_impl; [exact Hf | simpl; lia]).
  assert (Hs1 : Forall (fun x => 1 <= x) s)
    by (apply zprod_pos_all; [exact Hs0 | rewrite Hps; apply zprod_ge1, Hf]).
  assert (Hnum : numel t = zprod (repeats t))
    by (apply numel_zprod; [apply Hwf | exact Hn | exact Hf0 | exact Hp]).
  pose proof (is_contiguous_suffix t Hwf Hn Hf Hp Hc) as Hst.
  destruct Hwf as [Hs Hr].
  unfold reshape. rewrite Hc. simpl.
  rewrite reshape_loop_spec by (auto; lia).
  eexists. split; [reflexivity|]. simpl.
  do 8 (split; [reflexivity|]).
  split; [|split].
  - unfold is_contiguous. simpl.
    destruct (Nat.eqb_spec nn 0); [lia|].
    rewrite nth_suffix_strides by lia.
    replace (S (nn - 1)) with nn by lia. rewrite drop_ge by lia.
    simpl. apply forallb_forall. intros i Hi. apply in_seq in Hi.
    apply Z.eqb_eq. rewrite !nth_suffix_strides by lia.
    rewrite (drop_nth s (S i)) by lia.
    assert (Hd : Forall (fun x => 1 <= x) (drop (S (S i)) s))
      by (apply Forall_drop; exact Hs1).
    pose proof (zprod_ge1 _ Hd).
    assert (1 <= nth (S i) s 0) by (apply (proj1 (Forall_nth _ 0 s) Hs1); lia).
    pose proof (zprod_drop_le s (S i) Hs1) as Hle.
    rewrite (drop_nth s (S i)) in Hle by lia.
    unfold mul64. rewrite u64_id; unfold zprod in *; simpl in *; nia.
  - unfold elem_offsets. simpl.
    rewrite !take_ge by (rewrite ?length_suffix_strides; lia).
    rewrite offsets_suffix by exact Hs0. rewrite Hnum, Hps. reflexivity.
  - unfold elem_offsets. rewrite Hst, !take_ge by (rewrite ?length_suffix_strides; lia).
    rewrite offsets_suffix by exact Hf0. rewrite Hnum. reflexivity.
Qed.

Lemma reshape_contiguous_same_offsets_witness :
  exists t',
    reshape (mkTensor (mkBuf 4096 1024) 5 [3; 1] [2; 3] 2 FLOAT32 0 Accurate) [6] 1
    = Some t' /\ is_contiguous t' = true /\ elem_offsets t' = [5; 6; 7; 8; 9; 10].
Proof.
  destruct (reshape_contiguous_same_offsets
              (mkTensor (mkBuf 4096 1024) 5 [3; 1] [2; 3] 2 FLOAT32 0 Accurate) [6] 1)
    as (t' & H & _ & _ & _ & _ & _ & _ & _ & _ & Hc & Ho & _).
  - split; reflexivity.
  - simpl; lia.
  - repeat constructor; lia.
  - reflexivity.
  - reflexivity.
  - lia.
  - repeat constructor; lia.
  - reflexivity.
  - reflexivity.
  - exists t'. split; [exact H|]. split; [exact Hc|]. rewrite Ho. reflexivity.
Defined.

(* ------------------------------------------------------------------ *)
(** ** Bucket chains over a view of the pool *)

Lemma vchain_det (gv : Z -> option bview) (h : Z) (L1 L2 : list Z) :
  vchain gv h L1 -> vchain gv h L2 -> L1 = L2.
Proof.
  intros H1. revert L2.
  induction H1 as [h Hh|h v L Hh Hv HL IH]; intros L2 H2;
    inversion H2 as [? Hh2|? v2 L2' Hh2 Hv2 HL2]; subst; try lia; [reflexivity|].
  rewrite Hv in Hv2. injection Hv2 as <-. f_equal. apply IH. exact HL2.
Qed.

Lemma vchain_nonneg (gv : Z -> option bview) (h : Z) (L : list Z) (x : Z) :
  vchain gv h L -> In x L -> 0 <= x.
Proof.
  induction 1 as [|h v L Hh Hv HL IH]; simpl; [tauto|].
  intros [<- | Hx]; [exact Hh | exact (IH Hx)].
Qed.

Lemma vchain_suffix (gv : Z -> option bview) (h : Z) (L : list Z) (x : Z) :
  vchain gv h L -> In x L ->
  exists L1 L2, L = L1 ++ x :: L2 /\ vchain gv x (x :: L2).
Proof.
  induction 1 as [|h v L Hh Hv HL IH]; simpl; [tauto|].
  intros [<- | Hx].
  - exists [], L. split; [reflexivity|]. econstructor; eauto.
  - destruct (IH Hx) as (L1 & L2 & -> & Hc). exists (h :: L1), L2. auto.
Qed.

Lemma vchain_nodup (gv : Z -> option bview) (h : Z) (L : list Z) :
  vchain gv h L -> NoDup L.
Proof.
  induction 1 as [|h v L Hh Hv HL IH]; constructor; [|exact IH].
  intros Hin. apply list_elem_of_In in Hin.
  destruct (vchain_suffix gv _ L h HL Hin) as (L1 & L2 & -> & Hc).
  assert (Hc' : vchain gv h (h :: L1 ++ h :: L2)) by (econstructor; eauto).
  pose proof (vchain_det gv h _ _ Hc Hc') as E.
  apply (f_equal (@length Z)) in E. simpl in E. rewrite length_app in E. simpl in E. lia.
Qed.

Lemma vchain_app_inv (gv : Z -> option bview) (h : Z) (A B : list Z) :
  vchain gv h (A ++ B) -> exists k, vseg gv h A k /\ vchain gv k B.
Proof.
  revert h. induction A as [|x A IH]; intros h H; simpl in *.
  - exists h. split; [constructor | exact H].
  - inversion H as [|? v ? Hh Hv HL]; subst.
    destruct (IH _ HL) as (k & Hs & Hk). exists k. split; [econstructor; eauto | exact Hk].
Qed.

Lemma vchain_app (gv : Z -> option bview) (h : Z) (A : list Z) (k : Z) (B : list Z) :
  vseg gv h A k -> vchain gv k B -> vchain gv h (A ++ B).
Proof. induction 1; simpl; intros; [assumption | econstructor; eauto]. Qed.

Lemma vseg_snoc_inv (gv : Z -> option bview) (h : Z) (A : list Z) (p k : Z) :
  vseg gv h (A ++ [p]) k ->
  vseg gv h A p /\ exists v, 0 <= p /\ gv p = Some v /\ bv_next v = k.
Proof.
  revert h. induction A as [|x A IH]; intros h H; simpl in *.
  - inversion H as [|? v ? ? Hh Hv HL]; subst. inversion HL; subst.
    split; [constructor|]. exists v. auto.
  - inversion H as [|? v ? ? Hh Hv HL]; subst.
    destruct (IH _ HL) as [Hs Hp]. split; [econstructor; eauto | exact Hp].
Qed.

Lemma vseg_snoc (gv : Z -> option bview) (h : Z) (A : list Z) (p : Z) (v : bview) :
  vseg gv h A p -> 0 <= p -> gv p = Some v -> vseg gv h (A ++ [p]) (bv_next v).
Proof.
  induction 1 as [h|h w L m Hh Hw HL IH]; intros Hp Hv; simpl.
  - econstructor; eauto. constructor.
  - econstructor; eauto.
Qed.

Lemma vseg_ext (gv gv' : Z -> option bview) (h : Z) (A : list Z) (k : Z) :
  vseg gv h A k ->
  (forall y, In y A -> option_map bv_next (gv' y) = option_map bv_next (gv y)) ->
  vseg gv' h A k.
Proof.
  induction 1 as [h|h v L m Hh Hv HL IH]; intros Hn; [constructor|].
  specialize (Hn h (or_introl eq_refl)) as Hh'. rewrite Hv in Hh'.
  destruct (gv' h) as [v'|] eqn:E; simpl in Hh'; [|discriminate].
  injection Hh' as Hnx. econstructor; [exact Hh | exact E|].
  rewrite Hnx. apply IH. intros y Hy. apply Hn. right. exact Hy.
Qed.

Lemma vchain_ext (gv gv' : Z -> option bview) (h : Z) (L : list Z) :
  vchain gv h L ->
  (forall y, In y L -> option_map bv_next (gv' y) = option_map bv_next (gv y)) ->
  vchain gv' h L.
Proof.
  induction 1 as [h Hh|h v L Hh Hv HL IH]; intros Hn; [constructor; exact Hh|].
  specialize (Hn h (or_introl eq_refl)) as Hh'. rewrite Hv in Hh'.
  destruct (gv' h) as [v'|] eqn:E; simpl in Hh'; [|discriminate].
  injection Hh' as Hnx. econstructor; [exact Hh | exact E|].
  rewrite Hnx. apply IH. intros y Hy. apply Hn. right. exact Hy.
Qed.

Lemma prev_ok_ext (gv gv' : Z -> option bview) (p : Z) (L : list Z) :
  prev_ok gv p L ->
  (forall y, In y L -> option_map bv_prev (gv' y) = option_map bv_prev (gv y)) ->
  prev_ok gv' p L.
Proof.
  revert p. induction L as [|x L IH]; intros p H Hp; simpl in *; [exact I|].
  destruct H as [(v & Hv & Hpv) HL]. split.
  - specialize (Hp x (or_introl eq_refl)). rewrite Hv in Hp.
    destruct (gv' x) as [v'|]; simpl in Hp; [|discriminate].
    injection Hp as Hpp. exists v'. split; congruence.
  - apply IH; [exact HL|]. intros y Hy. apply Hp. right. exact Hy.
Qed.

Lemma vids_ext (gv gv' : Z -> option bview) (L : list Z) :
  (forall y, In y L -> option_map bv_id (gv' y) = option_map bv_id (gv y)) ->
  vids gv' L = vids gv L.
Proof.
  induction L as [|x L IH]; intros Hi; simpl; [reflexivity|].
  specialize (Hi x (or_introl eq_refl)) as Hx.
  rewrite IH by (intros y Hy; apply Hi; right; exact Hy).
  destruct (gv' x), (gv x); simpl in Hx; try discriminate; [|reflexivity].
  injection Hx as ->. reflexivity.
Qed.

Lemma vids_app (gv : Z -> option bview) (A B : list Z) :
  vids gv (A ++ B) = vids gv A ++ vids gv B.
Proof.
  induction A as [|x A IH]; simpl; [reflexivity|].
  destruct (gv x); simpl; [f_equal|]; exact IH.
Qed.

Lemma lastd_cons (d x : Z) (A : list Z) : lastd d (x :: A) = lastd x A.
Proof.
  unfold lastd. revert x d. induction A as [|y A IH]; intros x d; [reflexivity|].
  change (List.last (y :: A) d = List.last (y :: A) x). rewrite !IH. reflexivity.
Qed.

Lemma lastd_snoc (d x : Z) (A : list Z) : lastd d (A ++ [x]) = x.
Proof. unfold lastd. apply last_last. Qed.

Lemma prev_ok_app (gv : Z -> option bview) (p : Z) (A B : list Z) :
  prev_ok gv p (A ++ B) <-> prev_ok gv p A /\ prev_ok gv (lastd p A) B.
Proof.
  revert p. induction A as [|x A IH]; intros p.
  - unfold lastd. simpl. tauto.
  - rewrite lastd_cons. cbn [prev_ok app]. rewrite IH. tauto.
Qed.

Lemma Zge_trans : Transitive Z.ge.
Proof. intros a b c; lia. Qed.

Lemma sorted_ge_drop (l1 : list Z) (x : Z) (l2 : list Z) :
  Sorted Z.ge (l1 ++ x :: l2) -> Sorted Z.ge (l1 ++ l2).
Proof.
  intros H. apply StronglySorted_Sorted.
  apply Sorted_StronglySorted in H; [|exact Zge_trans]. clear -H.
  induction l1 as [|a l1 IH]; simpl in *.
  - apply StronglySorted_inv in H. apply H.
  - apply StronglySorted_inv in H as [H1 H2]. constructor; [apply IH, H1|].
    rewrite Forall_app in *. destruct H2 as [H2 H3]. inversion H3; auto.
Qed.

Lemma sorted_ge_prefix (l1 l2 : list Z) : Sorted Z.ge (l1 ++ l2) -> Sorted Z.ge l1.
Proof.
  intros H. apply StronglySorted_Sorted.
  apply Sorted_StronglySorted in H; [|exact Zge_trans]. clear -H.
  induction l1 as [|a l1 IH]; simpl in *; [constructor|].
  apply StronglySorted_inv in H as [H1 H2]. constructor; [apply IH, H1|].
  rewrite Forall_app in H2. apply H2.
Qed.

Lemma sorted_ge_cons (x : Z) (l : list Z) :
  Sorted Z.ge l -> Forall (fun y => y <= x) l -> Sorted Z.ge (x :: l).
Proof.
  intros H Hf. constructor; [exact H|]. destruct l as [|y l]; constructor.
  inversion Hf; lia.
Qed.

Lemma vids_bound (gv : Z -> option bview) (L : list Z) (G : Z) :
  (forall x, In x L -> exists v, gv x = Some v /\ bv_id v <= G) ->
  Forall (fun y => y <= G) (vids gv L).
Proof.
  induction L as [|x L IH]; intros H; simpl; [constructor|].
  destruct (H x (or_introl eq_refl)) as (v & Hv & Hi). rewrite Hv.
  constructor; [exact Hi|]. apply IH. intros y Hy. apply H. right. exact Hy.
Qed.

Lemma bok_frame (gv gv' : Z -> option bview) (hf : Tensor -> Z) (G b h : Z) (L : list Z) :
  bok gv hf G b h L -> (forall y, In y L -> gv' y = gv y) -> bok gv' hf G b h L.
Proof.
  intros (Hc & Hm & Hp & Hs) He. repeat split.
  - apply (vchain_ext gv); [exact Hc|]. intros y Hy. rewrite He by exact Hy. reflexivity.
  - intros x Hx. rewrite He by exact Hx. apply Hm, Hx.
  - apply (prev_ok_ext gv); [exact Hp|]. intros y Hy. rewrite He by exact Hy. reflexivity.
  - rewrite (vids_ext gv); [exact Hs|]. intros y Hy. rewrite He by exact Hy. reflexivity.
Qed.

Lemma bok_mono (gv : Z -> option bview) (hf : Tensor -> Z) (G G' b h : Z) (L : list Z) :
  bok gv hf G b h L -> G <= G' -> bok gv hf G' b h L.
Proof.
  intros (Hc & Hm & Hp & Hs) HG. repeat split; auto.
  intros x Hx. destruct (Hm x Hx) as (v & ? & ? & ? & ?). exists v. repeat split; auto. lia.
Qed.

Lemma bok_hash (gv : Z -> option bview) (hf : Tensor -> Z) (G b h : Z) (L : list Z) (y : Z) (v : bview) :
  bok gv hf G b h L -> In y L -> gv y = Some v -> hf (bv_tensor v) = b.
Proof. intros (_ & Hm & _) Hy Hv. destruct (Hm y Hy) as (w & Hw & _ & Hb & _). congruence. Qed.

Lemma inva_ext (gv gv' : Z -> option bview) (bh bh' : Z -> Z) (hf : Tensor -> Z) (nbk G : Z) :
  inva gv bh hf nbk G -> (forall y, gv' y = gv y) -> (forall c, bh' c = bh c) ->
  inva gv' bh' hf nbk G.
Proof.
  intros [H1 H2] Hg Hb. split.
  - intros b Hb'. destruct (H1 b Hb') as [L HL]. exists L. rewrite Hb.
    apply (bok_frame gv); auto.
  - intros x v Hx Hin. rewrite Hg in Hx. destruct (H2 x v Hx Hin) as [Hr (L & HL & HxL)].
    split; [exact Hr|]. exists L. split; [|exact HxL]. rewrite Hb.
    apply (bok_frame gv); auto.
Qed.

(** an entry marked in a bucket sits between its [prev] and [next] on the
    chain of its hash bucket *)
Lemma inva_member (gv : Z -> option bview) (bh : Z -> Z) (hf : Tensor -> Z) (nbk G x : Z) (vx : bview) :
  inva gv bh hf nbk G -> gv x = Some vx -> bv_in vx = true ->
  0 <= hf (bv_tensor vx) < nbk /\
  exists A B, bok gv hf G (hf (bv_tensor vx)) (bh (hf (bv_tensor vx))) (A ++ x :: B) /\
    vseg gv (bh (hf (bv_tensor vx))) A x /\ vchain gv (bv_next vx) B /\
    bv_prev vx = lastd (-1) A /\ NoDup (A ++ x :: B).
Proof.
  intros [_ H2] Hx Hin. destruct (H2 x vx Hx Hin) as [Hr (L & HL & HxL)].
  split; [exact Hr|].
  apply in_split in HxL as (A & B & ->). exists A, B. split; [exact HL|].
  destruct HL as (Hc & _ & Hp & _).
  pose proof (vchain_nodup _ _ _ Hc) as Hnd.
  apply vchain_app_inv in Hc as (k & Hs & Hk).
  inversion Hk as [|? v ? Hh Hv HB]; subst. rewrite Hx in Hv. injection Hv as <-.
  split; [exact Hs|]. split; [exact HB|]. split; [|exact Hnd].
  apply prev_ok_app in Hp as [_ Hp]. simpl in Hp. destruct Hp as [(w & Hw & Hpw) _].
  congruence.
Qed.

(* ------------------------------------------------------------------ *)
(** ** Prepending an entry to a bucket keeps the invariant *)

Lemma bok_member_in (gv : Z -> option bview) (hf : Tensor -> Z) (G b h : Z) (L : list Z) (y : Z) (v : bview) :
  bok gv hf G b h L -> In y L -> gv y = Some v -> bv_in v = true.
Proof. intros (_ & Hm & _) Hy Hv. destruct (Hm y Hy) as (w & Hw & Hi & _). congruence. Qed.

Lemma bok_head (gv : Z -> option bview) (hf : Tensor -> Z) (G b h : Z) (L : list Z) :
  bok gv hf G b h L -> 0 <= h -> exists L', L = h :: L'.
Proof.
  intros (Hc & _) Hh. inversion Hc; subst; [lia|]. eauto.
Qed.

Lemma inva_prepend (gv : Z -> option bview) (bh : Z -> Z) (hf : Tensor -> Z) (nbk G off : Z)
    (v0 : bview) (t : Tensor) (id : Z) :
  inva gv bh hf nbk G -> 0 <= off -> gv off = Some v0 -> bv_in v0 = false -> G <= id ->
  0 <= hf t < nbk ->
  inva (let gv1 := vupd gv off (fun _ => mkBV t id true (bh (hf t)) (-1)) in
        if 0 <=? bh (hf t) then vupd gv1 (bh (hf t)) (fun w => bv_set_prev w off) else gv1)
       (bupd bh (hf t) off) hf nbk id.
Proof.
  intros Hinv Hoff Hv0 Hin0 HG Hb. set (b := hf t) in *. remember (bh b) as h eqn:Eh.
  set (nv := mkBV t id true h (-1)).
  set (gvn := let gv1 := vupd gv off (fun _ => nv) in
              if 0 <=? h then vupd gv1 h (fun w => bv_set_prev w off) else gv1).
  destruct Hinv as [H1 H2].
  destruct (H1 b Hb) as [L HL]. rewrite <- Eh in HL.
  (* [off] is on no chain *)
  assert (Hnot : forall b' h' L', bok gv hf G b' h' L' -> ~ In off L').
  { intros b' h' L' Hb' Hi. pose proof (bok_member_in _ _ _ _ _ _ _ _ Hb' Hi Hv0). congruence. }
  assert (Hhoff : 0 <= h -> h <> off).
  { intros Hh E. destruct (bok_head _ _ _ _ _ _ HL Hh) as [L' EL].
    apply (Hnot _ _ _ HL). rewrite EL. left. exact E. }
  assert (F1 : gvn off = Some nv).
  { unfold gvn. destruct (Z.leb_spec 0 h).
    - unfold vupd. destruct (Z.eqb_spec off h); [lia|]. rewrite Z.eqb_refl, Hv0. reflexivity.
    - unfold vupd. rewrite Z.eqb_refl, Hv0. reflexivity. }
  assert (F2 : forall y, y <> off -> y <> h -> gvn y = gv y).
  { intros y Hy1 Hy2. unfold gvn, vupd.
    destruct (Z.leb_spec 0 h); [destruct (Z.eqb_spec y h); [congruence|]|];
      destruct (Z.eqb_spec y off); congruence. }
  assert (F3 : 0 <= h -> gvn h = option_map (fun w => bv_set_prev w off) (gv h)).
  { intros Hh. unfold gvn, vupd. destruct (Z.leb_spec 0 h); [|lia].
    rewrite Z.eqb_refl. destruct (Z.eqb_spec h off); [lia|]. reflexivity. }
  (* fields other than [prev] change only at [off] *)
  assert (Fo : forall y, y <> off ->
            option_map bv_next (gvn y) = option_map bv_next (gv y) /\
            option_map bv_id (gvn y) = option_map bv_id (gv y) /\
            option_map bv_in (gvn y) = option_map bv_in (gv y) /\
            option_map bv_tensor (gvn y) = option_map bv_tensor (gv y)).
  { intros y Hy. destruct (Z.eq_dec y h) as [->|Hyh].
    - destruct (Z.leb_spec 0 h) as [Hh|Hh].
      + rewrite F3 by exact Hh. destruct (gv h); simpl; auto.
      + unfold gvn, vupd. destruct (Z.leb_spec 0 h); [lia|].
        destruct (Z.eqb_spec h off); [congruence|]. auto.
    - rewrite F2 by assumption. auto. }
  assert (Fp : forall y, y <> off -> y <> h ->
            option_map bv_prev (gvn y) = option_map bv_prev (gv y)).
  { intros y Hy1 Hy2. rewrite F2 by assumption. reflexivity. }
  (* the new chain of [b] *)
  assert (Hnew : bok gvn hf id b off (off :: L)).
  { destruct HL as (Hc & Hm & Hp & Hs).
    assert (HoffL : ~ In off L) by (apply (Hnot b h L); repeat split; auto).
    repeat split.
    - econstructor; [exact Hoff | exact F1|]. simpl.
      apply (vchain_ext gv); [exact Hc|]. intros y Hy. apply Fo. congruence.
    - intros x [<- | Hx].
      + exists nv. split; [exact F1|]. unfold nv. simpl. repeat split; lia.
      + destruct (Hm x Hx) as (w & Hw & Hi & Hh & Hid).
        destruct (Fo x ltac:(congruence)) as (_ & Ei & En & Et).
        rewrite Hw in Ei, En, Et.
        destruct (gvn x) as [w'|]; simpl in *; [|discriminate].
        injection Ei as Ei. injection En as En. injection Et as Et.
        exists w'. repeat split; congruence || lia.
    - simpl. exists nv. auto.
    - simpl. destruct L as [|y L'].
      + exact I.
      + assert (Hyh : y = h) by (inversion Hc; subst; reflexivity). subst y.
        assert (Hh0 : 0 <= h) by (inversion Hc; assumption).
        destruct Hp as [(w & Hw & Hpw) Hp']. split.
        * rewrite F3 by exact Hh0. rewrite Hw. eexists; split; reflexivity.
        * pose proof (vchain_nodup _ _ _ Hc) as Hnd. inversion Hnd; subst.
          apply (prev_ok_ext gv); [exact Hp'|]. intros z Hz. apply Fp.
          -- intros ->. apply HoffL. right. exact Hz.
          -- intros ->. apply list_elem_of_In in Hz. contradiction.
    - simpl. rewrite F1. simpl. rewrite (vids_ext gv gvn).
      + apply sorted_ge_cons; [exact Hs|].
        eapply Forall_impl; [apply (vids_bound gv L G)|].
        * intros x Hx. destruct (Hm x Hx) as (w & ? & _ & _ & ?). eauto.
        * simpl. intros. lia.
      + intros y Hy. apply Fo. congruence. }
  (* the other chains do not move *)
  assert (Hother : forall b' L', b' <> b -> bok gv hf G b' (bh b') L' ->
                   bok gvn hf id b' (bh b') L').
  { intros b' L' Hne HL'. apply (bok_mono _ _ G); [|exact HG].
    apply (bok_frame gv); [exact HL'|]. intros y Hy. apply F2.
    - intros ->. exact (Hnot _ _ _ HL' Hy).
    - intros ->. destruct (gv h) as [w|] eqn:Hw.
      + apply Hne. rewrite <- (bok_hash _ _ _ _ _ _ _ _ HL' Hy Hw).
        destruct (Z.leb_spec 0 h) as [Hh|Hh].
        * destruct (bok_head _ _ _ _ _ _ HL Hh) as [L'' ->].
          exact (bok_hash _ _ _ _ _ _ _ _ HL (or_introl eq_refl) Hw).
        * pose proof (proj1 HL') as Hc'. pose proof (vchain_nonneg _ _ _ _ Hc' Hy). lia.
      + destruct HL' as (_ & Hm' & _). destruct (Hm' h Hy) as (w & Hw' & _). congruence. }
  split.
  - intros b' Hb'. unfold bupd. destruct (Z.eqb_spec b' b) as [->|Hne].
    + exists (off :: L). exact Hnew.
    + destruct (H1 b' Hb') as [L' HL']. exists L'. apply Hother; assumption.
  - intros x v Hx Hin. destruct (Z.eq_dec x off) as [->|Hxo].
    + rewrite F1 in Hx. injection Hx as <-. simpl. split; [exact Hb|].
      exists (off :: L). unfold bupd. rewrite Z.eqb_refl. split; [exact Hnew | left; reflexivity].
    + destruct (Fo x Hxo) as (_ & _ & En & Et). rewrite Hx in En, Et.
      destruct (gv x) as [w|] eqn:Hw; simpl in En, Et; [|discriminate].
      injection En as En. injection Et as Et.
      destruct (H2 x w Hw ltac:(congruence)) as [Hr (L' & HL' & HxL')].
      rewrite Et. split; [exact Hr|].
      unfold bupd. destruct (Z.eqb_spec (hf (bv_tensor w)) b) as [Eb|Hne].
      * rewrite Eb, <- Eh in HL'. exists (off :: L).
        rewrite (vchain_det _ _ _ _ (proj1 HL') (proj1 HL)) in HxL'.
        rewrite Eb. split; [exact Hnew | right; exact HxL'].
      * exists L'. split; [apply Hother; assumption | exact HxL'].
Qed.

(* ------------------------------------------------------------------ *)
(** ** Unlinking an entry from its bucket keeps the invariant *)

Lemma bok_disjoint (gv : Z -> option bview) (hf : Tensor -> Z) (G b b' h h' : Z) (L L' : list Z) (y : Z) :
  bok gv hf G b h L -> bok gv hf G b' h' L' -> In y L -> In y L' -> b = b'.
Proof.
  intros HL HL' Hy Hy'. destruct HL as (Hc & Hm & Hrest).
  destruct (Hm y Hy) as (v & Hv & _ & Hb & _).
  rewrite <- Hb. exact (bok_hash _ _ _ _ _ _ _ _ HL' Hy' Hv).
Qed.

Lemma nodup_app_cons_inv (A B : list Z) (x : Z) :
  NoDup (A ++ x :: B) -> ~ In x A /\ ~ In x B /\ (forall y, In y A -> ~ In y B) /\ NoDup A /\ NoDup B.
Proof.
  intros H. apply NoDup_app in H as (HA & Hd & HB).
  apply NoDup_cons in HB as [Hx HB].
  repeat split; auto.
  - intros Hin. apply list_elem_of_In in Hin. apply (Hd x Hin). left.
  - intros Hin. apply Hx. apply list_elem_of_In. exact Hin.
  - intros y Hy Hy'. apply list_elem_of_In in Hy. apply (Hd y Hy). right.
    apply list_elem_of_In. exact Hy'.
Qed.

Lemma inva_unlink (gv : Z -> option bview) (bh : Z -> Z) (hf : Tensor -> Z) (nbk G x : Z) (vx : bview) :
  inva gv bh hf nbk G -> gv x = Some vx -> bv_in vx = true ->
  inva (vupd (if 0 <=? bv_next vx
              then vupd (if bv_prev vx =? -1 then gv
                         else vupd gv (bv_prev vx) (fun w => bv_set_next w (bv_next vx)))
                        (bv_next vx) (fun w => bv_set_prev w (bv_prev vx))
              else if bv_prev vx =? -1 then gv
                   else vupd gv (bv_prev vx) (fun w => bv_set_next w (bv_next vx)))
             x bv_clear)
       (if bv_prev vx =? -1 then bupd bh (hf (bv_tensor vx)) (bv_next vx) else bh)
       hf nbk G.
Proof.
  intros Hinv Hx Hin.
  destruct (inva_member _ _ _ _ _ _ _ Hinv Hx Hin)
    as [Hb (A & B & HL & Hseg & HB & Hp & Hnd)].
  set (b := hf (bv_tensor vx)) in *. set (p := bv_prev vx) in *. set (nx := bv_next vx) in *.
  set (gv1 := if p =? -1 then gv else vupd gv p (fun w => bv_set_next w nx)).
  set (gvn := vupd (if 0 <=? nx then vupd gv1 nx (fun w => bv_set_prev w p) else gv1) x bv_clear).
  set (bhn := if p =? -1 then bupd bh b nx else bh).
  change (inva gvn bhn hf nbk G).
  destruct Hinv as [H1 H2].
  apply nodup_app_cons_inv in Hnd as (HxA & HxB & HAB & HndA & HndB).
  pose proof (proj1 HL) as Hc.
  assert (Hx0 : 0 <= x) by (apply (vchain_nonneg _ _ _ _ Hc); apply in_app_iff; right; left; reflexivity).
  (* where [p] and [nx] are *)
  assert (Hpl : (p = -1 /\ A = []) \/ (0 <= p /\ In p A)).
  { destruct A as [|a A0] eqn:EA; [left; split; [exact Hp | reflexivity]|].
    right. rewrite <- EA in *.
    assert (HA : A <> []) by (rewrite EA; discriminate).
    destruct (exists_last HA) as (A' & q & EA').
    rewrite EA', lastd_snoc in Hp. rewrite Hp. split.
    - apply (vchain_nonneg _ _ _ _ Hc). rewrite EA'. apply in_app_iff. left.
      apply in_app_iff. right. left. reflexivity.
    - rewrite EA'. apply in_app_iff. right. left. reflexivity. }
  assert (Hnl : (nx < 0 /\ B = []) \/ (0 <= nx /\ exists B', B = nx :: B')).
  { inversion HB as [? Hn|? w B' Hn Hw HB']; subst; [left; auto | right; eauto]. }
  assert (Hpx : p <> x).
  { destruct Hpl as [[-> _]|[_ HpA]]; [lia|]. intros E. rewrite E in HpA. contradiction. }
  assert (Hnxx : nx <> x).
  { destruct Hnl as [[Hn _]|[_ (B' & EB)]]; [lia|]. intros E. apply HxB. rewrite EB, E. left. reflexivity. }
  assert (Hpn : 0 <= p -> 0 <= nx -> p <> nx).
  { intros Hp0 Hn0 E. destruct Hpl as [[? _]|[_ HpA]]; [lia|].
    destruct Hnl as [[? _]|[_ (B' & EB)]]; [lia|].
    apply (HAB p HpA). rewrite EB, E. left. reflexivity. }
  (* the new view *)
  assert (G1 : gvn x = Some (bv_clear vx)).
  { unfold gvn, vupd at 1. rewrite Z.eqb_refl.
    destruct (Z.leb_spec 0 nx); [unfold vupd at 1; destruct (Z.eqb_spec x nx); [congruence|]|];
      unfold gv1; (destruct (Z.eqb_spec p (-1)); [rewrite Hx; reflexivity|]);
      unfold vupd; destruct (Z.eqb_spec x p); try congruence; rewrite Hx; reflexivity. }
  assert (G2 : forall y, y <> x -> (0 <= p -> y <> p) -> (0 <= nx -> y <> nx) -> gvn y = gv y).
  { intros y H1' H2' H3'. unfold gvn, vupd at 1. destruct (Z.eqb_spec y x); [congruence|].
    destruct (Z.leb_spec 0 nx);
      [unfold vupd at 1; destruct (Z.eqb_spec y nx); [exfalso; apply H3'; auto|]|];
      unfold gv1; (destruct (Z.eqb_spec p (-1)); [reflexivity|]);
      unfold vupd; destruct (Z.eqb_spec y p); try reflexivity;
      (exfalso; apply H2'; [destruct Hpl as [[]|[]]; lia | assumption]). }
  assert (G3 : 0 <= p -> gvn p = option_map (fun w => bv_set_next w nx) (gv p)).
  { intros Hp0. unfold gvn, vupd at 1. destruct (Z.eqb_spec p x); [congruence|].
    destruct (Z.leb_spec 0 nx); [unfold vupd at 1; destruct (Z.eqb_spec p nx); [lia|]|];
      unfold gv1; (destruct (Z.eqb_spec p (-1)); [lia|]);
      unfold vupd; rewrite Z.eqb_refl; reflexivity. }
  assert (G4 : 0 <= nx -> gvn nx = option_map (fun w => bv_set_prev w p) (gv nx)).
  { intros Hn0. unfold gvn, vupd at 1. destruct (Z.eqb_spec nx x); [congruence|].
    destruct (Z.leb_spec 0 nx); [|lia]. unfold vupd at 1. rewrite Z.eqb_refl.
    unfold gv1. destruct (Z.eqb_spec p (-1)); [reflexivity|].
    unfold vupd. destruct (Z.eqb_spec nx p); [lia|]. reflexivity. }
  assert (Fo : forall y,
            option_map bv_id (gvn y) = option_map bv_id (gv y) /\
            option_map bv_tensor (gvn y) = option_map bv_tensor (gv y) /\
            (y <> x -> option_map bv_in (gvn y) = option_map bv_in (gv y))).
  { intros y. destruct (Z.eq_dec y x) as [->|Hyx];
      [rewrite G1, Hx; simpl; split; [reflexivity|split; [reflexivity|intros H; contradiction]]|].
    destruct (Z.eq_dec y p) as [->|Hyp]; [destruct (Z.leb_spec 0 p) as [Hp0|Hp0]|].
    - rewrite G3 by exact Hp0. destruct (gv p); simpl; auto.
    - rewrite G2; auto; intros; lia.
    - destruct (Z.eq_dec y nx) as [->|Hyn]; [destruct (Z.leb_spec 0 nx) as [Hn0|Hn0]|].
      + rewrite G4 by exact Hn0. destruct (gv nx); simpl; auto.
      + rewrite G2; auto; intros; lia.
      + rewrite G2; auto. }
  assert (HpB : forall y, In y B -> ~ In y A) by (intros y Hy HyA; exact (HAB y HyA Hy)).
  assert (NxA : 0 <= nx -> ~ In nx A).
  { intros Hn0 HnA. destruct Hnl as [[]|[_ (B' & EB)]]; [lia|].
    apply (HAB nx HnA). rewrite EB. left. reflexivity. }
  assert (PB : 0 <= p -> ~ In p B).
  { intros Hp0 HpB'. destruct Hpl as [[]|[_ HpA]]; [lia|]. exact (HpB _ HpB' HpA). }
  assert (HnB : forall y, In y B -> option_map bv_next (gvn y) = option_map bv_next (gv y)).
  { intros y Hy. pose proof (vchain_nonneg _ _ _ _ HB Hy).
    destruct (Z.eq_dec y nx) as [->|Hyn].
    - rewrite G4 by lia. destruct (gv nx); reflexivity.
    - rewrite G2; [reflexivity | intros E; rewrite E in Hy; apply HxB, Hy
                  | intros Hp0 E; rewrite E in Hy; exact (PB Hp0 Hy) | intros _; exact Hyn]. }
  assert (HnA : forall y, In y A -> y <> p -> option_map bv_next (gvn y) = option_map bv_next (gv y)).
  { intros y Hy Hyp.
    rewrite G2; [reflexivity | intros E; rewrite E in Hy; apply HxA, Hy
                | intros _; exact Hyp | intros Hn0 E; rewrite E in Hy; exact (NxA Hn0 Hy)]. }
  assert (HvA : forall y, In y A -> option_map bv_prev (gvn y) = option_map bv_prev (gv y)).
  { intros y Hy. destruct (Z.eq_dec y p) as [->|Hyp].
    - destruct Hpl as [[_ EA]|[Hp0 _]]; [subst A; contradiction|].
      rewrite G3 by exact Hp0. destruct (gv p); reflexivity.
    - rewrite G2; [reflexivity | intros E; rewrite E in Hy; apply HxA, Hy
                  | intros _; exact Hyp | intros Hn0 E; rewrite E in Hy; exact (NxA Hn0 Hy)]. }
  assert (HvB : forall y, In y B -> y <> nx -> option_map bv_prev (gvn y) = option_map bv_prev (gv y)).
  { intros y Hy Hyn.
    rewrite G2; [reflexivity | intros E; rewrite E in Hy; apply HxB, Hy
                | intros Hp0 E; rewrite E in Hy; exact (PB Hp0 Hy) | intros _; exact Hyn]. }
  pose proof HL as HL0.
  destruct HL as (_ & Hm & Hpo & Hs).
  assert (Hnew : bok gvn hf G b (bhn b) (A ++ B)).
  { assert (HBn : vchain gvn nx B) by (apply (vchain_ext gv); [exact HB | exact HnB]).
    repeat split.
    - destruct Hpl as [[Ep EA]|[Hp0 HpA]].
      + subst A. unfold bhn. rewrite Ep, Z.eqb_refl. unfold bupd. rewrite Z.eqb_refl. exact HBn.
      + assert (HA : A <> []) by (intros E; rewrite E in HpA; contradiction).
        destruct (exists_last HA) as (A' & q & EA). rewrite EA, lastd_snoc in Hp.
        rewrite EA in Hseg. apply vseg_snoc_inv in Hseg as [Hseg (vq & Hq0 & Hvq & Hnq)].
        unfold bhn. destruct (Z.eqb_spec p (-1)); [lia|].
        rewrite EA, <- app_assoc. apply (vchain_app _ _ _ q).
        * apply (vseg_ext gv); [exact Hseg|]. intros y Hy. apply HnA.
          -- rewrite EA. apply in_app_iff. left. exact Hy.
          -- intros ->. rewrite Hp in Hy. rewrite EA in HndA.
             apply NoDup_app in HndA as (_ & Hd & _). apply list_elem_of_In in Hy.
             apply (Hd q Hy). left.
        * simpl. econstructor; [exact Hq0| |].
          -- rewrite <- Hp, G3 by lia. rewrite Hp, Hvq. reflexivity.
          -- simpl. exact HBn.
    - intros y Hy. assert (Hy' : In y (A ++ x :: B))
        by (apply in_app_iff in Hy as [?|?]; apply in_app_iff; [left|right; right]; assumption).
      destruct (Hm y Hy') as (w & Hw & Hiw & Hbw & Hid).
      assert (Hyx : y <> x) by (intros ->; apply in_app_iff in Hy as [?|?]; contradiction).
      destruct (Fo y) as (Ei & Et & En). specialize (En Hyx). rewrite Hw in Ei, Et, En.
      destruct (gvn y) as [w'|]; simpl in *; [|discriminate].
      injection Ei as Ei. injection Et as Et. injection En as En.
      exists w'. repeat split; congruence || lia.
    - apply prev_ok_app in Hpo as [PA PxB]. simpl in PxB. destruct PxB as [_ PB0].
      apply prev_ok_app. split; [apply (prev_ok_ext gv); [exact PA | exact HvA]|].
      rewrite <- Hp. destruct Hnl as [[_ EB]|[Hn0 (B' & EB)]]; [subst B; exact I|].
      subst B. simpl in PB0 |- *. destruct PB0 as [_ PB']. split.
      + rewrite G4 by exact Hn0. inversion HB as [|? w ? ? Hw]; subst. rewrite Hw.
        eexists; split; reflexivity.
      + apply (prev_ok_ext gv); [exact PB'|]. intros y Hy. apply HvB; [right; exact Hy|].
        intros ->. inversion HndB; subst. apply list_elem_of_In in Hy. contradiction.
    - rewrite (vids_ext gv gvn) by (intros y _; apply Fo).
      rewrite vids_app in Hs |- *. simpl in Hs. rewrite Hx in Hs.
      exact (sorted_ge_drop _ _ _ Hs). }
  assert (Hother : forall b' L', b' <> b -> bok gv hf G b' (bh b') L' ->
                   bok gvn hf G b' (bhn b') L').
  { intros b' L' Hne HL'.
    assert (Eb : bhn b' = bh b').
    { unfold bhn. destruct (p =? -1); [|reflexivity]. unfold bupd.
      destruct (Z.eqb_spec b' b); [contradiction | reflexivity]. }
    rewrite Eb. apply (bok_frame gv); [exact HL'|]. intros y Hy.
    assert (Hout : ~ In y (A ++ x :: B)).
    { intros Hy'. apply Hne. symmetry. exact (bok_disjoint _ _ _ _ _ _ _ _ _ _ HL0 HL' Hy' Hy). }
    apply G2.
    - intros ->. apply Hout. apply in_app_iff. right. left. reflexivity.
    - intros Hp0 ->. destruct Hpl as [[]|[_ HpA]]; [lia|]. apply Hout, in_app_iff. left. exact HpA.
    - intros Hn0 ->. destruct Hnl as [[]|[_ (B' & EB)]]; [lia|].
      apply Hout, in_app_iff. right. right. rewrite EB. left. reflexivity. }
  split.
  - intros b' Hb'. destruct (Z.eq_dec b' b) as [->|Hne].
    + exists (A ++ B). exact Hnew.
    + destruct (H1 b' Hb') as [L' HL']. exists L'. apply Hother; assumption.
  - intros y v Hy Hinv.
    assert (Hyx : y <> x) by (intros ->; rewrite G1 in Hy; injection Hy as <-; discriminate).
    destruct (Fo y) as (_ & Et & En). specialize (En Hyx). rewrite Hy in Et, En.
    destruct (gv y) as [w|] eqn:Hw; simpl in Et, En; [|discriminate].
    injection En as En. injection Et as Et. rewrite Et.
    destruct (H2 y w Hw ltac:(congruence)) as [Hr (L' & HL' & HyL')].
    split; [exact Hr|].
    destruct (Z.eq_dec (hf (bv_tensor w)) b) as [Eb|Hne].
    + rewrite Eb in HL' |- *. exists (A ++ B). split; [exact Hnew|].
      rewrite (vchain_det _ _ _ _ (proj1 HL') (proj1 HL0)) in HyL'.
      apply in_app_iff in HyL' as [?|[?|?]]; apply in_app_iff; [left|congruence|right]; assumption.
    + exists L'. split; [apply Hother; assumption | exact HyL'].
Qed.

(* ------------------------------------------------------------------ *)
(** ** Cutting a bucket chain keeps the invariant *)

Lemma inva_truncate (gv gvn : Z -> option bview) (bh bhn : Z -> Z) (hf : Tensor -> Z)
    (nbk G b : Z) (A C : list Z) :
  inva gv bh hf nbk G -> 0 <= b < nbk -> bok gv hf G b (bh b) (A ++ C) ->
  (forall y, In y C -> gvn y = option_map bv_clear (gv y)) ->
  (forall y, ~ In y C -> (A = [] \/ y <> lastd (-1) A) -> gvn y = gv y) ->
  (A <> [] -> gvn (lastd (-1) A) = option_map (fun w => bv_set_next w (-1)) (gv (lastd (-1) A))) ->
  (forall c, c <> b -> bhn c = bh c) ->
  (A = [] -> bhn b = -1) -> (A <> [] -> bhn b = bh b) ->
  inva gvn bhn hf nbk G.
Proof.
  intros [H1 H2] Hb HL HC Hrest Hq Hbo Hb1 Hb2.
  pose proof HL as HL0. destruct HL as (Hc & Hm & Hpo & Hs).
  pose proof (vchain_nodup _ _ _ Hc) as Hnd.
  apply NoDup_app in Hnd as (HndA & HAC & _).
  assert (HAC' : forall y, In y A -> ~ In y C).
  { intros y Hy Hy'. apply list_elem_of_In in Hy, Hy'. exact (HAC y Hy Hy'). }
  remember (lastd (-1) A) as q eqn:Eqd.
  assert (Hq0 : A <> [] -> In q A).
  { intros HA. destruct (exists_last HA) as (A' & q' & EA). rewrite Eqd, EA, lastd_snoc.
    apply in_app_iff. right. left. reflexivity. }
  (* which fields move *)
  assert (Fo : forall y,
            option_map bv_id (gvn y) = option_map bv_id (gv y) /\
            option_map bv_tensor (gvn y) = option_map bv_tensor (gv y) /\
            (~ In y C -> option_map bv_in (gvn y) = option_map bv_in (gv y)) /\
            (~ In y C -> option_map bv_prev (gvn y) = option_map bv_prev (gv y))).
  { intros y. destruct (in_dec Z.eq_dec y C) as [Hy|Hy].
    - rewrite HC by exact Hy. destruct (gv y); simpl; repeat split; intros; contradiction.
    - destruct (Z.eq_dec y q) as [->|Hyq].
      + destruct A as [|a A0] eqn:EA.
        * rewrite Hrest by auto. auto.
        * rewrite Hq by discriminate. destruct (gv q); simpl; auto.
      + rewrite Hrest by auto. auto. }
  assert (Hnew : bok gvn hf G b (bhn b) A).
  { repeat split.
    - destruct A as [|a A0] eqn:EA; [rewrite Hb1 by reflexivity; constructor; lia|].
      rewrite <- EA in *. assert (HA : A <> []) by (rewrite EA; discriminate).
      rewrite Hb2 by exact HA.
      destruct (exists_last HA) as (A' & q' & EA').
      assert (Eq : q = q') by (rewrite Eqd, EA'; apply lastd_snoc).
      apply vchain_app_inv in Hc as (k & Hseg & _). rewrite EA' in Hseg.
      apply vseg_snoc_inv in Hseg as [Hseg (vq & Hq0' & Hvq & _)].
      rewrite EA'. apply (vchain_app _ _ _ q').
      + apply (vseg_ext gv); [exact Hseg|]. intros y Hy. rewrite Hrest; [reflexivity| |].
        * apply HAC'. rewrite EA'. apply in_app_iff. left. exact Hy.
        * right. intros E. rewrite EA' in HndA. apply NoDup_app in HndA as (_ & Hd & _).
          apply list_elem_of_In in Hy. apply (Hd y Hy). rewrite E, Eq. left.
      + econstructor; [exact Hq0'| |].
        * rewrite <- Eq, Hq by exact HA. rewrite Eq, Hvq. reflexivity.
        * constructor. simpl. lia.
    - intros y Hy. destruct (Hm y (proj2 (in_app_iff _ _ _) (or_introl Hy))) as (w & Hw & Hiw & Hbw & Hid).
      destruct (Fo y) as (Ei & Et & En & _). specialize (En (HAC' y Hy)).
      rewrite Hw in Ei, Et, En.
      destruct (gvn y) as [w'|]; simpl in *; [|discriminate].
      injection Ei as Ei. injection Et as Et. injection En as En.
      exists w'. repeat split; congruence || lia.
    - apply prev_ok_app in Hpo as [PA _]. apply (prev_ok_ext gv); [exact PA|].
      intros y Hy. apply Fo. apply HAC'. exact Hy.
    - rewrite (vids_ext gv gvn) by (intros y _; apply Fo).
      rewrite vids_app in Hs. exact (sorted_ge_prefix _ _ Hs). }
  assert (Hother : forall b' L', b' <> b -> bok gv hf G b' (bh b') L' ->
                   bok gvn hf G b' (bhn b') L').
  { intros b' L' Hne HL'. rewrite Hbo by exact Hne.
    apply (bok_frame gv); [exact HL'|]. intros y Hy.
    assert (Hout : ~ In y (A ++ C)).
    { intros Hy'. apply Hne. symmetry. exact (bok_disjoint _ _ _ _ _ _ _ _ _ _ HL0 HL' Hy' Hy). }
    apply Hrest.
    - intros Hy'. apply Hout. apply in_app_iff. right. exact Hy'.
    - destruct A as [|a A0] eqn:EA; [left; reflexivity|]. right. intros E.
      apply Hout. apply in_app_iff. left. rewrite E. apply Hq0. discriminate. }
  split.
  - intros b' Hb'. destruct (Z.eq_dec b' b) as [->|Hne].
    + exists A. exact Hnew.
    + destruct (H1 b' Hb') as [L' HL']. exists L'. apply Hother; assumption.
  - intros y v Hy Hinv.
    assert (HyC : ~ In y C).
    { intros HyC. rewrite HC in Hy by exact HyC. destruct (gv y); simpl in Hy; [|discriminate].
      injection Hy as <-. discriminate. }
    destruct (Fo y) as (_ & Et & En & _). specialize (En HyC). rewrite Hy in Et, En.
    destruct (gv y) as [w|] eqn:Hw; simpl in Et, En; [|discriminate].
    injection En as En. injection Et as Et. rewrite Et.
    destruct (H2 y w Hw ltac:(congruence)) as [Hr (L' & HL' & HyL')].
    split; [exact Hr|].
    destruct (Z.eq_dec (hf (bv_tensor w)) b) as [Eb|Hne].
    + rewrite Eb in HL' |- *. exists A. split; [exact Hnew|].
      rewrite (vchain_det _ _ _ _ (proj1 HL') Hc) in HyL'.
      apply in_app_iff in HyL' as [?|?]; [assumption|contradiction].
    + exists L'. split; [apply Hother; assumption | exact HyL'].
Qed.

(* ------------------------------------------------------------------ *)
(** ** Stores of the concrete map *)

Lemma zstore_spec {A} (l l' : list A) (i : Z) (x : A) :
  zstore l i x = Some l' ->
  0 <= i < Z.of_nat (length l) /\ length l' = length l /\
  forall j, zlookup l' j = if j =? i then Some x else zlookup l j.
Proof.
  unfold zstore. destruct ((0 <=? i) && (i <? Z.of_nat (length l))) eqn:E; [|discriminate].
  intros [= <-]. apply andb_true_iff in E as [E1 E2]. apply Z.leb_le in E1. apply Z.ltb_lt in E2.
  split; [lia|]. split; [apply length_insert|].
  intros j. unfold zlookup. destruct (Z.eqb_spec j i) as [->|Hne].
  - rewrite (proj2 (Z.leb_le 0 i)) by lia. apply list_lookup_insert_eq. lia.
  - destruct (0 <=? j) eqn:Ej; [|reflexivity]. apply Z.leb_le in Ej.
    apply list_lookup_insert_ne. lia.
Qed.

Lemma zlookup_nonneg {A} (l : list A) (i : Z) (x : A) : zlookup l i = Some x -> 0 <= i.
Proof. unfold zlookup. destruct (Z.leb_spec 0 i); [auto | discriminate]. Qed.

Lemma zlookup_range {A} (l : list A) (i : Z) (x : A) :
  zlookup l i = Some x -> 0 <= i < Z.of_nat (length l).
Proof.
  unfold zlookup. destruct (Z.leb_spec 0 i); [|discriminate].
  intros Hl. apply lookup_lt_Some in Hl. lia.
Qed.

Lemma put_entry_spec (tm tm' : PTO2TensorMap) (i : Z) (e : PTO2TensorMapEntry) :
  put_entry tm i e = Some tm' ->
  0 <= i /\ buckets tm' = buckets tm /\ num_buckets tm' = num_buckets tm /\
  task_entry_head tm' = task_entry_head tm /\ last_task_alive tm' = last_task_alive tm /\
  forall j, get_entry tm' j = if j =? i then Some e else get_entry tm j.
Proof.
  unfold put_entry. intros H. apply bind_Some in H as (p & Hp & [= <-]).
  apply zstore_spec in Hp as (Hi & _ & Hl). repeat split; try reflexivity; try lia.
  exact Hl.
Qed.

Lemma put_bucket_spec (tm tm' : PTO2TensorMap) (b v : Z) :
  put_bucket tm b v = Some tm' ->
  0 <= b < Z.of_nat (length (buckets tm)) /\ length (buckets tm') = length (buckets tm) /\
  num_buckets tm' = num_buckets tm /\ entry_pool tm' = entry_pool tm /\
  task_entry_head tm' = task_entry_head tm /\ last_task_alive tm' = last_task_alive tm /\
  forall c, bucket_head tm' c = if c =? b then v else bucket_head tm c.
Proof.
  unfold put_bucket. intros H. apply bind_Some in H as (bs & Hbs & [= <-]).
  apply zstore_spec in Hbs as (Hi & Hlen & Hl). repeat split; try reflexivity; try lia.
  - exact Hlen.
  - intros c. unfold bucket_head. simpl. rewrite Hl. destruct (c =? b); reflexivity.
Qed.

Lemma put_task_head_spec (tm tm' : PTO2TensorMap) (s v : Z) :
  put_task_head tm s v = Some tm' ->
  buckets tm' = buckets tm /\ num_buckets tm' = num_buckets tm /\
  entry_pool tm' = entry_pool tm /\ last_task_alive tm' = last_task_alive tm.
Proof.
  unfold put_task_head. intros H. apply bind_Some in H as (hs & _ & [= <-]). auto.
Qed.

Lemma hash_nb_eq (tm : PTO2TensorMap) (t : Tensor) :
  pto2_tensormap_hash tm t = hash_nb (num_buckets tm) t.
Proof. reflexivity. Qed.

Lemma view_get (tm : PTO2TensorMap) (j : Z) (e : PTO2TensorMapEntry) :
  get_entry tm j = Some e -> view tm j = Some (to_bv e).
Proof. unfold view. intros ->. reflexivity. Qed.

Lemma tm_inv_ext (tm tm' : PTO2TensorMap) (G : Z) :
  tm_inv tm G -> (forall j, view tm' j = view tm j) ->
  (forall c, bucket_head tm' c = bucket_head tm c) ->
  num_buckets tm' = num_buckets tm -> length (buckets tm') = length (buckets tm) ->
  tm_inv tm' G.
Proof.
  unfold tm_inv. intros H Hv Hb Hn Hl. rewrite Hn, Hl. eapply inva_ext; eauto.
Qed.

Lemma tm_inv_mono (tm : PTO2TensorMap) (G G' : Z) :
  tm_inv tm G -> G <= G' -> tm_inv tm G'.
Proof.
  unfold tm_inv. intros [H1 H2] HG. split.
  - intros b Hb. destruct (H1 b Hb) as [L HL]. exists L. eapply bok_mono; eauto.
  - intros x v Hx Hin. destruct (H2 x v Hx Hin) as [Hr (L & HL & HxL)].
    split; [exact Hr|]. exists L. split; [eapply bok_mono; eauto | exact HxL].
Qed.

(* ------------------------------------------------------------------ *)
(** ** Each operation keeps the bucket invariant *)

Lemma remove_from_bucket_inv (tm tm' : PTO2TensorMap) (off G : Z) :
  tm_inv tm G -> pto2_tensormap_remove_from_bucket tm off = Some tm' -> tm_inv tm' G.
Proof.
  intros Hinv H. unfold pto2_tensormap_remove_from_bucket in H.
  apply bind_Some in H as (e & He & H).
  destruct (in_bucket e) eqn:Hin; simpl in H; [|injection H as <-; exact Hinv].
  pose proof (view_get _ _ _ He) as Hv.
  pose proof (inva_unlink _ _ _ _ _ off (to_bv e) Hinv Hv Hin) as Hu.
  cbn [bv_next bv_prev bv_tensor to_bv] in Hu.
  set (gv := view tm) in *. set (nx := next_in_bucket e) in *. set (pv := prev_in_bucket e) in *.
  set (gv1 := if pv =? -1 then gv else vupd gv pv (fun w => bv_set_next w nx)) in *.
  set (gv2 := if 0 <=? nx then vupd gv1 nx (fun w => bv_set_prev w pv) else gv1) in *.
  apply bind_Some in H as (tm1 & H1 & H).
  assert (E1 : (forall j, view tm1 j = gv1 j) /\
               (forall c, bucket_head tm1 c =
                  (if pv =? -1 then bupd (bucket_head tm) (hash_nb (num_buckets tm) (tensor e)) nx
                   else bucket_head tm) c) /\
               num_buckets tm1 = num_buckets tm /\ length (buckets tm1) = length (buckets tm)).
  { unfold gv1. destruct (pv =? -1).
    - apply put_bucket_spec in H1 as (_ & Hl & Hn & Hp & _ & _ & Hb).
      split; [intros j; unfold gv, view, get_entry; rewrite Hp; reflexivity|].
      split; [intros c; rewrite Hb; reflexivity|]. auto.
    - apply bind_Some in H1 as (p & Hp & H1).
      apply put_entry_spec in H1 as (_ & Hb & Hn & _ & _ & Hg). repeat split.
      + intros j. unfold view at 1. rewrite Hg. unfold vupd, gv.
        destruct (j =? pv); [|reflexivity]. rewrite (view_get _ _ _ Hp). reflexivity.
      + intros c. unfold bucket_head. rewrite Hb. reflexivity.
      + exact Hn.
      + rewrite Hb. reflexivity. }
  destruct E1 as (V1 & B1 & N1 & L1).
  apply bind_Some in H as (e1 & He1 & H).
  assert (Ee1 : next_in_bucket e1 = nx /\ prev_in_bucket e1 = pv).
  { apply view_get in He1. rewrite V1 in He1. unfold gv1, vupd in He1.
    destruct (pv =? -1); [|destruct (Z.eqb_spec off pv) as [Eo|_]; [rewrite <- Eo in He1|]];
      rewrite Hv in He1; simpl in He1; injection He1; intros; unfold nx, pv in *;
      split; congruence. }
  destruct Ee1 as [En1 Ep1]. rewrite En1, Ep1 in H.
  apply bind_Some in H as (tm2 & H2 & H).
  assert (E2 : (forall j, view tm2 j = gv2 j) /\ (forall c, bucket_head tm2 c = bucket_head tm1 c) /\
               num_buckets tm2 = num_buckets tm1 /\ length (buckets tm2) = length (buckets tm1)).
  { unfold gv2. destruct (0 <=? nx).
    - apply bind_Some in H2 as (n & Hn & H2).
      apply put_entry_spec in H2 as (_ & Hb & Hnb & _ & _ & Hg). repeat split.
      + intros j. unfold view at 1. rewrite Hg. unfold vupd.
        destruct (j =? nx); [|apply V1]. rewrite <- V1, (view_get _ _ _ Hn). reflexivity.
      + intros c. unfold bucket_head. rewrite Hb. reflexivity.
      + exact Hnb.
      + rewrite Hb. reflexivity.
    - injection H2 as <-. auto. }
  destruct E2 as (V2 & B2 & N2 & L2).
  apply bind_Some in H as (e2 & He2 & H).
  apply put_entry_spec in H as (_ & Hb & Hnb & _ & _ & Hg).
  unfold tm_inv. rewrite Hb, Hnb, L2, L1, N2, N1.
  eapply inva_ext; [exact Hu | |].
  - intros j. unfold view at 1. rewrite Hg. unfold vupd at 1.
    destruct (j =? off); [|apply V2]. rewrite <- V2, (view_get _ _ _ He2). reflexivity.
  - intros c. unfold bucket_head at 1. rewrite Hb. fold (bucket_head tm2 c).
    rewrite B2, B1. reflexivity.
Qed.

(** a store that leaves the bucket fields of the entry as they were *)
Lemma put_entry_same_view (tm tm' : PTO2TensorMap) (i : Z) (e e' : PTO2TensorMapEntry) (G : Z) :
  tm_inv tm G -> get_entry tm i = Some e -> to_bv e' = to_bv e ->
  put_entry tm i e' = Some tm' -> tm_inv tm' G.
Proof.
  intros Hinv He Hb H. apply put_entry_spec in H as (_ & Hbs & Hn & _ & _ & Hg).
  apply (tm_inv_ext tm); auto.
  - intros j. unfold view at 1. rewrite Hg. destruct (Z.eqb_spec j i) as [->|_]; [|reflexivity].
    rewrite (view_get _ _ _ He). simpl. rewrite Hb. reflexivity.
  - intros c. unfold bucket_head. rewrite Hbs. reflexivity.
  - rewrite Hbs. reflexivity.
Qed.

Lemma put_task_head_inv (tm tm' : PTO2TensorMap) (s v G : Z) :
  tm_inv tm G -> put_task_head tm s v = Some tm' -> tm_inv tm' G.
Proof.
  intros Hinv H. apply put_task_head_spec in H as (Hbs & Hn & Hp & _).
  apply (tm_inv_ext tm); auto.
  - intros j. unfold view, get_entry. rewrite Hp. reflexivity.
  - intros c. unfold bucket_head. rewrite Hbs. reflexivity.
  - rewrite Hbs. reflexivity.
Qed.

Lemma cleanup_task_walk_inv (fuel : nat) (tm tm' : PTO2TensorMap) (task_id off G : Z) :
  tm_inv tm G -> cleanup_task_walk fuel tm task_id off = Some tm' -> tm_inv tm' G.
Proof.
  revert tm off. induction fuel as [|f IH]; intros tm off Hinv H; simpl in H; [discriminate|].
  destruct (negb (0 <=? off)); [injection H as <-; exact Hinv|].
  apply bind_Some in H as (e & He & H). apply bind_Some in H as (tm1 & H1 & H).
  apply (IH tm1 (next_in_task e)); [|exact H].
  destruct (producer_task_id e =? task_id); [|injection H1 as <-; exact Hinv].
  apply bind_Some in H1 as (tm0 & H0 & H1). apply bind_Some in H1 as (e1 & He1 & H1).
  apply (put_entry_same_view tm0 tm1 off e1 (set_task_links e1 (-1) (-1)) G); auto.
  exact (remove_from_bucket_inv _ _ _ _ Hinv H0).
Qed.

Lemma cleanup_from_inv (fuel cnt : nat) (tm tm' : PTO2TensorMap) (task_id G : Z) :
  tm_inv tm G -> cleanup_from fuel tm task_id cnt = Some tm' -> tm_inv tm' G.
Proof.
  revert tm task_id. induction cnt as [|c IH]; intros tm task_id Hinv H; simpl in H;
    [injection H as <-; exact Hinv|].
  apply bind_Some in H as (h & _ & H). apply bind_Some in H as (tm1 & H1 & H).
  apply bind_Some in H as (tm2 & H2 & H).
  apply (IH tm2 (task_id + 1)); [|exact H].
  apply (put_task_head_inv tm1 _ _ _ _ (cleanup_task_walk_inv _ _ _ _ _ _ Hinv H1) H2).
Qed.

Lemma cleanup_retired_inv (fuel : nat) (tm tm' : PTO2TensorMap) (o n G : Z) :
  tm_inv tm G -> pto2_tensormap_cleanup_retired fuel tm o n = Some tm' -> tm_inv tm' G.
Proof. apply cleanup_from_inv. Qed.

Lemma sync_validity_inv (tm : PTO2TensorMap) (lta G : Z) :
  tm_inv tm G -> tm_inv (pto2_tensormap_sync_validity tm lta) G.
Proof. auto. Qed.

Lemma put_entry_view (tm tm' : PTO2TensorMap) (i : Z) (e : PTO2TensorMapEntry) :
  put_entry tm i e = Some tm' ->
  (forall j, view tm' j = if j =? i then Some (to_bv e) else view tm j) /\
  (forall c, bucket_head tm' c = bucket_head tm c) /\
  num_buckets tm' = num_buckets tm /\ buckets tm' = buckets tm.
Proof.
  intros H. apply put_entry_spec in H as (_ & Hb & Hn & _ & _ & Hg). repeat split; auto.
  - intros j. unfold view at 1. rewrite Hg. destruct (j =? i); reflexivity.
  - intros c. unfold bucket_head. rewrite Hb. reflexivity.
Qed.

Lemma insert_inv (tm0 tm' : PTO2TensorMap) (t : Tensor) (id : Z) (wa : bool) (G : Z) :
  tm_inv tm0 G -> G <= id -> pto2_tensormap_insert tm0 t id wa = Some tm' -> tm_inv tm' id.
Proof.
  intros Hinv HG H. unfold pto2_tensormap_insert in H.
  apply bind_Some in H as (e0 & He0 & H).
  destruct (in_bucket e0) eqn:Hin0; [discriminate|].
  set (off := pool_head tm0) in *.
  set (tm := with_pool_head tm0 _) in H.
  apply bind_Some in H as (tm1 & H1 & H).
  apply bind_Some in H as (h & Hh & H).
  apply bind_Some in H as (e2 & He2 & H).
  apply bind_Some in H as (tm2 & H2 & H).
  apply bind_Some in H as (e2' & He2' & H).
  apply bind_Some in H as (tm3 & H3 & H).
  apply bind_Some in H as (tm4 & H4 & H).
  apply bind_Some in H as (e4 & He4 & H).
  apply bind_Some in H as (tm5 & H5 & H).
  assert (Hinv5 : tm_inv tm5 id).
  { assert (Hoff : 0 <= off) by exact (zlookup_nonneg _ _ _ He0).
    apply put_entry_view in H1 as (W1 & B1 & N1 & S1).
    assert (Ee2 : to_bv e2 = mkBV t id false (next_in_bucket e0) (prev_in_bucket e0)).
    { apply view_get in He2. rewrite W1, Z.eqb_refl in He2. symmetry.
      exact (f_equal (fun o => match o with Some x => x | None => to_bv e2 end) He2). }
    apply put_entry_view in H2 as (W2 & B2 & N2 & S2).
    assert (W2' : forall j, view tm2 j = if j =? off then Some (mkBV t id false h (-1)) else view tm0 j).
    { intros j. rewrite W2, W1. destruct (j =? off); [|reflexivity].
      destruct e2. unfold to_bv in Ee2 |- *. simpl in *.
      injection Ee2 as -> -> -> _ _. reflexivity. }
    apply view_get in He2'. rewrite W2, Z.eqb_refl in He2'.
    assert (Enx : next_in_bucket e2' = h).
    { apply (f_equal (option_map bv_next)) in He2'. simpl in He2'. injection He2' as E. auto. }
    rewrite Enx in H3.
    assert (E3 : (forall j, view tm3 j =
                   if 0 <=? h then (if j =? h then option_map (fun w => bv_set_prev w off) (view tm2 h)
                                    else view tm2 j) else view tm2 j) /\
                 (forall c, bucket_head tm3 c = bucket_head tm2 c) /\
                 num_buckets tm3 = num_buckets tm2 /\ buckets tm3 = buckets tm2).
    { destruct (0 <=? h).
      - apply bind_Some in H3 as (n & Hn & H3). apply put_entry_view in H3 as (W & B & N & S).
        repeat split; auto. intros j. rewrite W. destruct (j =? h); [|reflexivity].
        rewrite (view_get _ _ _ Hn). reflexivity.
      - injection H3 as <-. auto. }
    destruct E3 as (W3 & B3 & N3 & S3).
    apply put_bucket_spec in H4 as (Hb & L4 & N4 & P4 & _ & _ & B4).
    assert (W4 : forall j, view tm4 j = view tm3 j) by (intros j; unfold view, get_entry; rewrite P4; reflexivity).
    apply view_get in He4.
    apply put_entry_view in H5 as (W5 & B5 & N5 & S5).
    assert (W5' : forall j, view tm5 j =
              if j =? off then option_map (fun w => mkBV (bv_tensor w) (bv_id w) true (bv_next w) (bv_prev w))
                                          (view tm4 off) else view tm4 j).
    { intros j. rewrite W5, He4. destruct (j =? off); reflexivity. }
    assert (Ebh : bucket_head tm0 (hash_nb (num_buckets tm0) t) = h).
    { unfold bucket_head. change (buckets tm0) with (buckets tm). rewrite <- S1.
      change (num_buckets tm0) with (num_buckets tm). rewrite <- N1, <- hash_nb_eq, Hh. reflexivity. }
    assert (Hbr : 0 <= hash_nb (num_buckets tm0) t < Z.of_nat (length (buckets tm0))).
    { rewrite S3, S2 in Hb. change (buckets tm0) with (buckets tm). rewrite <- S1.
      change (num_buckets tm0) with (num_buckets tm). rewrite <- N1. exact Hb. }
    pose proof (inva_prepend _ _ _ _ _ off (to_bv e0) t id Hinv Hoff
                  (view_get _ _ _ He0) Hin0 HG Hbr) as Hp.
    cbv zeta in Hp. rewrite Ebh in Hp.
    unfold tm_inv. rewrite S5, N5, L4, N4, N3, S3, N2, S2, N1, S1.
    eapply inva_ext; [exact Hp | |].
    - intros j. rewrite W5', !W4, !W3, !W2'. unfold vupd. rewrite (view_get _ _ _ He0).
      repeat (rewrite Z.eqb_refl || match goal with
        | |- context [?a =? ?b] => destruct (Z.eqb_spec a b) as [?E|?E]; [try subst a|]
        | |- context [0 <=? ?b] => destruct (Z.leb_spec 0 b)
        end); simpl; try reflexivity; try lia.
    - intros c. rewrite B5, B4. unfold bupd. rewrite hash_nb_eq, N1.
      change (num_buckets tm) with (num_buckets tm0).
      destruct (c =? hash_nb (num_buckets tm0) t); [reflexivity|].
      rewrite B3, B2, B1. reflexivity. }
  apply bind_Some in H as (th & _ & H).
  apply bind_Some in H as (e5 & He5 & H).
  apply bind_Some in H as (tm6 & H6 & H).
  apply bind_Some in H as (e6 & He6 & H).
  apply bind_Some in H as (tm7 & H7 & H).
  assert (Hinv6 : tm_inv tm6 id)
    by exact (put_entry_same_view tm5 tm6 off e5 (set_task_links e5 th (-1)) id Hinv5 He5 eq_refl H6).
  refine (put_task_head_inv tm7 tm' _ _ id _ H).
  destruct (0 <=? next_in_task e6); [|injection H7 as <-; exact Hinv6].
  apply bind_Some in H7 as (n & Hn & H7).
  exact (put_entry_same_view tm6 tm7 _ n (set_prev_in_task n off) id Hinv6 Hn eq_refl H7).
Qed.

(* ------------------------------------------------------------------ *)
(** ** The lookup loops *)

Lemma chain_vchain (tm : PTO2TensorMap) (h : Z) (L : list Z) :
  chain tm h L <-> vchain (view tm) h L.
Proof.
  split.
  - induction 1 as [h Hh|h e L Hh He HL IH]; [constructor; exact Hh|].
    econstructor; [exact Hh | exact (view_get _ _ _ He) | exact IH].
  - induction 1 as [h Hh|h v L Hh Hv HL IH]; [constructor; exact Hh|].
    unfold view in Hv. destruct (get_entry tm h) as [e|] eqn:He; [|discriminate].
    injection Hv as <-. econstructor; eauto.
Qed.

Lemma chain_ids_vids (tm : PTO2TensorMap) (L : list Z) : chain_ids tm L = vids (view tm) L.
Proof.
  induction L as [|x L IH]; [reflexivity|]. simpl. unfold view.
  destruct (get_entry tm x); simpl; rewrite IH; reflexivity.
Qed.

Lemma truncate_walk_spec (f : nat) (tm tm' : PTO2TensorMap) (h : Z) (C : list Z) :
  vchain (view tm) h C -> truncate_walk f tm h = Some tm' ->
  buckets tm' = buckets tm /\ num_buckets tm' = num_buckets tm /\
  last_task_alive tm' = last_task_alive tm /\
  (forall j, In j C ->
     get_entry tm' j = option_map (fun e => set_bucket_links e false (-1) (-1)) (get_entry tm j)) /\
  (forall j, ~ In j C -> get_entry tm' j = get_entry tm j).
Proof.
  revert tm h C. induction f as [|f IH]; intros tm h C Hc H; simpl in H; [discriminate|].
  destruct (Z.leb_spec 0 h) as [Hh|Hh]; simpl in H.
  2:{ injection H as <-. inversion Hc; [|lia]. repeat split; auto. intros j []. }
  inversion Hc as [|? v C0 _ Hv HC0]; subst; [lia|].
  apply bind_Some in H as (e & He & H). apply bind_Some in H as (tm1 & H1 & H).
  rewrite (view_get _ _ _ He) in Hv. injection Hv as <-.
  pose proof (vchain_nodup _ _ _ Hc) as Hnd. apply NoDup_cons in Hnd as [Hnin _].
  rewrite list_elem_of_In in Hnin.
  apply put_entry_spec in H1 as (_ & B1 & N1 & _ & T1 & G1).
  assert (Hc1 : vchain (view tm1) (next_in_bucket e) C0).
  { apply (vchain_ext (view tm)); [exact HC0|]. intros y Hy. unfold view. rewrite G1.
    destruct (Z.eqb_spec y h) as [->|_]; [contradiction|reflexivity]. }
  destruct (IH _ _ _ Hc1 H) as (B & N & T & Hin & Hout).
  repeat split; try congruence.
  - intros j [<-|Hj].
    + rewrite Hout by exact Hnin. rewrite G1, Z.eqb_refl, He. reflexivity.
    + rewrite Hin by exact Hj. rewrite G1. destruct (Z.eqb_spec j h) as [->|_]; [contradiction|reflexivity].
  - intros j Hj. rewrite Hout by (intros Hj'; apply Hj; right; exact Hj').
    rewrite G1. destruct (Z.eqb_spec j h) as [->|_]; [exfalso; apply Hj; left; reflexivity|reflexivity].
Qed.

Lemma lookup_walk_spec (f : nat) (tm : PTO2TensorMap) (t : Tensor) (b : Z) (P C : list Z) (off : Z)
    (acc res : list (Z * OverlapStatus)) (tm' : PTO2TensorMap) :
  vchain (view tm) off C ->
  lookup_walk f tm t (link_of b P) off acc = Some (res, tm') ->
  exists A C', C = A ++ C' /\
    (forall x, In x A -> exists e, get_entry tm x = Some e /\ pto2_tensormap_entry_valid tm e = true) /\
    ((C' = [] /\ tm' = tm) \/
     (exists c C'' tm1 f', C' = c :: C'' /\
        write_link tm (link_of b (P ++ A)) (-1) = Some tm1 /\ truncate_walk f' tm1 c = Some tm')).
Proof.
  revert P C off acc. induction f as [|f IH]; intros P C off acc Hc H; simpl in H; [discriminate|].
  destruct (Z.leb_spec 0 off) as [Ho|Ho]; simpl in H.
  2:{ injection H as _ <-. inversion Hc; [|lia]. exists [], []. split; [reflexivity|].
      split; [intros x []|]. left. auto. }
  inversion Hc as [|? v C0 _ Hv HC0]; subst; [lia|].
  apply bind_Some in H as (e & He & H).
  rewrite (view_get _ _ _ He) in Hv. injection Hv as <-.
  destruct (pto2_tensormap_entry_valid tm e) eqn:Hval; simpl in H.
  - assert (Em : link_of b (P ++ [off]) = NextOf off).
    { unfold link_of. rewrite lastd_snoc. destruct P; reflexivity. }
    rewrite <- Em in H.
    destruct (IH _ _ _ _ HC0 H) as (A0 & C' & -> & HA0 & Hr).
    exists (off :: A0), C'. split; [reflexivity|]. split.
    + intros x [<-|Hx]; [exists e; auto | exact (HA0 x Hx)].
    + rewrite <- app_assoc in Hr. exact Hr.
  - apply bind_Some in H as (tm1 & H1 & H). apply bind_Some in H as (tm2 & H2 & [= _ <-]).
    exists [], (off :: C0). split; [reflexivity|]. split; [intros x []|].
    right. exists off, C0, tm1, f. rewrite app_nil_r. auto.
Qed.

Lemma write_link_spec (tm tm1 : PTO2TensorMap) (b : Z) (P : list Z) :
  write_link tm (link_of b P) (-1) = Some tm1 ->
  num_buckets tm1 = num_buckets tm /\ length (buckets tm1) = length (buckets tm) /\
  last_task_alive tm1 = last_task_alive tm /\
  (P = [] -> (forall j, get_entry tm1 j = get_entry tm j) /\
             forall c, bucket_head tm1 c = if c =? b then -1 else bucket_head tm c) /\
  (P <> [] -> (forall j, get_entry tm1 j =
                 if j =? lastd (-1) P
                 then option_map (fun e => set_next_in_bucket e (-1)) (get_entry tm j)
                 else get_entry tm j) /\
              forall c, bucket_head tm1 c = bucket_head tm c).
Proof.
  destruct P as [|p P0] eqn:EP; intros H; cbn [link_of write_link] in H.
  - apply put_bucket_spec in H as (_ & L & N & Pl & _ & T & B).
    split; [exact N|]. split; [exact L|]. split; [exact T|]. split.
    + intros _. split; [|exact B]. intros j. unfold get_entry. rewrite Pl. reflexivity.
    + intros []; reflexivity.
  - rewrite <- EP in *. apply bind_Some in H as (e & He & H).
    apply put_entry_spec in H as (_ & Bs & N & _ & T & G).
    split; [exact N|]. split; [rewrite Bs; reflexivity|]. split; [exact T|]. split.
    + intros E. rewrite E in EP. discriminate EP.
    + intros _. split.
      * intros j. rewrite G. destruct (Z.eqb_spec j (lastd (-1) P)) as [->|_]; [|reflexivity].
        rewrite He. reflexivity.
      * intros c. unfold bucket_head. rewrite Bs. reflexivity.
Qed.

Lemma lookup_inv (fuel : nat) (tm tm' : PTO2TensorMap) (t : Tensor)
    (res : list (Z * OverlapStatus)) (G : Z) :
  tm_inv tm G -> pto2_tensormap_lookup fuel tm t = Some (res, tm') -> tm_inv tm' G.
Proof.
  intros Hinv H. unfold pto2_tensormap_lookup in H.
  apply bind_Some in H as (h & Hh & H).
  set (b := pto2_tensormap_hash tm t) in *.
  assert (Hb : 0 <= b < Z.of_nat (length (buckets tm))) by exact (zlookup_range _ _ _ Hh).
  assert (Ebh : bucket_head tm b = h) by (unfold bucket_head; rewrite Hh; reflexivity).
  pose proof Hinv as [H1 _]. destruct (H1 b Hb) as [L HL].
  pose proof (proj1 HL) as Hc. rewrite Ebh in Hc.
  change (BucketHead b) with (link_of b []) in H.
  destruct (lookup_walk_spec _ _ _ _ _ _ _ _ _ _ Hc H)
    as (A & C & -> & _ & [[-> ->]|(c & C'' & tm1 & f' & -> & Hw & Ht)]); [exact Hinv|].
  change ([] ++ A) with A in Hw.
  apply write_link_spec in Hw as (N1 & L1 & _ & Hnil & Hcons).
  pose proof (vchain_nodup _ _ _ Hc) as Hnd.
  apply NoDup_app in Hnd as (_ & HAC & _).
  assert (HAC' : forall y, In y A -> ~ In y (c :: C'')).
  { intros y Hy Hy'. apply list_elem_of_In in Hy, Hy'. exact (HAC y Hy Hy'). }
  assert (Hq : A <> [] -> In (lastd (-1) A) A).
  { intros HA. destruct (exists_last HA) as (A' & q' & EA). rewrite EA, lastd_snoc.
    apply in_app_iff. right. left. reflexivity. }
  assert (G1 : forall j, ~ In j A -> get_entry tm1 j = get_entry tm j).
  { intros j Hj. destruct A as [|a A0].
    - apply (proj1 (Hnil eq_refl)).
    - rewrite (proj1 (Hcons ltac:(discriminate))).
      destruct (Z.eqb_spec j (lastd (-1) (a :: A0))) as [E|_]; [|reflexivity].
      exfalso. apply Hj. rewrite E. apply Hq. discriminate. }
  apply vchain_app_inv in Hc as (k & _ & Hck).
  assert (Hc1 : vchain (view tm1) k (c :: C'')).
  { apply (vchain_ext (view tm)); [exact Hck|]. intros y Hy. unfold view.
    rewrite G1; [reflexivity|]. intros Hy'. exact (HAC' y Hy' Hy). }
  assert (Ek : k = c) by (inversion Hck; reflexivity). rewrite Ek in Hc1.
  destruct (truncate_walk_spec _ _ _ _ _ Hc1 Ht) as (B2 & N2 & _ & Hin & Hout).
  assert (BH : forall c0, bucket_head tm' c0 = bucket_head tm1 c0)
    by (intros c0; unfold bucket_head; rewrite B2; reflexivity).
  unfold tm_inv. rewrite B2, N2, N1, L1.
  apply (inva_truncate (view tm) (view tm') (bucket_head tm) (bucket_head tm')
           (hash_nb (num_buckets tm)) _ G b A (c :: C'') Hinv Hb HL).
  - intros y Hy. unfold view. rewrite Hin by exact Hy. rewrite G1.
    + destruct (get_entry tm y); reflexivity.
    + intros Hy'. exact (HAC' y Hy' Hy).
  - intros y Hy Hor. unfold view. rewrite Hout by exact Hy.
    destruct A as [|a A0]; [rewrite (proj1 (Hnil eq_refl)); reflexivity|].
    rewrite (proj1 (Hcons ltac:(discriminate))).
    destruct Hor as [Hor|Hor]; [discriminate|]. apply Z.eqb_neq in Hor. rewrite Hor. reflexivity.
  - intros HA. unfold view. rewrite Hout.
    + rewrite (proj1 (Hcons HA)), Z.eqb_refl. destruct (get_entry tm _); reflexivity.
    + apply HAC'. apply Hq. exact HA.
  - intros c0 Hc0. rewrite BH. destruct A as [|a A0].
    + rewrite (proj2 (Hnil eq_refl)). apply Z.eqb_neq in Hc0. rewrite Hc0. reflexivity.
    + apply (proj2 (Hcons ltac:(discriminate))).
  - intros ->. rewrite BH, (proj2 (Hnil eq_refl)), Z.eqb_refl. reflexivity.
  - intros HA. rewrite BH. apply (proj2 (Hcons HA)).
Qed.

Lemma init_inv (nb ps : Z) (tm0 : PTO2TensorMap) (G : Z) :
  pto2_tensormap_init nb ps = Some tm0 -> tm_inv tm0 G.
Proof.
  unfold pto2_tensormap_init. destruct (negb _); [discriminate|]. intros [= <-].
  assert (Hbh : forall b, bucket_head (mkTM (replicate (Z.to_nat nb) (-1)) nb
                    (replicate (Z.to_nat ps) empty_entry) ps 0
                    (replicate (Z.to_nat PTO2_TASK_WINDOW_SIZE) (-1)) 0) b = -1).
  { intros b. unfold bucket_head, zlookup. simpl. destruct (0 <=? b); [|reflexivity].
    destruct (replicate (Z.to_nat nb) (-1) !! Z.to_nat b) as [x|] eqn:E; [|reflexivity].
    apply lookup_replicate in E as [-> _]. reflexivity. }
  split.
  - intros b _. exists []. rewrite Hbh. repeat split; [constructor; lia | intros x [] | constructor].
  - intros x v Hx Hin. exfalso. unfold view, get_entry, zlookup in Hx. simpl in Hx.
    destruct (0 <=? x); [|discriminate].
    destruct (replicate (Z.to_nat ps) empty_entry !! Z.to_nat x) as [e|] eqn:E; [|discriminate].
    apply lookup_replicate in E as [-> _]. injection Hx as <-. discriminate.
Qed.

Lemma tm_exec_inv (fuel : nat) (tm tm' : PTO2TensorMap) (op : tm_op) (G : Z) :
  tm_inv tm G -> tm_exec fuel tm op = Some tm' ->
  match op with OpInsert _ id _ => G <= id -> tm_inv tm' id | _ => tm_inv tm' G end.
Proof.
  intros Hinv H. destruct op as [t id wa|t|o n|l]; simpl in H.
  - intros HG. exact (insert_inv _ _ _ _ _ _ Hinv HG H).
  - apply bind_Some in H as ([res tm1] & H1 & [= <-]). exact (lookup_inv _ _ _ _ _ _ Hinv H1).
  - exact (cleanup_retired_inv _ _ _ _ _ _ Hinv H).
  - injection H as <-. exact Hinv.
Qed.

Lemma tm_run_inv (fuel : nat) (ops : list tm_op) (tm tm' : PTO2TensorMap) (G : Z) :
  tm_inv tm G -> Sorted Z.le (G :: insert_ids ops) -> tm_run fuel tm ops = Some tm' ->
  exists G', tm_inv tm' G'.
Proof.
  revert tm G. induction ops as [|op ops IH]; intros tm G Hinv Hs H; simpl in H.
  - injection H as <-. exists G. exact Hinv.
  - apply bind_Some in H as (tm1 & H1 & H).
    pose proof (tm_exec_inv _ _ _ _ _ Hinv H1) as Hx.
    destruct op as [t id wa|t|o n|l]; simpl in Hs.
    + apply Sorted_inv in Hs as [Hs Hd]. apply HdRel_inv in Hd.
      exact (IH tm1 id (Hx Hd) Hs H).
    + exact (IH tm1 G Hx Hs H).
    + exact (IH tm1 G Hx Hs H).
    + exact (IH tm1 G Hx Hs H).
Qed.

Lemma vchain_mem_some (gv : Z -> option bview) (h : Z) (L : list Z) (x : Z) :
  vchain gv h L -> In x L -> exists v, gv x = Some v.
Proof.
  induction 1 as [|h v L Hh Hv HL IH]; simpl; [tauto|].
  intros [<-|Hx]; [exists v; exact Hv | exact (IH Hx)].
Qed.

(* ------------------------------------------------------------------ *)
(** ** Bucket order and truncation *)

(** C6 (amended): from the initialised map, after any run of inserts with
    non-decreasing task ids, lookups, cleanups and validity syncs, every
    bucket holds a finite chain from its head whose producer task ids are
    non-increasing from head to tail (equal ids occur when one task inserts
    several entries into a bucket, see [bucket_chain_not_strict]). *)
Theorem bucket_chain_nonincreasing (fuel : nat) (nb ps : Z) (ops : list tm_op)
    (tm0 tm : PTO2TensorMap) (b : Z) :
  pto2_tensormap_init nb ps = Some tm0 -> Sorted Z.le (insert_ids ops) ->
  tm_run fuel tm0 ops = Some tm -> 0 <= b < Z.of_nat (length (buckets tm)) ->
  exists L, chain tm (bucket_head tm b) L /\ Sorted Z.ge (chain_ids tm L).
Proof.
  intros H0 Hs Hr Hb.
  assert (Hs' : Sorted Z.le (hd 0 (insert_ids ops) :: insert_ids ops)).
  { destruct (insert_ids ops) as [|i l]; [repeat constructor|].
    constructor; [exact Hs | constructor; simpl; lia]. }
  destruct (tm_run_inv _ _ _ _ _ (init_inv _ _ _ _ H0) Hs' Hr) as [G [H1 _]].
  destruct (H1 b Hb) as (L & Hc & _ & _ & Hso). exists L. split.
  - apply chain_vchain. exact Hc.
  - rewrite chain_ids_vids. exact Hso.
Qed.

Lemma bucket_chain_nonincreasing_witness :
  match pto2_tensormap_init 4 8 with
  | Some tm0 =>
      match tm_run 10 tm0 tm_ops_mixed with
      | Some tm => exists L, chain tm (bucket_head tm 0) L /\ Sorted Z.ge (chain_ids tm L)
      | None => False
      end
  | None => False
  end.
Proof.
  destruct (pto2_tensormap_init 4 8) as [tm0|] eqn:E0; [|vm_compute in E0; discriminate].
  destruct (tm_run 10 tm0 tm_ops_mixed) as [tm|] eqn:E1.
  - apply (bucket_chain_nonincreasing 10 4 8 tm_ops_mixed tm0 tm 0 E0).
    + change (Sorted Z.le [0; 1; 2]). repeat constructor; lia.
    + exact E1.
    + vm_compute in E0. injection E0 as <-. vm_compute in E1. injection E1 as <-.
      simpl. lia.
  - vm_compute in E0. injection E0 as <-. vm_compute in E1. discriminate.
Defined.

(** C7: if the chain [L] of the looked-up bucket has non-increasing
    producer ids, then after [pto2_tensormap_lookup] returns, [L] splits as
    [A ++ C]: the bucket head now leads exactly through [A], every entry of
    [A] has [producer_task_id >= last_task_alive], and every entry of the
    truncated part [C] has [in_bucket = false] and both bucket links [-1]. *)
Theorem lookup_truncation_sound (fuel : nat) (tm tm' : PTO2TensorMap) (t : Tensor)
    (res : list (Z * OverlapStatus)) (L : list Z) :
  chain tm (bucket_head tm (pto2_tensormap_hash tm t)) L ->
  Sorted Z.ge (chain_ids tm L) ->
  pto2_tensormap_lookup fuel tm t = Some (res, tm') ->
  exists A C, L = A ++ C /\
    chain tm' (bucket_head tm' (pto2_tensormap_hash tm t)) A /\
    (forall x, In x A -> exists e, get_entry tm' x = Some e /\
                                   last_task_alive tm' <= producer_task_id e) /\
    (forall x, In x C -> exists e, get_entry tm' x = Some e /\ in_bucket e = false /\
                                   next_in_bucket e = -1 /\ prev_in_bucket e = -1).
Proof.
  intros Hc _ H. unfold pto2_tensormap_lookup in H.
  apply bind_Some in H as (h & Hh & H).
  set (b := pto2_tensormap_hash tm t) in *.
  assert (Ebh : bucket_head tm b = h) by (unfold bucket_head; rewrite Hh; reflexivity).
  rewrite Ebh in Hc. apply chain_vchain in Hc.
  change (BucketHead b) with (link_of b []) in H.
  destruct (lookup_walk_spec _ _ _ _ _ _ _ _ _ _ Hc H)
    as (A & C & -> & HA & [[-> ->]|(c & C'' & tm1 & f' & -> & Hw & Ht)]).
  { exists A, []. split; [rewrite app_nil_r; reflexivity|]. split; [|split].
    - rewrite Ebh. apply chain_vchain. rewrite app_nil_r in Hc. exact Hc.
    - intros x Hx. destruct (HA x Hx) as (e & He & Hv). exists e. split; [exact He|].
      apply Z.leb_le. exact Hv.
    - intros x []. }
  change ([] ++ A) with A in Hw.
  apply write_link_spec in Hw as (N1 & L1 & T1 & Hnil & Hcons).
  pose proof (vchain_nodup _ _ _ Hc) as Hnd.
  apply NoDup_app in Hnd as (HndA & HAC & _).
  assert (HAC' : forall y, In y A -> ~ In y (c :: C'')).
  { intros y Hy Hy'. apply list_elem_of_In in Hy, Hy'. exact (HAC y Hy Hy'). }
  assert (Hq : A <> [] -> In (lastd (-1) A) A).
  { intros HA0. destruct (exists_last HA0) as (A' & q' & EA). rewrite EA, lastd_snoc.
    apply in_app_iff. right. left. reflexivity. }
  assert (G1 : forall j, ~ In j A -> get_entry tm1 j = get_entry tm j).
  { intros j Hj. destruct A as [|a A0].
    - apply (proj1 (Hnil eq_refl)).
    - rewrite (proj1 (Hcons ltac:(discriminate))).
      destruct (Z.eqb_spec j (lastd (-1) (a :: A0))) as [E|_]; [|reflexivity].
      exfalso. apply Hj. rewrite E. apply Hq. discriminate. }
  pose proof Hc as Hc0. apply vchain_app_inv in Hc0 as (k & Hseg & Hck).
  assert (Hc1 : vchain (view tm1) k (c :: C'')).
  { apply (vchain_ext (view tm)); [exact Hck|]. intros y Hy. unfold view.
    rewrite G1; [reflexivity|]. intros Hy'. exact (HAC' y Hy' Hy). }
  assert (Ek : k = c) by (inversion Hck; reflexivity). rewrite Ek in Hc1, Hseg.
  destruct (truncate_walk_spec _ _ _ _ _ Hc1 Ht) as (B2 & N2 & T2 & Hin & Hout).
  assert (BH : forall c0, bucket_head tm' c0 = bucket_head tm1 c0)
    by (intros c0; unfold bucket_head; rewrite B2; reflexivity).
  (* every entry of A keeps its id *)
  assert (GA : forall x, In x A ->
            option_map producer_task_id (get_entry tm' x) = option_map producer_task_id (get_entry tm x)).
  { intros x Hx. rewrite Hout by exact (HAC' x Hx). destruct A as [|a A0]; [destruct Hx|].
    rewrite (proj1 (Hcons ltac:(discriminate))).
    destruct (x =? _); [|reflexivity]. destruct (get_entry tm x); reflexivity. }
  exists A, (c :: C''). split; [reflexivity|]. split; [|split].
  - apply chain_vchain. rewrite BH. destruct A as [|a A0] eqn:EA.
    + rewrite (proj2 (Hnil eq_refl)), Z.eqb_refl. constructor. lia.
    + rewrite <- EA in *. assert (HA0 : A <> []) by (rewrite EA; discriminate).
      rewrite (proj2 (Hcons HA0)), Ebh.
      destruct (exists_last HA0) as (A' & q & EA').
      assert (Eq : lastd (-1) A = q) by (rewrite EA'; apply lastd_snoc).
      rewrite EA' in Hseg. apply vseg_snoc_inv in Hseg as [Hseg (vq & Hq0 & Hvq & _)].
      assert (Hq1 : view tm' q = Some (bv_set_next vq (-1))).
      { unfold view. rewrite Hout by (rewrite <- Eq; apply HAC'; apply Hq; exact HA0).
        rewrite (proj1 (Hcons HA0)), Eq, Z.eqb_refl. unfold view in Hvq.
        destruct (get_entry tm q); [|discriminate]. injection Hvq as <-. reflexivity. }
      rewrite EA', <- (app_nil_r (A' ++ [q])).
      apply (vchain_app _ _ _ (bv_next (bv_set_next vq (-1)))); [|constructor; simpl; lia].
      apply vseg_snoc; [|exact Hq0|exact Hq1].
      apply (vseg_ext (view tm)); [exact Hseg|]. intros y Hy.
      assert (Hyq : y <> q).
      { intros ->. rewrite EA' in HndA. apply NoDup_app in HndA as (_ & Hd & _).
        apply list_elem_of_In in Hy. apply (Hd q Hy). left. }
      assert (HyA : In y A) by (rewrite EA'; apply in_app_iff; left; exact Hy).
      unfold view. rewrite Hout by exact (HAC' y HyA). rewrite (proj1 (Hcons HA0)), Eq.
      apply Z.eqb_neq in Hyq. rewrite Hyq. reflexivity.
  - intros x Hx. destruct (HA x Hx) as (e & He & Hv).
    specialize (GA x Hx). rewrite He in GA.
    destruct (get_entry tm' x) as [e'|]; simpl in GA; [|discriminate].
    injection GA as GA. exists e'. split; [reflexivity|].
    rewrite T2, T1, GA. apply Z.leb_le. exact Hv.
  - intros x Hx. rewrite Hin by exact Hx. rewrite G1 by (intros Hx'; exact (HAC' x Hx' Hx)).
    destruct (vchain_mem_some _ _ _ _ Hck Hx) as [v Hv]. unfold view in Hv.
    destruct (get_entry tm x) as [e|]; [|discriminate].
    exists (set_bucket_links e false (-1) (-1)). repeat split.
Qed.

Lemma lookup_truncation_sound_witness :
  match pto2_tensormap_init 4 8 with
  | Some tm0 =>
      match tm_run 10 tm0 tm_ops_before_lookup with
      | Some tm =>
          match pto2_tensormap_lookup 10 tm s3_read with
          | Some (res, tm') =>
              exists A C, [2; 1; 0] = A ++ C /\
                chain tm' (bucket_head tm' (pto2_tensormap_hash tm s3_read)) A /\
                (forall x, In x A -> exists e, get_entry tm' x = Some e /\
                                               last_task_alive tm' <= producer_task_id e) /\
                (forall x, In x C -> exists e, get_entry tm' x = Some e /\ in_bucket e = false /\
                                               next_in_bucket e = -1 /\ prev_in_bucket e = -1)
          | None => False
          end
      | None => False
      end
  | None => False
  end.
Proof.
  destruct (pto2_tensormap_init 4 8) as [tm0|] eqn:E0; [|vm_compute in E0; discriminate].
  vm_compute in E0. injection E0 as <-.
  destruct (tm_run 10 _ tm_ops_before_lookup) as [tm|] eqn:E1; [|vm_compute in E1; discriminate].
  vm_compute in E1. injection E1 as <-.
  destruct (pto2_tensormap_lookup 10 _ s3_read) as [[res tm']|] eqn:E2;
    [|vm_compute in E2; discriminate].
  apply (lookup_truncation_sound 10 _ tm' s3_read res [2; 1; 0]); [| |exact E2].
  - match goal with |- chain _ ?h _ => let h' := eval vm_compute in h in change h with h' end.
    econstructor; [lia|reflexivity|]. econstructor; [lia|reflexivity|].
    econstructor; [lia|reflexivity|]. constructor. cbn. lia.
  - match goal with |- Sorted _ ?l => let l' := eval vm_compute in l in change l with l' end.
    repeat constructor; lia.
Defined.

(* ------------------------------------------------------------------ *)
(** ** C2: the segment walk of [complex_overlap] *)

Lemma carry_at_cons (t t' : Tensor) (i : nat) (k b : Z) (x : list Z) :
  strides t = hd 0 (strides t) :: strides t' ->
  repeats t = hd 0 (repeats t) :: repeats t' ->
  carry_at t (S (S i)) (k :: x, b) =
  let '(x2, b2) := carry_at t' (S i) (x, b) in (k :: x2, b2).
Proof.
  intros Hs Hr. unfold carry_at. rewrite Hs, Hr. simpl. rewrite !Nat.sub_0_r.
  destruct (_ =? _); reflexivity.
Qed.

Lemma carry_loop_cons (t t' : Tensor) (j : nat) (k b : Z) (x : list Z) :
  strides t = hd 0 (strides t) :: strides t' ->
  repeats t = hd 0 (repeats t) :: repeats t' ->
  carry_loop t (S j) (k :: x, b) =
  carry_at t 1 (let '(x2, b2) := carry_loop t' j (x, b) in (k :: x2, b2)).
Proof.
  intros Hs Hr. revert x b. induction j as [|j IH]; intros x b; [reflexivity|].
  change (carry_loop t (S (S j)) (k :: x, b))
    with (carry_loop t (S j) (carry_at t (S (S j)) (k :: x, b))).
  rewrite (carry_at_cons t t') by assumption.
  change (carry_loop t' (S j) (x, b)) with (carry_loop t' j (carry_at t' (S j) (x, b))).
  destruct (carry_at t' (S j) (x, b)) as [x2 b2]. apply IH.
Qed.

Lemma iter_next_cons (t t' : Tensor) (k : Z) (st : IterState) :
  strides t = hd 0 (strides t) :: strides t' ->
  repeats t = hd 0 (repeats t) :: repeats t' ->
  ndims t = S (ndims t') -> (1 <= ndims t')%nat ->
  iter_next t (mkIter (k :: indexes st) (cur_seg st)) =
  let st' := iter_next t' st in
  if nth 0 (indexes st') 0 =? nth 0 (repeats t') 0 then
    let b := add64 (seg_begin (cur_seg st'))
                   (sub64 (hd 0 (strides t))
                          (mul64 (nth 0 (strides t') 0) (nth 0 (repeats t') 0))) in
    mkIter (add64 k 1 :: <[0%nat := 0]> (indexes st'))
           (mkSeg b (add64 b (nth (ndims t' - 1) (repeats t') 0)))
  else mkIter (k :: indexes st') (cur_seg st').
Proof.
  intros Hs Hr Hn Hn1. destruct (ndims t') as [|n''] eqn:En; [lia|].
  unfold iter_next. rewrite Hn, En. cbn [indexes cur_seg]. simpl Nat.sub.
  rewrite !Nat.sub_0_r. rewrite Hr. simpl nth.
  change (<[S n'' := ?v]> (k :: ?l)) with (k :: <[n'' := v]> l).
  rewrite (carry_loop_cons t t') by assumption.
  destruct (carry_loop t' n'' _) as [x2 b2]. cbn zeta.
  unfold carry_at. rewrite Hr, Hs. simpl. destruct (_ =? _); reflexivity.
Qed.

Lemma add64_u64 (g c : Z) : add64 (u64 g) c = u64 (g + c).
Proof. unfold add64, u64. apply Zplus_mod_idemp_l. Qed.

Lemma carry_begin (g a s0 s1 r1 : Z) :
  a = s1 * r1 -> add64 (u64 (g + a)) (sub64 s0 (mul64 s1 r1)) = u64 (g + s0).
Proof.
  intros ->. unfold add64, sub64, mul64, u64.
  rewrite Zplus_mod_idemp_l, Zplus_mod_idemp_r.
  replace (g + s1 * r1 + (s0 - (s1 * r1) mod 2 ^ 64))
    with (g + s1 * r1 + s0 - (s1 * r1) mod 2 ^ 64) by ring.
  rewrite Zminus_mod_idemp_r. f_equal. ring.
Qed.

Lemma nth_last (l : list Z) : l <> [] -> nth (length l - 1) l 0 = List.last l 0.
Proof.
  induction l as [|a l IH]; [congruence|]. intros _.
  destruct l as [|b l]; [reflexivity|].
  simpl length in *. simpl Nat.sub in *. rewrite Nat.sub_0_r in IH.
  change (nth (S (length l)) (a :: b :: l) 0) with (nth (length l) (b :: l) 0).
  rewrite IH by congruence. reflexivity.
Qed.

Lemma zseq_length (r : Z) : length (zseq r) = Z.to_nat r.
Proof. unfold zseq. rewrite length_map, length_seq. reflexivity. Qed.

Lemma zseq_nth (r : Z) (k : nat) : (k < Z.to_nat r)%nat -> nth k (zseq r) 0 = Z.of_nat k.
Proof.
  intros Hk. unfold zseq. rewrite (nth_indep _ _ (Z.of_nat 0)) by (rewrite length_map, length_seq; lia).
  rewrite map_nth, seq_nth by exact Hk. reflexivity.
Qed.

Lemma nth_flat_map_const (f : Z -> list Z) (l : list Z) (m j k : nat) :
  (forall a, In a l -> length (f a) = m) -> (k < length l)%nat -> (j < m)%nat ->
  nth (j + k * m) (flat_map f l) 0 = nth j (f (nth k l 0)) 0.
Proof.
  revert k. induction l as [|a l IH]; intros k Hf Hk Hj; simpl in Hk; [lia|].
  simpl flat_map. destruct k as [|k].
  - rewrite Nat.mul_0_l, Nat.add_0_r. apply app_nth1. rewrite Hf by (left; reflexivity). exact Hj.
  - rewrite app_nth2 by (rewrite Hf by (left; reflexivity); lia).
    rewrite Hf by (left; reflexivity).
    replace (j + S k * m - m)%nat with (j + k * m)%nat by lia.
    apply IH; [intros; apply Hf; right; assumption | lia | exact Hj].
Qed.

Lemma length_flat_map_const (f : Z -> list Z) (l : list Z) (m : nat) :
  (forall a, In a l -> length (f a) = m) -> length (flat_map f l) = (length l * m)%nat.
Proof.
  induction l as [|a l IH]; intros Hf; [reflexivity|].
  simpl. rewrite length_app, Hf by (left; reflexivity).
  rewrite IH by (intros; apply Hf; right; assumption). reflexivity.
Qed.

Lemma norm_dims_length (ss rs : list Z) : norm_dims ss rs -> length rs = length ss.
Proof.
  revert rs. induction ss as [|s ss IH]; intros rs H; [destruct rs; contradiction|].
  destruct rs as [|r rs]; [destruct ss as [|? []]; contradiction|].
  destruct ss as [|s' ss], rs as [|r' rs]; try contradiction; [reflexivity|].
  destruct H as (_ & _ & _ & H). change (S (length (r' :: rs)) = S (length (s' :: ss))). f_equal. apply IH. exact H.
Qed.

Lemma nseg_pos (ss rs : list Z) : norm_dims ss rs -> (1 <= nseg rs)%nat.
Proof.
  revert rs. induction ss as [|s ss IH]; intros rs H; [destruct rs; contradiction|].
  destruct rs as [|r rs]; [destruct ss as [|? []]; contradiction|].
  destruct ss as [|s' ss], rs as [|r' rs]; try contradiction; [simpl; lia|].
  destruct H as (_ & _ & Hr & H). specialize (IH _ H).
  change (1 <= Z.to_nat r * nseg (r' :: rs))%nat. nia.
Qed.

Lemma seg_starts_length (ss rs : list Z) (o : Z) :
  norm_dims ss rs -> length (seg_starts o ss rs) = nseg rs.
Proof.
  revert rs o. induction ss as [|s ss IH]; intros rs o H; [destruct rs; contradiction|].
  destruct rs as [|r rs]; [destruct ss as [|? []]; contradiction|].
  destruct ss as [|s' ss], rs as [|r' rs]; try contradiction; [reflexivity|].
  destruct H as (_ & _ & _ & H).
  change (length (flat_map (fun k => seg_starts (o + k * s) (s' :: ss) (r' :: rs)) (zseq r))
          = (Z.to_nat r * nseg (r' :: rs))%nat).
  rewrite <- zseq_length. apply length_flat_map_const.
  intros k _. apply IH. exact H.
Qed.

Lemma iter_pred {A} (f : A -> A) (n : nat) (x : A) :
  (1 <= n)%nat -> Nat.iter n f x = f (Nat.iter (pred n) f x).
Proof. destruct n; [lia|reflexivity]. Qed.


Lemma full_run (ss : list Z) : forall (t : Tensor) (rs : list Z),
  strides t = ss -> repeats t = rs -> ndims t = length ss ->
  norm_dims ss rs -> Forall (fun x => x < 2 ^ 64) rs ->
  (forall g j, (j < nseg rs)%nat ->
     let st := Nat.iter j (iter_next t) (it_state (List.last rs 0) (replicate (ndims t) 0) g) in
     nth 0 (indexes st) 0 < hd 0 rs /\
     cur_seg st = cur_seg (it_state (List.last rs 0) [] (nth j (seg_starts g ss rs) 0))) /\
  (forall g, Nat.iter (nseg rs) (iter_next t) (it_state (List.last rs 0) (replicate (ndims t) 0) g) =
             it_state (List.last rs 0) (hd 0 rs :: replicate (pred (ndims t)) 0)
                      (g + hd 0 ss * hd 0 rs)).
Proof.
  induction ss as [|s0 ss' IH]; intros t rs Hs Hr Hn Hnd Hb; [destruct rs; contradiction|].
  destruct rs as [|r0 rs']; [destruct ss' as [|? []]; contradiction|].
  destruct ss' as [|s1 ss''].
  - (* one dimension *)
    destruct rs' as [|? ?]; [|destruct rs'; contradiction].
    destruct Hnd as [-> Hr0]. inversion Hb as [|? ? Hr0b _]; subst.
    simpl in Hn. split.
    + intros g j Hj. simpl in Hj. assert (j = 0%nat) as -> by lia.
      rewrite Hn. simpl. split; [lia|reflexivity].
    + intros g. rewrite Hn. simpl Nat.iter. unfold iter_next. rewrite Hn, Hr.
      simpl. unfold it_state. simpl.
      rewrite add64_u64. unfold add64 at 1. rewrite Z.add_0_l, (u64_id r0) by lia.
      rewrite Z.mul_1_l. reflexivity.
  - (* an outer dimension over [t'] *)
    destruct rs' as [|r1 rs'']; [contradiction|].
    destruct Hnd as (Hs10 & Hsr & Hr0 & Hnd).
    inversion Hb as [|? ? Hr0b Hb']; subst.
    set (t' := tl_tensor t).
    assert (Hs' : strides t' = s1 :: ss'') by (unfold t', tl_tensor; cbn; rewrite Hs; reflexivity).
    assert (Hr' : repeats t' = r1 :: rs'') by (unfold t', tl_tensor; cbn; rewrite Hr; reflexivity).
    assert (Hn' : ndims t' = length (s1 :: ss'')) by (unfold t', tl_tensor; cbn; rewrite Hn; reflexivity).
    destruct (IH t' (r1 :: rs'') Hs' Hr' Hn' Hnd Hb') as [P1 P2].
    set (rl := List.last (r1 :: rs'') 0) in *.
    change (List.last (r0 :: r1 :: rs'') 0) with rl.
    set (N' := nseg (r1 :: rs'')) in *.
    pose proof (nseg_pos _ _ Hnd) as HN'. fold N' in HN'.
    set (n' := ndims t') in *.
    assert (Hnt : ndims t = S n') by (rewrite Hn, Hn'; reflexivity).
    assert (HS : strides t = hd 0 (strides t) :: strides t') by (rewrite Hs, Hs'; reflexivity).
    assert (HR : repeats t = hd 0 (repeats t) :: repeats t') by (rewrite Hr, Hr'; reflexivity).
    assert (Hn1 : (1 <= n')%nat) by (rewrite Hn'; simpl; lia).
    (* inside a block *)
    assert (Lift : forall k g j', (j' < N')%nat ->
      Nat.iter j' (iter_next t) (it_state rl (k :: replicate n' 0) g) =
      let X := Nat.iter j' (iter_next t') (it_state rl (replicate n' 0) g) in
      mkIter (k :: indexes X) (cur_seg X)).
    { intros k g j' Hj'. induction j' as [|j' IHj]; [reflexivity|].
      rewrite Nat.iter_succ, IHj by lia. cbn zeta.
      rewrite (iter_next_cons t t') by assumption. cbn zeta.
      rewrite <- Nat.iter_succ.
      destruct (P1 g (S j') Hj') as [Hlt _]. rewrite Hr'. simpl hd in Hlt.
      match goal with |- context [?a =? ?b] => destruct (Z.eqb_spec a b) as [E|_] end;
        [cbn [nth] in E; lia | reflexivity]. }
    (* a whole block *)
    assert (Block : forall k g, 0 <= k < r0 ->
      Nat.iter N' (iter_next t) (it_state rl (k :: replicate n' 0) g) =
      it_state rl ((k + 1) :: replicate n' 0) (g + s0)).
    { intros k g Hk.
      rewrite (iter_pred _ N') by exact HN'. rewrite Lift by lia. cbn zeta.
      rewrite (iter_next_cons t t') by assumption. cbn zeta.
      rewrite <- (iter_pred _ N') by exact HN'.
      rewrite P2, Hr'.
      replace (nth (ndims t' - 1) (r1 :: rs'') 0) with rl
        by (unfold rl; change (ndims t') with n'; rewrite Hn', <- (norm_dims_length _ _ Hnd);
            symmetry; apply nth_last; congruence).
      rewrite Hs, Hs'. unfold it_state. cbn [indexes cur_seg seg_begin nth hd].
      rewrite Z.eqb_refl.
      rewrite (carry_begin g (s1 * r1) s0 s1 r1) by reflexivity.
      unfold add64 at 1. rewrite (u64_id (k + 1)) by lia.
      destruct n' as [|n'']; [lia|]. reflexivity. }
    assert (Blocks : forall k, (k <= Z.to_nat r0)%nat -> forall g,
      Nat.iter (k * N') (iter_next t) (it_state rl (replicate (ndims t) 0) g) =
      it_state rl (Z.of_nat k :: replicate n' 0) (g + Z.of_nat k * s0)).
    { induction k as [|k IHk]; intros Hk g.
      - rewrite Hnt. simpl. unfold it_state. rewrite Z.add_0_r. reflexivity.
      - change (S k * N')%nat with (N' + k * N')%nat.
        rewrite Nat.iter_add, IHk by lia. rewrite Block by lia.
        rewrite Nat2Z.inj_succ. unfold it_state, Z.succ.
        replace (g + Z.of_nat k * s0 + s0) with (g + (Z.of_nat k + 1) * s0) by ring.
        reflexivity. }
    change (nseg (r0 :: r1 :: rs'')) with (Z.to_nat r0 * N')%nat.
    split.
    + intros g j Hj. cbn zeta.
      change (seg_starts g (s0 :: s1 :: ss'') (r0 :: r1 :: rs''))
        with (flat_map (fun k => seg_starts (g + k * s0) (s1 :: ss'') (r1 :: rs'')) (zseq r0)).
      pose proof (Nat.div_mod_eq j N') as Hd.
      pose proof (Nat.mod_upper_bound j N' ltac:(lia)) as Hm.
      assert (Hk : (j / N' < Z.to_nat r0)%nat) by (apply Nat.Div0.div_lt_upper_bound; lia).
      assert (Ej : j = (j mod N' + j / N' * N')%nat) by lia.
      rewrite Ej.
      rewrite Nat.iter_add, Blocks by lia. rewrite Lift by exact Hm. cbn zeta.
      cbn [indexes cur_seg nth hd]. split; [lia|].
      rewrite (nth_flat_map_const _ _ N').
      * rewrite zseq_nth by exact Hk. apply (P1 _ _ Hm).
      * intros a _. apply seg_starts_length. exact Hnd.
      * rewrite zseq_length. exact Hk.
      * exact Hm.
    + intros g. rewrite Blocks by lia. rewrite Z2Nat.id by lia.
      rewrite Hnt. simpl hd. simpl pred. rewrite (Z.mul_comm r0). reflexivity.
Qed.


Lemma iter_collect_states (t : Tensor) (m : nat) : forall (fuel : nat) (st : IterState),
  (m <= fuel)%nat ->
  (forall j, (j < m)%nat -> iter_is_end t (Nat.iter j (iter_next t) st) = false) ->
  iter_is_end t (Nat.iter m (iter_next t) st) = true ->
  iter_collect fuel t st = map (fun j => cur_seg (Nat.iter j (iter_next t) st)) (seq 0 m).
Proof.
  induction m as [|m IH]; intros fuel st Hf Hne He.
  - destruct fuel; simpl in *; [reflexivity|]. rewrite He. reflexivity.
  - destruct fuel as [|fuel]; [lia|].
    assert (H0 : iter_is_end t st = false) by exact (Hne 0%nat ltac:(lia)).
    cbn [iter_collect]. rewrite H0. cbn [seq map]. f_equal.
    rewrite IH.
    + rewrite <- seq_shift, map_map. apply map_ext. intros j. rewrite Nat.iter_succ_r. reflexivity.
    + lia.
    + intros j Hj. rewrite <- Nat.iter_succ_r. apply Hne. lia.
    + rewrite <- Nat.iter_succ_r. exact He.
Qed.

Lemma map_nth_seq0 (l : list Z) : map (fun j => nth j l 0) (seq 0 (length l)) = l.
Proof.
  induction l as [|a l IH]; [reflexivity|].
  simpl. f_equal. rewrite <- seq_shift, map_map. exact IH.
Qed.

Lemma seg_count_prod (ss rs : list Z) :
  norm_dims ss rs ->
  1 <= fold_right Z.mul 1 (take (length rs - 1) rs) /\
  Z.to_nat (fold_right Z.mul 1 (take (length rs - 1) rs)) = nseg rs.
Proof.
  revert rs. induction ss as [|s ss IH]; intros rs H; [destruct rs; contradiction|].
  destruct rs as [|r rs]; [destruct ss as [|? []]; contradiction|].
  destruct ss as [|s' ss], rs as [|r' rs]; try contradiction.
  - simpl. split; [lia|reflexivity].
  - destruct H as (_ & _ & Hr & H). destruct (IH _ H) as [IH1 IH2].
    set (P := foldr Z.mul 1 (take (length (r' :: rs) - 1) (r' :: rs))) in IH1, IH2.
    replace (length (r :: r' :: rs) - 1)%nat with (S (length (r' :: rs) - 1))%nat by (simpl; lia).
    change (foldr Z.mul 1 (take (S (length (r' :: rs) - 1)) (r :: r' :: rs))) with (r * P).
    split; [nia|].
    rewrite Z2Nat.inj_mul by lia. rewrite IH2. reflexivity.
Qed.

Lemma in_offsets_seg_starts (ss : list Z) : forall (rs : list Z) (o x : Z),
  norm_dims ss rs ->
  In x (offsets_from o ss rs) <->
  exists o', In o' (seg_starts o ss rs) /\
             exists i, 0 <= i < List.last rs 0 /\ x = o' + i.
Proof.
  induction ss as [|s ss IH]; intros rs o x H; [destruct rs; contradiction|].
  destruct rs as [|r rs]; [destruct ss as [|? []]; contradiction|].
  destruct ss as [|s' ss], rs as [|r' rs]; try contradiction.
  - destruct H as [-> _]. rewrite offsets_from_1d. simpl. split.
    + intros (k & Hk & ->). exists o. split; [left; reflexivity|]. exists k. split; [lia|ring].
    + intros (o' & [<-|[]] & i & Hi & ->). exists i. split; [lia|ring].
  - destruct H as (_ & _ & _ & H).
    change (offsets_from o (s :: s' :: ss) (r :: r' :: rs))
      with (flat_map (fun k => offsets_from (o + k * s) (s' :: ss) (r' :: rs)) (zseq r)).
    change (seg_starts o (s :: s' :: ss) (r :: r' :: rs))
      with (flat_map (fun k => seg_starts (o + k * s) (s' :: ss) (r' :: rs)) (zseq r)).
    change (List.last (r :: r' :: rs) 0) with (List.last (r' :: rs) 0).
    rewrite in_flat_map. split.
    + intros (k & Hk & Hx). apply IH in Hx as (o' & Ho' & Hi); [|exact H].
      exists o'. split; [apply in_flat_map; exists k; split; assumption|exact Hi].
    + intros (o' & Ho' & Hi). apply in_flat_map in Ho' as (k & Hk & Ho').
      exists k. split; [exact Hk|]. apply IH; [exact H|]. exists o'. split; assumption.
Qed.

Lemma seg_starts_bounds (ss : list Z) : forall (rs : list Z) (o x : Z),
  norm_dims ss rs -> Forall (fun s => 0 <= s) ss ->
  In x (seg_starts o ss rs) ->
  o <= x /\ x + List.last rs 0 <= o + hd 0 ss * hd 0 rs.
Proof.
  induction ss as [|s ss IH]; intros rs o x H Hs Hx; [destruct rs; contradiction|].
  destruct rs as [|r rs]; [destruct ss as [|? []]; contradiction|].
  destruct ss as [|s' ss], rs as [|r' rs]; try contradiction.
  - destruct H as [-> _]. destruct Hx as [<-|[]]. simpl. lia.
  - destruct H as (_ & Hsr & _ & H). inversion Hs as [|? ? Hs0 Hs']; subst.
    change (In x (flat_map (fun k => seg_starts (o + k * s) (s' :: ss) (r' :: rs)) (zseq r))) in Hx.
    apply in_flat_map in Hx as (k & Hk & Hx). apply in_zseq in Hk.
    apply IH in Hx; [|exact H|exact Hs'].
    change (List.last (r :: r' :: rs) 0) with (List.last (r' :: rs) 0).
    simpl hd in *. nia.
Qed.

Lemma zseq_sorted (r : Z) : StronglySorted Z.lt (zseq r).
Proof.
  unfold zseq. generalize 0%nat as a. generalize (Z.to_nat r) as m.
  induction m as [|m IH]; intros a; [constructor|].
  simpl. constructor; [apply IH|].
  apply List.Forall_forall. intros y Hy. apply in_map_iff in Hy as (j & <- & Hj).
  apply in_seq in Hj. lia.
Qed.

Lemma strongly_sorted_app {A} (R : A -> A -> Prop) (l1 l2 : list A) :
  StronglySorted R l1 -> StronglySorted R l2 ->
  (forall a b, In a l1 -> In b l2 -> R a b) -> StronglySorted R (l1 ++ l2).
Proof.
  induction l1 as [|a l1 IH]; intros H1 H2 H12; [exact H2|].
  inversion H1 as [|? ? H1' Ha]; subst. simpl. constructor.
  - apply IH; [exact H1'|exact H2|]. intros; apply H12; [right|]; assumption.
  - apply Forall_app. split; [exact Ha|].
    apply List.Forall_forall. intros b Hb. apply H12; [left; reflexivity|exact Hb].
Qed.

Lemma strongly_sorted_flat_map (R : Z -> Z -> Prop) (B : Z -> list Z) (ks : list Z) :
  StronglySorted Z.lt ks -> (forall k, In k ks -> StronglySorted R (B k)) ->
  (forall k k' a b, In k ks -> In k' ks -> k < k' -> In a (B k) -> In b (B k') -> R a b) ->
  StronglySorted R (flat_map B ks).
Proof.
  induction ks as [|k ks IH]; intros Hk HB Hx; [constructor|].
  inversion Hk as [|? ? Hk' Hlt]; subst. simpl.
  apply strongly_sorted_app.
  - apply HB. left; reflexivity.
  - apply IH; [exact Hk'| |].
    + intros; apply HB; right; assumption.
    + intros k1 k2 a b H1 H2 H12 Ha Hb. apply (Hx k1 k2); [right; exact H1|right; exact H2|exact H12|exact Ha|exact Hb].
  - intros a b Ha Hb. apply in_flat_map in Hb as (k' & Hk'in & Hb).
    apply (Hx k k'); [left; reflexivity|right; exact Hk'in| |exact Ha|exact Hb].
    rewrite List.Forall_forall in Hlt. apply Hlt. exact Hk'in.
Qed.

Lemma seg_starts_sorted (ss : list Z) : forall (rs : list Z) (o : Z),
  norm_dims ss rs -> Forall (fun s => 0 <= s) ss ->
  StronglySorted (fun a b => a + List.last rs 0 <= b) (seg_starts o ss rs).
Proof.
  induction ss as [|s ss IH]; intros rs o H Hs; [destruct rs; contradiction|].
  destruct rs as [|r rs]; [destruct ss as [|? []]; contradiction|].
  destruct ss as [|s' ss], rs as [|r' rs]; try contradiction.
  - repeat constructor.
  - pose proof H as H0. destruct H as (_ & Hsr & _ & H). inversion Hs as [|? ? Hs0 Hs']; subst.
    change (seg_starts o (s :: s' :: ss) (r :: r' :: rs))
      with (flat_map (fun k => seg_starts (o + k * s) (s' :: ss) (r' :: rs)) (zseq r)).
    change (List.last (r :: r' :: rs) 0) with (List.last (r' :: rs) 0).
    apply strongly_sorted_flat_map; [apply zseq_sorted| |].
    + intros k _. apply IH; assumption.
    + intros k k' a b Hk Hk' Hlt Ha Hb.
      apply in_zseq in Hk, Hk'.
      apply (seg_starts_bounds _ _ _ _ H Hs') in Ha, Hb. simpl hd in *. nia.
Qed.


Lemma norm_last_pos (ss rs : list Z) : norm_dims ss rs -> 1 <= List.last rs 0.
Proof.
  revert rs. induction ss as [|s ss IH]; intros rs H; [destruct rs; contradiction|].
  destruct rs as [|r rs]; [destruct ss as [|? []]; contradiction|].
  destruct ss as [|s' ss], rs as [|r' rs]; try contradiction.
  - destruct H as [_ H]. exact H.
  - destruct H as (_ & _ & _ & H). exact (IH _ H).
Qed.

Lemma norm_nonempty (ss rs : list Z) : norm_dims ss rs -> rs <> [].
Proof. destruct ss as [|? []], rs; simpl; tauto || congruence. Qed.

Lemma mem_segs_spec (t : Tensor) :
  normalized t -> u64_fields t ->
  mem_segs t = map (fun o => mkSeg (u64 o) (add64 (u64 o) (List.last (repeats t) 0)))
                   (seg_starts (start_offset t) (strides t) (repeats t)).
Proof.
  intros [[Hls Hlr] Hnd] (Hso & Hsb & Hrb).
  set (rl := List.last (repeats t) 0).
  set (L := seg_starts (start_offset t) (strides t) (repeats t)).
  assert (Hrb' : Forall (fun x => x < 2 ^ 64) (repeats t))
    by (eapply Forall_impl; [exact Hrb|]; simpl; lia).
  destruct (full_run (strides t) t (repeats t) eq_refl eq_refl (eq_sym Hls) Hnd Hrb') as [P1 P2].
  pose proof (norm_nonempty _ _ Hnd) as Hne.
  assert (Hhd : hd 0 (repeats t) = nth 0 (repeats t) 0) by (destruct (repeats t); reflexivity).
  unfold mem_segs.
  assert (Hinit : iter_init t = it_state rl (replicate (ndims t) 0) (start_offset t)).
  { unfold iter_init, it_state. rewrite u64_id by lia.
    replace (nth (ndims t - 1) (repeats t) 0) with rl; [reflexivity|].
    unfold rl. rewrite <- Hlr. symmetry. apply nth_last. exact Hne. }
  assert (Hcount : seg_count t = nseg (repeats t)).
  { unfold seg_count. rewrite <- Hlr. apply (seg_count_prod _ _ Hnd). }
  rewrite Hinit, Hcount.
  rewrite (iter_collect_states t (nseg (repeats t))).
  - transitivity (map (fun j => cur_seg (it_state rl [] (nth j L 0))) (seq 0 (nseg (repeats t)))).
    + apply map_ext_in. intros j Hj. apply in_seq in Hj. apply (P1 (start_offset t) j). lia.
    + rewrite <- (seg_starts_length _ _ (start_offset t) Hnd). fold L.
      replace (map (fun j => cur_seg (it_state rl [] (nth j L 0))) (seq 0 (length L)))
        with (map (fun o => cur_seg (it_state rl [] o)) (map (fun j => nth j L 0) (seq 0 (length L))))
        by (rewrite map_map; reflexivity).
      rewrite map_nth_seq0. reflexivity.
  - lia.
  - intros j Hj. unfold iter_is_end. destruct (P1 (start_offset t) j Hj) as [Hlt _].
    apply Z.leb_gt. rewrite <- Hhd. exact Hlt.
  - rewrite P2. unfold iter_is_end, it_state. cbn [indexes nth]. apply Z.leb_le. rewrite Hhd. lia.
Qed.

Lemma walk_cons (x y : Segment) (xs ys : list Segment) :
  walk (x :: xs) (y :: ys) =
  if seg_end x <=? seg_begin y then walk xs (y :: ys)
  else if seg_end y <=? seg_begin x then walk (x :: xs) ys
  else true.
Proof. reflexivity. Qed.

Lemma walk_nil_r (xs : list Segment) : walk xs [] = false.
Proof. destruct xs; reflexivity. Qed.

Lemma walk_spec (xs : list Segment) : forall (ys : list Segment),
  seg_ordered xs -> seg_ordered ys ->
  (walk xs ys = true <->
   exists x y, In x xs /\ In y ys /\ line_segment_intersection x y = true).
Proof.
  induction xs as [|x xs IHx]; intros ys [Hx Nx] [Hy Ny].
  - split; [discriminate|]. intros (? & ? & [] & _).
  - induction ys as [|y ys IHy].
    + rewrite walk_nil_r. split; [discriminate|]. intros (? & ? & _ & [] & _).
    + inversion Hx as [|? ? Hx' Fx]; subst. inversion Hy as [|? ? Hy' Fy]; subst.
      inversion Nx as [|? ? Nx0 Nx']; subst. inversion Ny as [|? ? Ny0 Ny']; subst.
      rewrite List.Forall_forall in Fx, Fy.
      rewrite walk_cons. unfold line_segment_intersection.
      destruct (Z.leb_spec (seg_end x) (seg_begin y)) as [E1|E1].
      * rewrite IHx by (split; assumption). split.
        -- intros (a & b & Ha & Hb & Hi). exists a, b. split; [right; exact Ha|]. split; assumption.
        -- intros (a & b & [<-|Ha] & Hb & Hi); [|exists a, b; split; [exact Ha|split; assumption]].
           exfalso. apply andb_true_iff in Hi as [Hi1 Hi2]. apply Z.ltb_lt in Hi1, Hi2.
           destruct Hb as [<-|Hb]; [lia|]. specialize (Fy b Hb). lia.
      * destruct (Z.leb_spec (seg_end y) (seg_begin x)) as [E2|E2].
        -- rewrite IHy by assumption. split.
           ++ intros (a & b & Ha & Hb & Hi). exists a, b. split; [exact Ha|]. split; [right; exact Hb|exact Hi].
           ++ intros (a & b & Ha & [<-|Hb] & Hi); [|exists a, b; split; [exact Ha|split; assumption]].
              exfalso. apply andb_true_iff in Hi as [Hi1 Hi2]. apply Z.ltb_lt in Hi1, Hi2.
              destruct Ha as [<-|Ha]; [lia|]. specialize (Fx a Ha). lia.
        -- split; [intros _|reflexivity]. exists x, y. split; [left; reflexivity|].
           split; [left; reflexivity|]. apply andb_true_iff. split; apply Z.ltb_lt; lia.
Qed.

Lemma strongly_sorted_map {A B} (R : A -> A -> Prop) (R' : B -> B -> Prop) (f : A -> B) (l : list A) :
  (forall a b, R a b -> R' (f a) (f b)) -> StronglySorted R l -> StronglySorted R' (map f l).
Proof.
  intros HR. induction 1 as [|a l Hl IH Ha]; simpl; constructor; [exact IH|].
  apply List.Forall_forall. intros y Hy. apply in_map_iff in Hy as (b & <- & Hb).
  apply HR. rewrite List.Forall_forall in Ha. apply Ha. exact Hb.
Qed.

Lemma byte_segs_spec (t : Tensor) :
  normalized t -> u64_fields t -> bytes_in_u64 t ->
  map (to_byte_seg (get_element_size (dtype t))) (mem_segs t) =
  map (fun o => mkSeg (o * get_element_size (dtype t))
                      ((o + List.last (repeats t) 0) * get_element_size (dtype t)))
      (seg_starts (start_offset t) (strides t) (repeats t)).
Proof.
  intros Hn Hu Hb. rewrite (mem_segs_spec t Hn Hu), map_map.
  destruct Hn as [[Hls Hlr] Hnd]. destruct Hu as (Hso & Hsb & Hrb).
  pose proof (norm_last_pos _ _ Hnd) as Hrl.
  pose proof (get_element_size_pos (dtype t)) as Hes.
  apply map_ext_in. intros o Ho.
  assert (Hs0 : Forall (fun s => 0 <= s) (strides t))
    by (eapply Forall_impl; [exact Hsb|]; simpl; lia).
  destruct (seg_starts_bounds _ _ _ _ Hnd Hs0 Ho) as [Hlo _].
  assert (Hin : In (o + (List.last (repeats t) 0 - 1)) (elem_offsets t)).
  { unfold elem_offsets. rewrite !take_ge by lia.
    apply in_offsets_seg_starts; [exact Hnd|]. exists o. split; [exact Ho|].
    exists (List.last (repeats t) 0 - 1). split; [lia|reflexivity]. }
  specialize (Hb _ Hin).
  unfold to_byte_seg, add64, mul64. cbn [seg_begin seg_end].
  rewrite (u64_id o) by nia. rewrite (u64_id (o + _)) by nia.
  rewrite !u64_id by nia. reflexivity.
Qed.

Lemma reach_seg_starts (t : Tensor) (b : Z) :
  normalized t ->
  reach_byte t b <->
  exists o, In o (seg_starts (start_offset t) (strides t) (repeats t)) /\
            o * get_element_size (dtype t) <= b <
            (o + List.last (repeats t) 0) * get_element_size (dtype t).
Proof.
  intros [[Hls Hlr] Hnd].
  pose proof (get_element_size_pos (dtype t)) as Hes.
  set (es := get_element_size (dtype t)) in *.
  unfold reach_byte, elem_offsets. rewrite !take_ge by lia. fold es. split.
  - intros (x & Hx & Hb). apply in_offsets_seg_starts in Hx as (o & Ho & i & Hi & ->); [|exact Hnd].
    exists o. split; [exact Ho|]. nia.
  - intros (o & Ho & Hb). exists (b / es).
    pose proof (Z.div_mod b es ltac:(lia)) as Hd.
    pose proof (Z.mod_pos_bound b es ltac:(lia)) as Hm.
    assert (o <= b / es) by (apply Z.div_le_lower_bound; lia).
    assert (b / es < o + List.last (repeats t) 0) by (apply Z.div_lt_upper_bound; lia).
    split; [|nia].
    apply in_offsets_seg_starts; [exact Hnd|]. exists o. split; [exact Ho|].
    exists (b / es - o). split; lia.
Qed.

Lemma segs_enumerate_of (t : Tensor) :
  normalized t -> u64_fields t -> bytes_in_u64 t -> segs_enumerate t.
Proof.
  intros Hn Hu Hb. unfold segs_enumerate. cbv zeta. rewrite (byte_segs_spec t Hn Hu Hb).
  pose proof (get_element_size_pos (dtype t)) as Hes.
  pose proof Hn as [[Hls Hlr] Hnd].
  pose proof (norm_last_pos _ _ Hnd) as Hrl.
  assert (Hs0 : Forall (fun s => 0 <= s) (strides t))
    by (destruct Hu as (_ & Hsb & _); eapply Forall_impl; [exact Hsb|]; simpl; lia).
  split; [split|].
  - eapply strongly_sorted_map; [|apply (seg_starts_sorted _ _ _ Hnd Hs0)].
    intros a c Hac. cbn beta in Hac. cbn [seg_begin seg_end]. apply Z.mul_le_mono_nonneg_r; lia.
  - apply List.Forall_forall. intros s Hs. apply in_map_iff in Hs as (o & <- & _).
    cbn [seg_begin seg_end]. nia.
  - intros b. rewrite (reach_seg_starts t b Hn). split.
    + intros (o & Ho & Hbo). eexists. split; [apply in_map; exact Ho|]. exact Hbo.
    + intros (s & Hs & Hbs). apply in_map_iff in Hs as (o & <- & Ho). exists o. split; assumption.
Qed.

(** C2: for normalized descriptors [t] (the reader) and [p] (the producer)
    whose fields are 64-bit values and whose reachable bytes lie below 2^64,
    the iterator of each descriptor yields ascending, pairwise disjoint,
    non-empty byte segments that together cover exactly its reachable bytes,
    and [complex_overlap t p] is true exactly when some byte is reachable
    from both. *)
Theorem complex_overlap_iff_reach (t p : Tensor) :
  normalized t -> normalized p -> u64_fields t -> u64_fields p ->
  bytes_in_u64 t -> bytes_in_u64 p ->
  segs_enumerate t /\ segs_enumerate p /\
  (complex_overlap t p = true <-> exists b, reach_byte t b /\ reach_byte p b).
Proof.
  intros Nt Np Ut Up Bt Bp.
  pose proof (segs_enumerate_of t Nt Ut Bt) as Et.
  pose proof (segs_enumerate_of p Np Up Bp) as Ep.
  split; [exact Et|]. split; [exact Ep|].
  destruct Et as [Ot Rt], Ep as [Op Rp].
  unfold complex_overlap. rewrite (walk_spec _ _ Ot Op). split.
  - intros (x & y & Hx & Hy & Hi).
    unfold line_segment_intersection in Hi. apply andb_true_iff in Hi as [Hi1 Hi2].
    apply Z.ltb_lt in Hi1, Hi2.
    destruct Ot as [_ Nx]. destruct Op as [_ Ny]. rewrite List.Forall_forall in Nx, Ny.
    specialize (Nx x Hx). specialize (Ny y Hy).
    exists (Z.max (seg_begin x) (seg_begin y)). split.
    + apply Rt. exists x. split; [exact Hx|lia].
    + apply Rp. exists y. split; [exact Hy|lia].
  - intros (b & Hbt & Hbp). apply Rt in Hbt as (x & Hx & Hbx). apply Rp in Hbp as (y & Hy & Hby).
    exists x, y. split; [exact Hx|]. split; [exact Hy|].
    unfold line_segment_intersection. apply andb_true_iff. split; apply Z.ltb_lt; lia.
Qed.

Lemma complex_overlap_iff_reach_witness :
  segs_enumerate s4_A /\ segs_enumerate s4_B /\
  (complex_overlap s4_A s4_B = true <-> exists b, reach_byte s4_A b /\ reach_byte s4_B b).
Proof.
  apply (complex_overlap_iff_reach s4_A s4_B).
  - split; [split; reflexivity|cbn; lia].
  - split; [split; reflexivity|cbn; lia].
  - unfold u64_fields; cbn; repeat constructor; lia.
  - unfold u64_fields; cbn; repeat constructor; lia.
  - intros o Ho; vm_compute in Ho; repeat destruct Ho as [<-|Ho]; try contradiction;
      vm_compute; reflexivity.
  - intros o Ho; vm_compute in Ho; repeat destruct Ho as [<-|Ho]; try contradiction;
      vm_compute; reflexivity.
Defined.

(* ================================================================== *)
(** * Further properties of the code *)


Lemma fold_add_shift (h : nat -> Z) (l : list nat) (a : Z) :
  fold_left (fun acc i => acc + h i) l a = a + fold_left (fun acc i => acc + h i) l 0.
Proof.
  revert a. induction l as [|i l IH]; intros a; simpl; [lia|].
  rewrite IH, (IH (0 + h i)). lia.
Qed.

Lemma fold_add64 (h h' : nat -> Z) (l : list nat) (a : Z) :
  0 <= a < 2 ^ 64 ->
  (forall i, In i l -> u64 (h i) = u64 (h' i)) ->
  fold_left (fun acc i => add64 acc (h i)) l a =
  u64 (a + fold_left (fun acc i => acc + h' i) l 0).
Proof.
  revert a. induction l as [|i l IH]; intros a Ha Hh; simpl.
  - rewrite Z.add_0_r, u64_id by exact Ha. reflexivity.
  - rewrite IH by (apply u64_range || (intros j Hj; apply Hh; right; exact Hj)).
    rewrite (fold_add_shift h' l (0 + h' i)).
    specialize (Hh i (or_introl eq_refl)). unfold add64, u64 in *.
    rewrite Zplus_mod_idemp_l.
    match goal with |- (_ + ?F) mod _ = _ =>
      replace (a + h i + F) with (h i + (a + F)) by lia end.
    rewrite <- Zplus_mod_idemp_l, Hh, Zplus_mod_idemp_l.
    f_equal. lia.
Qed.

Lemma mul64_mod (x y : Z) : u64 (mul64 x y) = u64 (x * y).
Proof. unfold mul64, u64. apply Zmod_mod. Qed.

(** a loop [for i < n] summing [f i * l[i]] *)
Lemma fold_dotz (F : nat -> Z) (l : list Z) (k : nat) :
  fold_left (fun acc i => acc + F i * nth i l 0) (seq k (length l - k)) 0 =
  dotz (map F (seq k (length l - k))) (drop k l).
Proof.
  remember (length l - k)%nat as m eqn:Hm. revert k Hm.
  induction m as [|m IH]; intros k Hm; simpl; [reflexivity|].
  rewrite fold_add_shift, IH by lia.
  rewrite (drop_nth l k) by lia. simpl. lia.
Qed.

Lemma map_nth_seq0' (l : list Z) (n : nat) :
  length l = n -> map (fun j => nth j l 0) (seq 0 n) = l.
Proof. intros <-. apply map_nth_seq0. Qed.

Lemma fold_insert_shapes (shapes rs : list Z) (n : nat) :
  length rs = n ->
  fold_left (fun rs i => <[i := nth i shapes 0]> rs) (seq 0 n) rs =
  map (fun i => nth i shapes 0) (seq 0 n).
Proof.
  intros Hl.
  enough (H : forall k, (k <= n)%nat ->
    fold_left (fun rs i => <[i := nth i shapes 0]> rs) (seq 0 k) rs =
    map (fun i => nth i shapes 0) (seq 0 k) ++ drop k rs).
  { rewrite H by lia. rewrite drop_ge by lia. apply app_nil_r. }
  induction k as [|k IH]; intros Hk; [rewrite drop_0; reflexivity|].
  rewrite seq_S, fold_left_app, IH by lia. simpl.
  rewrite (drop_nth rs k) by lia.
  rewrite map_app, <- app_assoc. simpl.
  rewrite insert_app_r_alt by (rewrite length_map, length_seq; lia).
  rewrite length_map, length_seq, Nat.sub_diag. reflexivity.
Qed.

(** the element offsets of a box inside the index ranges of [rs] *)
Lemma offsets_box (F G : nat -> Z) (ss : list Z) : forall (rs : list Z) (k : nat) (o x : Z),
  length rs = length ss ->
  (forall i, (i < length ss)%nat ->
     0 <= F (k + i)%nat /\ 0 <= G (k + i)%nat /\ F (k + i)%nat + G (k + i)%nat <= nth i rs 0) ->
  In x (offsets_from (o + dotz (map F (seq k (length ss))) ss) ss (map G (seq k (length ss)))) ->
  In x (offsets_from o ss rs).
Proof.
  induction ss as [|s ss IH]; intros rs k o x Hl Hb Hx.
  - destruct rs; [|discriminate]. simpl in *. lia.
  - destruct rs as [|r rs]; [discriminate|]. simpl in Hl. injection Hl as Hl.
    cbn [length seq map dotz offsets_from] in Hx |- *.
    apply in_flat_map in Hx as (j & Hj & Hx). apply in_zseq in Hj.
    destruct (Hb 0%nat ltac:(simpl; lia)) as (HF & HG & HFG).
    rewrite Nat.add_0_r in HF, HG, HFG. simpl nth in HFG.
    apply in_flat_map. exists (F k + j). split; [apply in_zseq; lia|].
    apply (IH rs (S k) _ x Hl).
    + intros i Hi. replace (S k + i)%nat with (k + S i)%nat by lia.
      apply (Hb (S i)). simpl. lia.
    + replace (o + (F k * s + dotz (map F (seq (S k) (length ss))) ss) + j * s)
        with (o + (F k + j) * s + dotz (map F (seq (S k) (length ss))) ss) in Hx by lia.
      exact Hx.
Qed.

(** X1: If [valid_view] accepts the shapes and offsets, and no uint64 sum wraps, every element offset of the view is an element offset of the tensor. *)
Theorem view_offsets_in_parent (t : Tensor) (shapes offs : list Z) :
  wf_dims t -> u64_fields t ->
  (forall i, (i < ndims t)%nat ->
     0 <= nth i shapes 0 /\ 0 <= nth i offs 0 /\ nth i shapes 0 + nth i offs 0 < 2 ^ 64) ->
  fold_left (fun acc i => acc + nth i offs 0 * nth i (strides t) 0)
            (seq 0 (ndims t)) (start_offset t) < 2 ^ 64 ->
  valid_view t shapes offs = true ->
  forall x, In x (elem_offsets (tensor_view t shapes offs)) -> In x (elem_offsets t).
Proof.
  intros [Hls Hlr] (Hso & Hsb & Hrb) Hb Hfold Hv x Hx.
  set (n := ndims t) in *.
  assert (Hs0 : forall i, (i < n)%nat -> 0 <= nth i (strides t) 0).
  { intros i Hi. rewrite List.Forall_forall in Hsb.
    apply (Hsb (nth i (strides t) 0)), nth_In. lia. }
  assert (Hdot : fold_left (fun acc i => acc + nth i offs 0 * nth i (strides t) 0) (seq 0 n) 0
                 = dotz (map (fun i => nth i offs 0) (seq 0 n)) (strides t)).
  { pose proof (fold_dotz (fun i => nth i offs 0) (strides t) 0) as E.
    rewrite Nat.sub_0_r, drop_0, Hls in E. exact E. }
  assert (Hoff : offset_ndim_to_1d t offs = u64 (dotz (map (fun i => nth i offs 0) (seq 0 n)) (strides t))).
  { unfold offset_ndim_to_1d. fold n.
    rewrite (fold_add64 _ (fun i => nth i offs 0 * nth i (strides t) 0)); [| lia |].
    - rewrite Z.add_0_l, Hdot. reflexivity.
    - intros i _. apply mul64_mod. }
  rewrite fold_add_shift, Hdot in Hfold.
  assert (Hd0 : 0 <= dotz (map (fun i => nth i offs 0) (seq 0 n)) (strides t)).
  { rewrite <- Hdot. apply (fold_left_inv (fun a => 0 <= a)); [lia|].
    intros a i Hi Ha. apply in_seq in Hi. destruct (Hb i ltac:(lia)) as (_ & Ho & _).
    pose proof (Hs0 i ltac:(lia)). nia. }
  unfold elem_offsets, tensor_view in Hx. cbn [start_offset strides repeats ndims] in Hx.
  rewrite Hoff in Hx.
  rewrite fold_insert_shapes in Hx by exact Hlr.
  unfold add64 in Hx. rewrite (u64_id (dotz _ _)) in Hx by lia.
  rewrite u64_id in Hx by lia.
  rewrite take_ge in Hx by lia.
  rewrite take_ge in Hx by (rewrite length_map, length_seq; lia).
  unfold elem_offsets. rewrite !take_ge by lia.
  change (ndims t) with n in Hx. rewrite <- Hls in Hx.
  apply (offsets_box (fun i => nth i offs 0) (fun i => nth i shapes 0) (strides t) (repeats t) 0
           (start_offset t) x); [lia| |exact Hx].
  intros i Hi. simpl. rewrite Hls in Hi. destruct (Hb i Hi) as (H1 & H2 & H3).
  split; [exact H2|]. split; [exact H1|].
  unfold valid_view in Hv. rewrite forallb_forall in Hv.
  specialize (Hv i ltac:(apply in_seq; lia)). apply negb_true_iff, Z.ltb_ge in Hv.
  unfold add64 in Hv. rewrite u64_id in Hv by lia. lia.
Qed.

(** X2: When [valid_transpose x y] holds, the transposed tensor reaches the same element offsets as the tensor, up to order. *)
Theorem transpose_permutes_offsets (t : Tensor) (x y : nat) :
  wf_dims t -> valid_transpose t x y = true ->
  elem_offsets (transpose t x y) ≡ₚ elem_offsets t.
Proof.
  intros [Hs Hr] Hv. unfold valid_transpose in Hv.
  apply andb_true_iff in Hv as [Hx Hy]. apply Nat.ltb_lt in Hx, Hy.
  unfold elem_offsets, transpose; cbn [start_offset strides repeats ndims].
  unfold swap_at. rewrite !take_ge by (rewrite ?length_insert; lia).
  rewrite !offsets_from_pairs. apply offsets_pairs_perm.
  rewrite !combine_insert.
  apply Permutation_insert_swap; apply lookup_combine_nth; lia.
Qed.

Lemma offset_to_ndims_dot (ss : list Z) : forall cur,
  offset_dot_ok ss -> dotz (offset_to_ndims_from ss cur) ss = cur.
Proof.
  induction ss as [|s ss IH]; intros cur H; [contradiction|].
  destruct ss as [|s' ss'].
  - simpl in *. subst. rewrite Z.div_1_r. lia.
  - destruct H as [Hs H].
    assert (E : offset_to_ndims_from (s :: s' :: ss') cur
                = cur / s :: offset_to_ndims_from (s' :: ss') (cur mod s)) by reflexivity.
    rewrite E. cbn [dotz]. rewrite (IH (cur mod s) H). pose proof (Z.div_mod cur s ltac:(lia)). lia.
Qed.

Lemma offset_dot_ok_intro (ss : list Z) :
  ss <> [] -> Forall (fun s => 1 <= s) ss -> nth (length ss - 1) ss 0 = 1 -> offset_dot_ok ss.
Proof.
  induction ss as [|s ss IH]; intros Hn Hf Hl; [congruence|].
  inversion Hf as [|? ? Hs Hf']; subst.
  destruct ss as [|s' ss']; [exact Hl|].
  split; [exact Hs|]. apply IH; [discriminate|exact Hf'|].
  cbn [length] in Hl |- *.
  replace (S (S (length ss')) - 1)%nat with (S (length ss')) in Hl by lia.
  replace (S (length ss') - 1)%nat with (length ss') by lia. exact Hl.
Qed.

Lemma length_offset_to_ndims_from (ss : list Z) (cur : Z) :
  length (offset_to_ndims_from ss cur) = length ss.
Proof. revert cur. induction ss; intros; simpl; auto. Qed.

(** X3: For strides that are all at least 1, the innermost one 1, [offset_ndim_to_1d] of [offset_to_ndims] gives back [start_offset]. *)
Theorem offset_ndims_round_trip (t : Tensor) :
  wf_dims t -> (1 <= ndims t)%nat -> 0 <= start_offset t < 2 ^ 64 ->
  Forall (fun s => 1 <= s) (strides t) -> nth (ndims t - 1) (strides t) 0 = 1 ->
  offset_ndim_to_1d t (offset_to_ndims t) = start_offset t.
Proof.
  intros [Hs Hr] Hn Hso Hf Hl.
  unfold offset_ndim_to_1d, offset_to_ndims. rewrite take_ge by lia.
  set (q := offset_to_ndims_from (strides t) (start_offset t)).
  rewrite (fold_add64 _ (fun i => nth i q 0 * nth i (strides t) 0)); [| lia |].
  2:{ intros i _. apply mul64_mod. }
  pose proof (fold_dotz (fun i => nth i q 0) (strides t) 0) as E.
  rewrite Nat.sub_0_r, drop_0, Hs in E. rewrite E.
  assert (Eq : map (fun i => nth i q 0) (seq 0 (ndims t)) = q).
  { apply map_nth_seq0'. unfold q. rewrite length_offset_to_ndims_from. exact Hs. }
  rewrite Eq. unfold q. rewrite offset_to_ndims_dot.
  - rewrite Z.add_0_l. apply u64_id. exact Hso.
  - apply offset_dot_ok_intro; [intros E'; rewrite E' in Hs; simpl in Hs; lia|exact Hf|].
    rewrite Hs. exact Hl.
Qed.

Lemma length_offsets_from (ss : list Z) : forall (rs : list Z) (o : Z),
  length rs = length ss -> Forall (fun r => 0 <= r) rs ->
  Z.of_nat (length (offsets_from o ss rs)) = zprod rs.
Proof.
  induction ss as [|s ss IH]; intros [|r rs] o Hl Hf; try discriminate; [reflexivity|].
  inversion Hf as [|? ? Hr Hf']; subst. simpl in Hl. injection Hl as Hl.
  cbn [offsets_from]. unfold zprod; cbn [fold_right]. fold (zprod rs).
  assert (Hz : 0 <= zprod rs) by (rewrite <- (IH rs 0 Hl Hf'); lia).
  rewrite (length_flat_map_const _ _ (Z.to_nat (zprod rs))).
  - rewrite zseq_length, Nat2Z.inj_mul, !Z2Nat.id by lia. reflexivity.
  - intros a _. apply Nat2Z.inj. rewrite Z2Nat.id by lia. apply IH; assumption.
Qed.

(** X4: For [ndims >= 1] and a product of repeats below 2^64, [numel] is the number of element offsets the tensor enumerates. *)
Theorem numel_counts_offsets (t : Tensor) :
  wf_dims t -> (1 <= ndims t)%nat -> Forall (fun r => 0 <= r) (repeats t) ->
  zprod (repeats t) < 2 ^ 64 ->
  Z.of_nat (length (elem_offsets t)) = numel t.
Proof.
  intros [Hs Hr] Hn Hf Hp.
  rewrite numel_zprod by (auto; lia).
  unfold elem_offsets. rewrite !take_ge by lia.
  apply length_offsets_from; [lia|exact Hf].
Qed.

(** X5: [make_1d_contiguous addr size_bytes] reaches exactly the bytes [0, size_bytes - size_bytes mod element_size): a trailing partial element is left out. *)
Theorem make_1d_contiguous_bytes (a size_bytes : Z) (d : DataType) (v : Z) (b : Z) :
  0 <= size_bytes ->
  reach_byte (make_1d_contiguous a size_bytes d v) b <->
  0 <= b < size_bytes - size_bytes mod get_element_size d.
Proof.
  intros Hsz. pose proof (get_element_size_pos d) as Hes.
  set (es := get_element_size d) in *.
  pose proof (Z.div_mod size_bytes es ltac:(lia)) as Hdm.
  pose proof (Z.mod_pos_bound size_bytes es ltac:(lia)) as Hm.
  assert (Hq : 0 <= size_bytes / es) by (apply Z.div_pos; lia).
  unfold reach_byte, make_1d_contiguous, elem_offsets; cbn [start_offset strides repeats ndims dtype].
  fold es. cbn [take]. setoid_rewrite offsets_from_1d. split.
  - intros (o & (k & Hk & ->) & Hb). nia.
  - intros Hb. exists (b / es). split.
    + exists (b / es). split; [|lia]. split; [apply Z.div_pos; lia|].
      apply Z.div_lt_upper_bound; lia.
    + pose proof (Z.div_mod b es ltac:(lia)). pose proof (Z.mod_pos_bound b es ltac:(lia)). nia.
Qed.

Lemma zprod_drop_bound (l : list Z) (i : nat) :
  Forall (fun x => 1 <= x) l -> zprod l < 2 ^ 64 -> 1 <= zprod (drop i l) < 2 ^ 64.
Proof.
  intros Hf Hp. pose proof (zprod_drop_le l i Hf).
  pose proof (zprod_ge1 (drop i l) (Forall_drop _ _ _ Hf)). lia.
Qed.

Lemma make_strides_spec (shapes : list Z) (n : nat) :
  length shapes = n -> (1 <= n)%nat -> Forall (fun x => 1 <= x) shapes -> zprod shapes < 2 ^ 64 ->
  make_strides shapes n = suffix_strides shapes.
Proof.
  intros Hl Hn Hf Hp. unfold make_strides. rewrite fold_left_rev.
  enough (H : forall m i, (1 <= i)%nat -> (i + m = n)%nat ->
    fold_right (fun x y => <[(x - 1)%nat := mul64 (nth x y 0) (nth x shapes 0)]> y)
      (<[(n - 1)%nat := 1]> (replicate n 0)) (seq i m)
    = replicate (i - 1) 0 ++ suffix_strides (drop (i - 1) shapes)).
  { specialize (H (n - 1)%nat 1%nat ltac:(lia) ltac:(lia)). simpl in H. rewrite drop_0 in H. exact H. }
  induction m as [|m IH]; intros i Hi Him; simpl.
  - rewrite Nat.add_0_r in Him. subst i.
    replace (drop (n - 1) shapes) with [nth (n - 1) shapes 0].
    2:{ rewrite (drop_nth shapes (n - 1)) by lia. rewrite drop_ge by lia. reflexivity. }
    simpl. replace (replicate n 0) with (replicate (S (n - 1)) 0 ++ []) by (rewrite app_nil_r; f_equal; lia).
    rewrite insert_replicate_app. reflexivity.
  - rewrite IH by lia. rewrite ?Nat.sub_0_r. try replace (S i - 1)%nat with i by lia.
    rewrite app_nth2 by (rewrite length_replicate; lia).
    rewrite length_replicate, Nat.sub_diag.
    assert (Hd : drop (i - 1) shapes = nth (i - 1) shapes 0 :: drop i shapes).
    { rewrite (drop_nth shapes (i - 1)) by lia. do 2 f_equal. lia. }
    rewrite Hd. rewrite (drop_nth shapes i) by lia. cbn [suffix_strides nth].
    replace (replicate i 0) with (replicate (S (i - 1)) 0) by (f_equal; lia).
    rewrite insert_replicate_app.
    f_equal. f_equal. unfold zprod at 2. cbn [fold_right]. fold (zprod (drop (S i) shapes)).
    unfold mul64. rewrite u64_id; [ring|].
    pose proof (zprod_drop_bound shapes i Hf Hp) as Hb.
    rewrite (drop_nth shapes i) in Hb by lia. unfold zprod in Hb |- *. cbn [fold_right] in Hb. lia.
Qed.

Lemma suffix_strides_contiguous (t : Tensor) :
  strides t = suffix_strides (repeats t) -> length (repeats t) = ndims t ->
  Forall (fun x => 1 <= x) (repeats t) -> zprod (repeats t) < 2 ^ 64 ->
  is_contiguous t = true.
Proof.
  intros Hs Hl Hf Hp. unfold is_contiguous. rewrite Hs.
  destruct (Nat.eqb_spec (ndims t) 0) as [|Hn]; [reflexivity|].
  rewrite nth_suffix_strides by lia. rewrite drop_ge by lia. cbn.
  apply forallb_forall. intros i Hi. apply in_seq in Hi. apply Z.eqb_eq.
  rewrite !nth_suffix_strides by lia.
  pose proof (zprod_drop_bound (repeats t) (S (S i)) Hf Hp) as Hb.
  pose proof (zprod_drop_bound (repeats t) (S i) Hf Hp) as Hb'.
  rewrite (drop_nth (repeats t) (S i)) in Hb' |- * by lia.
  unfold zprod in *. cbn [fold_right] in *. unfold mul64. rewrite u64_id by lia. ring.
Qed.

(** X6: For 1 to 8 dimensions, every shape at least 1 and no overflow, [make_tensor] is [make_tensor_external] at address 0, and the result is contiguous, enumerates the offsets [0, prod shapes), and reaches exactly the bytes of its buffer of size [prod shapes * element_size]. *)
Theorem make_tensor_external_layout (a : Z) (shapes : list Z) (n : nat) (d : DataType) (v : Z) :
  length shapes = n -> (1 <= n <= RUNTIME_MAX_TENSOR_DIMS)%nat ->
  Forall (fun x => 1 <= x) shapes -> zprod shapes * get_element_size d < 2 ^ 64 ->
  make_tensor shapes n d v = make_tensor_external 0 shapes n d v /\
  exists t, make_tensor_external a shapes n d v = Some t /\
    is_contiguous t = true /\
    elem_offsets t = zseq (zprod shapes) /\
    size (buffer t) = zprod shapes * get_element_size d /\
    (forall b, reach_byte t b <-> 0 <= b < size (buffer t)).
Proof.
  intros Hl Hn Hf Hp. pose proof (get_element_size_pos d) as Hes.
  pose proof (zprod_ge1 _ Hf) as H1.
  assert (Hp' : zprod shapes < 2 ^ 64) by nia.
  split; [reflexivity|].
  unfold make_tensor_external, RUNTIME_MAX_TENSOR_DIMS in *.
  destruct (Nat.eqb_spec n 0); [lia|]. destruct (Nat.ltb_spec 8 n); [lia|]. cbn [orb].
  rewrite make_strides_spec by (auto; lia).
  assert (Hsz : mul64 (mul64 (nth 0 (suffix_strides shapes) 0) (nth 0 shapes 0)) (get_element_size d)
                = zprod shapes * get_element_size d).
  { destruct shapes as [|x l]; [simpl in Hl; lia|]. cbn [suffix_strides nth].
    unfold zprod in *. cbn [fold_right] in *. unfold mul64.
    rewrite (u64_id (fold_right Z.mul 1 l * x)) by nia. rewrite u64_id by nia. ring. }
  rewrite Hsz. eexists. split; [reflexivity|].
  rewrite take_ge by lia.
  assert (Heo : elem_offsets (mkTensor (mkBuf a (zprod shapes * get_element_size d)) 0
                  (suffix_strides shapes) shapes n d v Accurate) = zseq (zprod shapes)).
  { unfold elem_offsets; cbn [start_offset strides repeats ndims].
    rewrite !take_ge by (rewrite ?length_suffix_strides; lia).
    rewrite offsets_suffix by (apply (Forall_impl _ _ _ Hf); intros; lia).
    rewrite map_ext with (g := id) by (intros; unfold id; lia). apply map_id. }
  split; [apply suffix_strides_contiguous; cbn; auto|].
  split; [exact Heo|]. split; [reflexivity|].
  intros b. unfold reach_byte. rewrite Heo. cbn [dtype buffer size].
  set (es := get_element_size d) in *. set (P := zprod shapes) in *. split.
  - intros (o & Ho & Hb). apply in_zseq in Ho. nia.
  - intros Hb. exists (b / es). split.
    + apply in_zseq. split; [apply Z.div_pos; lia|]. apply Z.div_lt_upper_bound; lia.
    + pose proof (Z.div_mod b es ltac:(lia)). pose proof (Z.mod_pos_bound b es ltac:(lia)). nia.
Qed.

Lemma offsets_from_bounds (ss : list Z) : forall (rs : list Z) (o0 o : Z),
  length rs = length ss -> Forall (fun s => 0 <= s) ss -> Forall (fun r => 1 <= r) rs ->
  In o (offsets_from o0 ss rs) ->
  o0 <= o <= o0 + dotz (map (fun r => r - 1) rs) ss.
Proof.
  induction ss as [|s ss IH]; intros [|r rs] o0 o Hl Hs Hr Ho; try discriminate.
  - simpl in *. lia.
  - inversion Hs as [|? ? Hs0 Hs']; inversion Hr as [|? ? Hr0 Hr']; subst.
    simpl in Hl. injection Hl as Hl. cbn [offsets_from] in Ho.
    apply in_flat_map in Ho as (k & Hk & Ho). apply in_zseq in Hk.
    specialize (IH rs _ _ Hl Hs' Hr' Ho). cbn [map dotz]. nia.
Qed.

Lemma valid_loop_spec (ss rs : list Z) (is : list nat) :
  valid_loop ss rs is = Some true ->
  forall i, In i is ->
    nth i ss 0 <= nth (i - 1)%nat ss 0 /\ nth i ss 0 <> 0 /\
    mul64 (nth i ss 0) (nth i rs 0) <= nth (i - 1)%nat ss 0.
Proof.
  induction is as [|j is IH]; intros H i Hi; [destruct Hi|]. cbn [valid_loop] in H.
  destruct (Z.ltb_spec (nth (j - 1)%nat ss 0) (nth j ss 0)); [discriminate|].
  destruct (Z.eqb_spec (nth j ss 0) 0); [discriminate|].
  destruct (negb _); [discriminate|].
  destruct (Z.ltb_spec (nth (j - 1)%nat ss 0) (mul64 (nth j ss 0) (nth j rs 0))); [discriminate|].
  destruct Hi as [<-|Hi]; [lia|]. apply IH; assumption.
Qed.

Lemma norm_dims_intro (ss : list Z) : forall (rs : list Z),
  length rs = length ss -> (1 <= length ss)%nat ->
  nth (length ss - 1) ss 0 = 1 -> Forall (fun r => 1 <= r) rs ->
  (forall i, (1 <= i < length ss)%nat ->
     nth i ss 0 <= nth (i - 1)%nat ss 0 /\ nth i ss 0 * nth i rs 0 <= nth (i - 1)%nat ss 0) ->
  norm_dims ss rs.
Proof.
  induction ss as [|s ss IH]; intros [|r rs] Hl H1 Hlast Hr Hstep; try (simpl in *; lia).
  inversion Hr as [|? ? Hr0 Hr']; subst. simpl in Hl. injection Hl as Hl.
  destruct ss as [|s' ss'].
  - destruct rs; [|discriminate]. simpl in *. auto.
  - destruct rs as [|r' rs']; [discriminate|].
    destruct (Hstep 1%nat ltac:(simpl; lia)) as [Ha Hb]. simpl in Ha, Hb.
    change (s' <= s /\ s' * r' <= s /\ 1 <= r /\ norm_dims (s' :: ss') (r' :: rs')).
    split; [exact Ha|]. split; [exact Hb|]. split; [exact Hr0|].
    apply IH; auto.
    + simpl. lia.
    + cbn [length] in Hlast |- *. replace (S (S (length ss')) - 1)%nat with (S (length ss')) in Hlast by lia.
      replace (S (length ss') - 1)%nat with (length ss') by lia. exact Hlast.
    + intros i Hi. destruct (Hstep (S i) ltac:(simpl in *; lia)) as [Hc Hd].
      replace (S i - 1)%nat with (S (i - 1)) in Hc, Hd by lia. simpl nth in Hc, Hd.
      split; assumption.
Qed.

Lemma fuzzy_seg_exact (t : Tensor) :
  wf_dims t -> u64_fields t -> Forall (fun r => 1 <= r) (repeats t) ->
  exact_fuzzy_end t * get_element_size (dtype t) < 2 ^ 64 ->
  get_fuzzy_seg t = mkSeg (start_offset t) (exact_fuzzy_end t) /\
  0 <= start_offset t < exact_fuzzy_end t /\
  (forall o, In o (elem_offsets t) -> start_offset t <= o < exact_fuzzy_end t).
Proof.
  intros [Hls Hlr] (Hso & Hsb & Hrb) Hr1 Hend.
  pose proof (get_element_size_pos (dtype t)) as Hes.
  unfold exact_fuzzy_end in *.
  set (n := ndims t) in *.
  assert (Hs0 : Forall (fun s => 0 <= s) (strides t)) by (apply (Forall_impl _ _ _ Hsb); intros; lia).
  set (F := fun i => nth i (repeats t) 0 - 1).
  assert (HS : fold_left (fun acc i => acc + (nth i (repeats t) 0 - 1) * nth i (strides t) 0)
                 (seq 0 n) 0 = dotz (map (fun r => r - 1) (repeats t)) (strides t)).
  { pose proof (fold_dotz F (strides t) 0) as E. rewrite Nat.sub_0_r, drop_0, Hls in E.
    unfold F in E. rewrite E. f_equal.
    transitivity (map (fun r => r - 1) (map (fun i => nth i (repeats t) 0) (seq 0 n))).
    - rewrite map_map. reflexivity.
    - rewrite map_nth_seq0' by exact Hlr. reflexivity. }
  rewrite fold_add_shift, HS in Hend |- *.
  assert (HS0 : 0 <= dotz (map (fun r => r - 1) (repeats t)) (strides t)).
  { rewrite <- HS. apply (fold_left_inv (fun a => 0 <= a)); [lia|].
    intros a i Hi Ha. apply in_seq in Hi.
    rewrite List.Forall_forall in Hs0, Hr1.
    assert (0 <= nth i (strides t) 0) by (apply Hs0, nth_In; lia).
    assert (1 <= nth i (repeats t) 0) by (apply Hr1, nth_In; lia). nia. }
  split; [|split; [lia|]].
  - unfold get_fuzzy_seg. fold n. f_equal.
    rewrite (fold_add64 _ (fun i => (nth i (repeats t) 0 - 1) * nth i (strides t) 0)); [| lia |].
    + rewrite HS. unfold add64. rewrite (u64_id (start_offset t + _)) by nia. rewrite u64_id by nia. reflexivity.
    + intros i Hi. apply in_seq in Hi. rewrite mul64_mod. unfold sub64.
      rewrite List.Forall_forall in Hr1, Hrb.
      assert (1 <= nth i (repeats t) 0) by (apply Hr1, nth_In; lia).
      assert (nth i (repeats t) 0 < 2 ^ 64) by (apply Hrb, nth_In; lia).
      rewrite (u64_id (nth i (repeats t) 0 - 1)) by lia. f_equal. ring.
  - intros o Ho. unfold elem_offsets in Ho. fold n in Ho.
    rewrite !take_ge in Ho by lia.
    pose proof (offsets_from_bounds (strides t) (repeats t) _ o ltac:(lia) Hs0 Hr1 Ho). lia.
Qed.

(** X7: If [is_valid_tensor] returns true (repeats at least 1, no wrap-around), the strides are normalized and every byte the tensor reaches lies in its buffer. *)
Theorem valid_tensor_normalized_in_bounds (t : Tensor) :
  wf_dims t -> u64_fields t -> Forall (fun r => 1 <= r) (repeats t) ->
  (forall i, (i < ndims t)%nat -> nth i (strides t) 0 * nth i (repeats t) 0 < 2 ^ 64) ->
  exact_fuzzy_end t * get_element_size (dtype t) < 2 ^ 64 ->
  is_valid_tensor t = Some true ->
  normalized t /\ (forall b, reach_byte t b -> 0 <= b < size (buffer t)).
Proof.
  intros [Hls Hlr] (Hso & Hsb & Hrb) Hr1 Hnw Hend Hv.
  pose proof (get_element_size_pos (dtype t)) as Hes.
  set (n := ndims t) in *.
  assert (Hs0 : Forall (fun s => 0 <= s) (strides t)) by (apply (Forall_impl _ _ _ Hsb); intros; lia).
  unfold is_valid_tensor in Hv. fold n in Hv.
  remember (get_fuzzy_seg t) as fz eqn:Hfz in Hv.
  destruct (Nat.eqb_spec n 0) as [|Hn]; [discriminate|].
  destruct (Z.eqb_spec (nth (n - 1)%nat (strides t) 0) 1) as [Hlast|]; [|discriminate].
  cbn [negb] in Hv.
  destruct (valid_loop (strides t) (repeats t) (seq 1 (n - 1))) as [[|]|] eqn:Hloop;
    try discriminate.
  injection Hv as Hv. apply negb_true_iff, Z.ltb_ge in Hv.
  pose proof (valid_loop_spec _ _ _ Hloop) as Hpt.
  split.
  - split; [split; assumption|]. apply norm_dims_intro; try lia; auto.
    + rewrite Hls. exact Hlast.
    + intros i Hi. rewrite Hls in Hi. destruct (Hpt i ltac:(apply in_seq; lia)) as (Ha & _ & Hb).
      split; [exact Ha|]. unfold mul64 in Hb. rewrite u64_id in Hb; [exact Hb|].
      split; [|apply Hnw; lia].
      rewrite List.Forall_forall in Hs0, Hr1.
      assert (0 <= nth i (strides t) 0) by (apply Hs0, nth_In; lia).
      assert (1 <= nth i (repeats t) 0) by (apply Hr1, nth_In; lia). nia.
  - destruct (fuzzy_seg_exact t ltac:(split; assumption) (conj Hso (conj Hsb Hrb)) Hr1 Hend)
      as (Hfe & Hso0 & Hin).
    rewrite Hfe in Hfz. subst fz. cbn [seg_end] in Hv.
    pose proof (get_element_size_pos (dtype t)).
    unfold mul64 in Hv. rewrite u64_id in Hv by nia.
    intros b (o & Ho & Hb). specialize (Hin o Ho). nia.
Qed.

Lemma reach_in_byte_fuzzy_seg (t : Tensor) (b : Z) :
  wf_dims t -> u64_fields t -> Forall (fun r => 1 <= r) (repeats t) ->
  exact_fuzzy_end t * get_element_size (dtype t) < 2 ^ 64 ->
  reach_byte t b -> seg_begin (byte_fuzzy_seg t) <= b < seg_end (byte_fuzzy_seg t).
Proof.
  intros Hw Hu Hr Hend (o & Ho & Hb).
  destruct (fuzzy_seg_exact t Hw Hu Hr Hend) as (Hfe & Hso & Hin).
  pose proof (get_element_size_pos (dtype t)) as Hes. specialize (Hin o Ho).
  unfold byte_fuzzy_seg, to_byte_seg. rewrite Hfe. cbn [seg_begin seg_end].
  unfold mul64. rewrite !u64_id by nia. nia.
Qed.

(** X8: If the byte fuzzy segments of two tensors do not intersect and the reader's version is not above the producer's, [is_overlap] returns [NO_OVERLAP] and no byte is reached by both. *)
Theorem fuzzy_disjoint_no_overlap (t p : Tensor) :
  wf_dims t -> u64_fields t -> Forall (fun r => 1 <= r) (repeats t) ->
  exact_fuzzy_end t * get_element_size (dtype t) < 2 ^ 64 ->
  wf_dims p -> u64_fields p -> Forall (fun r => 1 <= r) (repeats p) ->
  exact_fuzzy_end p * get_element_size (dtype p) < 2 ^ 64 ->
  version t <= version p ->
  line_segment_intersection (byte_fuzzy_seg t) (byte_fuzzy_seg p) = false ->
  is_overlap t p = NO_OVERLAP /\ (forall b, reach_byte t b -> reach_byte p b -> False).
Proof.
  intros Hwt Hut Hrt Het Hwp Hup Hrp Hep Hver Hi. split.
  - unfold is_overlap. destruct (is_same_memref t p); [|reflexivity]. cbn [negb].
    destruct (Z.ltb_spec (version p) (version t)); [lia|].
    rewrite Hi. reflexivity.
  - intros b Hbt Hbp.
    pose proof (reach_in_byte_fuzzy_seg t b Hwt Hut Hrt Het Hbt).
    pose proof (reach_in_byte_fuzzy_seg p b Hwp Hup Hrp Hep Hbp).
    unfold line_segment_intersection in Hi.
    apply andb_false_iff in Hi as [Hi|Hi]; apply Z.ltb_ge in Hi; lia.
Qed.

Lemma nth_insert_Z (l : list Z) (i k : nat) (x : Z) :
  nth k (<[i := x]> l) 0 = if (Nat.eqb k i && Nat.ltb i (length l))%bool then x else nth k l 0.
Proof.
  revert i k. induction l as [|y l IH]; intros [|i] [|k]; simpl; rewrite ?andb_false_r;
    try reflexivity; try (rewrite IH; reflexivity).
Qed.

Lemma nth_swap_at (l : list Z) (i j k : nat) :
  (i < length l)%nat -> (j < length l)%nat -> i <> j ->
  nth k (swap_at l i j) 0 =
  if Nat.eqb k i then nth j l 0 else if Nat.eqb k j then nth i l 0 else nth k l 0.
Proof.
  intros Hi Hj Hij. unfold swap_at. rewrite !nth_insert_Z, length_insert.
  destruct (Nat.eqb_spec k i), (Nat.eqb_spec k j); subst; try lia;
    rewrite ?(proj2 (Nat.ltb_lt _ _) Hi), ?(proj2 (Nat.ltb_lt _ _) Hj); reflexivity.
Qed.

Lemma resort_inner (n i : nat) : forall (m : nat) (ss rs : list Z),
  length ss = n -> length rs = n -> (S i + m <= n)%nat ->
  sorted_upto ss rs n i ->
  let '(ss', rs') := fold_left (resort_step i) (seq (S i) m) (ss, rs) in
  length ss' = n /\ length rs' = n /\ sorted_upto ss' rs' n i /\
  (forall b, (i < b < S i + m)%nat ->
     lex_le (nth b ss' 0) (nth b rs' 0) (nth i ss' 0) (nth i rs' 0)).
Proof.
  induction m as [|m IH]; intros ss rs Hls Hlr Hm Hs.
  - simpl. repeat split; auto. intros b Hb. lia.
  - rewrite seq_S, fold_left_app.
    specialize (IH ss rs Hls Hlr ltac:(lia) Hs).
    destruct (fold_left (resort_step i) (seq (S i) m) (ss, rs)) as [ss1 rs1].
    destruct IH as (Hls1 & Hlr1 & Hs1 & Hb1).
    cbn [fold_left resort_step].
    set (j := (S i + m)%nat).
    destruct ((nth i ss1 0 <? nth j ss1 0)
              || ((nth i ss1 0 =? nth j ss1 0) && (nth i rs1 0 <? nth j rs1 0))) eqn:Ec.
    + (* swap positions i and j *)
      assert (Hlt : lex_le (nth i ss1 0) (nth i rs1 0) (nth j ss1 0) (nth j rs1 0)).
      { unfold lex_le. apply orb_true_iff in Ec as [E|E];
          [apply Z.ltb_lt in E; lia|apply andb_true_iff in E as [E1 E2];
           apply Z.eqb_eq in E1; apply Z.ltb_lt in E2; lia]. }
      assert (Hsw : forall l k, length l = n -> nth k (swap_at l i j) 0 =
                if Nat.eqb k i then nth j l 0 else if Nat.eqb k j then nth i l 0 else nth k l 0).
      { intros l k Hl. apply nth_swap_at; unfold j in *; lia. }
      split; [unfold swap_at; rewrite !length_insert; exact Hls1|].
      split; [unfold swap_at; rewrite !length_insert; exact Hlr1|].
      split.
      * intros a b Ha Hab. rewrite !Hsw by assumption.
        destruct (Nat.eqb_spec a i); [lia|]. destruct (Nat.eqb_spec a j); [unfold j in *; lia|].
        destruct (Nat.eqb_spec b i); [subst; apply Hs1; unfold j in *; lia|].
        destruct (Nat.eqb_spec b j); [subst; apply Hs1; unfold j in *; lia|].
        apply Hs1; lia.
      * intros b Hb. rewrite !Hsw by assumption. rewrite Nat.eqb_refl.
        destruct (Nat.eqb_spec b i); [lia|].
        destruct (Nat.eqb_spec b j) as [->|Hbj]; [exact Hlt|].
        specialize (Hb1 b ltac:(unfold j in *; lia)). unfold lex_le in *. lia.
    + assert (Hge : lex_le (nth j ss1 0) (nth j rs1 0) (nth i ss1 0) (nth i rs1 0)).
      { unfold lex_le. apply orb_false_iff in Ec as [E1 E2]. apply Z.ltb_ge in E1.
        apply andb_false_iff in E2 as [E|E]; [apply Z.eqb_neq in E; lia|].
        apply Z.ltb_ge in E. lia. }
      repeat split; auto.
      intros b Hb. destruct (Nat.eq_dec b j) as [->|]; [exact Hge|]. apply Hb1. unfold j in *. lia.
Qed.

Lemma resort_sorted_gen (n : nat) : forall (k : nat) (ss rs : list Z),
  length ss = n -> length rs = n -> (k <= n)%nat ->
  let '(ss', rs') := fold_left (fun st i => fold_left (resort_step i) (seq (S i) (n - S i)) st)
                               (seq 0 k) (ss, rs) in
  length ss' = n /\ length rs' = n /\ sorted_upto ss' rs' n k.
Proof.
  induction k as [|k IH]; intros ss rs Hls Hlr Hk.
  - simpl. repeat split; auto. intros a b Ha. lia.
  - rewrite seq_S, fold_left_app, Nat.add_0_l.
    specialize (IH ss rs Hls Hlr ltac:(lia)).
    destruct (fold_left _ (seq 0 k) (ss, rs)) as [ss1 rs1].
    destruct IH as (Hls1 & Hlr1 & Hs1). cbn [fold_left].
    pose proof (resort_inner n k (n - S k) ss1 rs1 Hls1 Hlr1 ltac:(lia) Hs1) as Hin.
    destruct (fold_left (resort_step k) (seq (S k) (n - S k)) (ss1, rs1)) as [ss2 rs2].
    destruct Hin as (Hls2 & Hlr2 & Hs2 & Hb2).
    split; [exact Hls2|]. split; [exact Hlr2|].
    intros a b Ha Hab. destruct (Nat.eq_dec a k) as [->|]; [apply Hb2; lia|]. apply Hs2; lia.
Qed.

(** X9: After [optimize], the strides do not increase along the dimensions, and where two strides are equal the repeats do not increase. *)
Theorem optimize_sorts_strides (t : Tensor) :
  wf_dims t ->
  forall a b, (a < b < ndims t)%nat ->
    nth b (strides (optimize t)) 0 <= nth a (strides (optimize t)) 0 /\
    (nth b (strides (optimize t)) 0 = nth a (strides (optimize t)) 0 ->
     nth b (repeats (optimize t)) 0 <= nth a (repeats (optimize t)) 0).
Proof.
  intros [Hs Hr] a b Hab.
  unfold optimize, resort_strides, resort_arrays.
  pose proof (resort_sorted_gen (ndims t) (ndims t) (strides t) (repeats t) Hs Hr ltac:(lia)) as H.
  destruct (fold_left _ (seq 0 (ndims t)) (strides t, repeats t)) as [ss rs].
  destruct H as (_ & _ & H). cbn [strides repeats].
  specialize (H a b ltac:(lia) Hab). unfold lex_le in H. lia.
Qed.

(* ------------------------------------------------------------------ *)
(** ** TensorMap: lookup, insert, reset, valid_count, remove_entry *)

Lemma lookup_walk_reported (f : nat) : forall (tm tm' : PTO2TensorMap) (t : Tensor) (prev : link_ptr)
    (off : Z) (acc res : list (Z * OverlapStatus)),
  lookup_walk f tm t prev off acc = Some (res, tm') ->
  (exists rest, res = acc ++ rest /\ Forall (reported tm t) rest).
Proof.
  induction f as [|f IH]; intros tm tm' t prev off acc res H; [discriminate|].
  cbn [lookup_walk] in H.
  destruct (0 <=? off) eqn:Ho; cbn [negb] in H.
  - apply bind_Some in H as (e & He & H).
    destruct (pto2_tensormap_entry_valid tm e) eqn:Hv; cbn [negb] in H.
    + destruct (is_overlap t (tensor e)) eqn:Hst;
        apply IH in H as (rest & -> & Hf);
        [exists rest; split; [reflexivity|exact Hf]| |];
        eexists (_ :: rest); (split; [rewrite <- app_assoc; reflexivity|]);
        (constructor; [|exact Hf]);
        exists e; cbn [fst snd]; (repeat split; auto); discriminate.
    + apply bind_Some in H as (tm1 & _ & H). apply bind_Some in H as (tm2 & _ & H).
      injection H as <- _. exists []. rewrite app_nil_r. split; [reflexivity|constructor].
  - injection H as <- _. exists []. rewrite app_nil_r. split; [reflexivity|constructor].
Qed.

(** X10: Every pair [(off, st)] that [pto2_tensormap_lookup] returns names a pool entry whose producer is alive and whose overlap status with the query is [st], which is not [NO_OVERLAP]. *)
Theorem lookup_reports_valid_overlaps (fuel : nat) (tm tm' : PTO2TensorMap) (t : Tensor)
    (res : list (Z * OverlapStatus)) :
  pto2_tensormap_lookup fuel tm t = Some (res, tm') ->
  forall off st, In (off, st) res ->
    exists e, get_entry tm off = Some e /\ last_task_alive tm <= producer_task_id e /\
              st = is_overlap t (tensor e) /\ st <> NO_OVERLAP.
Proof.
  intros H off st Hin. unfold pto2_tensormap_lookup in H.
  apply bind_Some in H as (h & _ & H).
  apply lookup_walk_reported in H as (rest & -> & Hf).
  rewrite List.Forall_forall in Hf. destruct (Hf (off, st) Hin) as (e & He & Hv & Hs & Hn).
  exists e. unfold pto2_tensormap_entry_valid in Hv. apply Z.leb_le in Hv. auto.
Qed.





Lemma zfill_spec {A} (l : list A) (x : A) (k : nat) :
  (k <= length l)%nat ->
  fold_left (fun acc i => l ← acc; zstore l (Z.of_nat i) x) (seq 0 k) (Some l)
  = Some (replicate k x ++ drop k l).
Proof.
  induction k as [|k IH]; intros Hk; [rewrite drop_0; reflexivity|].
  rewrite seq_S, fold_left_app, IH by lia. cbn [fold_left]. simpl.
  change (x :: replicate k x ++ drop (S k) l) with (replicate (S k) x ++ drop (S k) l).
  unfold zstore. rewrite length_app, length_replicate, length_drop.
  replace ((0 <=? Z.of_nat k) && (Z.of_nat k <? Z.of_nat (k + (length l - k)))) with true
    by (symmetry; apply andb_true_iff; split; [apply Z.leb_le|apply Z.ltb_lt]; lia).
  f_equal. rewrite Nat2Z.id.
  destruct (lookup_lt_is_Some_2 l k ltac:(lia)) as [y Hy].
  rewrite (drop_S l y k Hy).
  rewrite insert_app_r_alt by (rewrite length_replicate; lia).
  rewrite length_replicate, Nat.sub_diag. cbn.
  rewrite app_comm_cons, <- replicate_S, replicate_S_end, <- app_assoc. reflexivity.
Qed.

Lemma zupdate_spec {A} (l : list A) (f : A -> A) (k : nat) :
  (k <= length l)%nat ->
  fold_left (fun acc i => l ← acc; x ← zlookup l (Z.of_nat i); zstore l (Z.of_nat i) (f x))
            (seq 0 k) (Some l)
  = Some (map f (take k l) ++ drop k l).
Proof.
  induction k as [|k IH]; intros Hk; [rewrite drop_0; reflexivity|].
  rewrite seq_S, fold_left_app, IH by lia. cbn [fold_left]. simpl.
  destruct (lookup_lt_is_Some_2 l k ltac:(lia)) as [y Hy].
  rewrite (drop_S l y k Hy).
  unfold zlookup. rewrite (proj2 (Z.leb_le 0 (Z.of_nat k))) by lia. rewrite Nat2Z.id.
  rewrite lookup_app_r by (rewrite length_map, length_take; lia).
  rewrite length_map, length_take, Nat.min_l, Nat.sub_diag by lia. cbn.
  unfold zstore. rewrite length_app, length_map, length_take, Nat.min_l by lia. cbn [length].
  replace ((0 <=? Z.of_nat k) && (Z.of_nat k <? Z.of_nat (k + S (length (drop (S k) l))))) with true
    by (symmetry; apply andb_true_iff; split; [apply Z.leb_le|apply Z.ltb_lt]; lia).
  f_equal. rewrite Nat2Z.id.
  rewrite insert_app_r_alt by (rewrite length_map, length_take; lia).
  rewrite length_map, length_take, Nat.min_l, Nat.sub_diag by lia. cbn.
  rewrite (take_S_r l k y Hy), map_app, <- app_assoc. reflexivity.
Qed.

(** X12: [pto2_tensormap_reset] leaves a well-formed map with no valid entry, in which every lookup returns nothing. *)
Theorem reset_empties (tm : PTO2TensorMap) (G : Z) :
  Z.of_nat (length (buckets tm)) = num_buckets tm ->
  Z.of_nat (length (entry_pool tm)) = pool_size tm ->
  Z.of_nat (length (task_entry_head tm)) = PTO2_TASK_WINDOW_SIZE ->
  exists tm', pto2_tensormap_reset tm = Some tm' /\
    tm_inv tm' G /\ pto2_tensormap_valid_count tm' = Some 0 /\
    (forall r fuel, 0 <= pto2_tensormap_hash tm' r < num_buckets tm' ->
       pto2_tensormap_lookup (S fuel) tm' r = Some ([], tm')).
Proof.
  intros Hb Hp Hh. unfold pto2_tensormap_reset, zfill, zupdate.
  rewrite <- Hb, <- Hp, <- Hh, !Nat2Z.id.
  rewrite !zfill_spec, zupdate_spec by lia.
  rewrite !drop_all, !take_ge, !app_nil_r by lia. simpl.
  set (tm' := mkTM _ _ _ _ _ _ _).
  assert (Hbh : forall b, bucket_head tm' b = -1).
  { intros b. unfold bucket_head, zlookup. simpl. destruct (0 <=? b); [|reflexivity].
    destruct (replicate _ (-1) !! Z.to_nat b) as [x|] eqn:E; [|reflexivity].
    apply lookup_replicate in E as [-> _]. reflexivity. }
  assert (Hge : forall x e, get_entry tm' x = Some e -> in_bucket e = false).
  { intros x e Hx. unfold get_entry, zlookup in Hx. simpl in Hx.
    destruct (0 <=? x); [|discriminate].
    rewrite list_lookup_fmap in Hx. destruct (entry_pool tm !! Z.to_nat x); [|discriminate].
    injection Hx as <-. reflexivity. }
  exists tm'. split; [reflexivity|]. split; [|split].
  - split.
    + intros b _. exists []. rewrite Hbh. repeat split; [constructor; lia | intros x [] | constructor].
    + intros x v Hx Hin. exfalso. unfold view in Hx.
      destruct (get_entry tm' x) as [e|] eqn:He; [|discriminate]. injection Hx as <-.
      cbn in Hin. rewrite (Hge x e He) in Hin. discriminate.
  - unfold pto2_tensormap_valid_count.
    enough (H : forall k, (k <= Z.to_nat (pool_size tm'))%nat ->
      fold_left (fun acc i => count ← acc; e ← get_entry tm' (Z.of_nat i);
                   Some (if in_bucket e && pto2_tensormap_entry_valid tm' e then count + 1 else count))
                (seq 0 k) (Some 0) = Some 0) by (apply H; lia).
    induction k as [|k IH]; intros Hk; [reflexivity|].
    rewrite seq_S, fold_left_app, IH by lia. simpl.
    destruct (get_entry tm' (Z.of_nat k)) as [e|] eqn:He.
    + simpl. rewrite (Hge _ _ He). reflexivity.
    + exfalso. unfold get_entry, zlookup in He. simpl in He.
      rewrite (proj2 (Z.leb_le 0 (Z.of_nat k))) in He by lia. rewrite Nat2Z.id in He.
      rewrite list_lookup_fmap in He.
      assert (Hlt : (k < length (entry_pool tm))%nat) by (unfold tm' in Hk; simpl in Hk; lia).
      destruct (lookup_lt_is_Some_2 _ _ Hlt) as [y Hy]. rewrite Hy in He. discriminate.
  - intros r fuel Hr. unfold pto2_tensormap_lookup, zlookup.
    rewrite (proj2 (Z.leb_le 0 _)) by lia.
    change (buckets tm') with (replicate (length (buckets tm)) (-1)).
    change (num_buckets tm') with (Z.of_nat (length (buckets tm))) in Hr.
    rewrite lookup_replicate_2 by lia. reflexivity.
Qed.






Lemma put_entry_keeps_view (tm tm' : PTO2TensorMap) (i : Z) (e e' : PTO2TensorMapEntry) :
  get_entry tm i = Some e -> to_bv e' = to_bv e -> put_entry tm i e' = Some tm' ->
  (forall j, view tm' j = view tm j) /\ buckets tm' = buckets tm /\ num_buckets tm' = num_buckets tm.
Proof.
  intros He Hb H. apply put_entry_spec in H as (_ & Hbs & Hn & _ & _ & Hg).
  split; [|auto].
  intros j. unfold view at 1. rewrite Hg. destruct (Z.eqb_spec j i) as [->|_]; [|reflexivity].
  rewrite (view_get _ _ _ He). simpl. rewrite Hb. reflexivity.
Qed.

Lemma remove_from_task_view (tm tm' : PTO2TensorMap) (off : Z) :
  pto2_tensormap_remove_from_task tm off = Some tm' ->
  (forall j, view tm' j = view tm j) /\ buckets tm' = buckets tm /\
  num_buckets tm' = num_buckets tm /\
  exists e, get_entry tm' off = Some e /\ next_in_task e = -1 /\ prev_in_task e = -1.
Proof.
  intros H. unfold pto2_tensormap_remove_from_task in H.
  apply bind_Some in H as (e & He & H).
  apply bind_Some in H as (tm1 & H1 & H).
  assert (E1 : (forall j, view tm1 j = view tm j) /\ buckets tm1 = buckets tm /\
               num_buckets tm1 = num_buckets tm).
  { destruct (prev_in_task e =? -1).
    - apply put_task_head_spec in H1 as (Hb & Hn & Hp & _).
      split; [intros j; unfold view, get_entry; rewrite Hp; reflexivity|]. auto.
    - apply bind_Some in H1 as (p & Hp & H1). exact (put_entry_keeps_view _ _ _ p _ Hp (eq_refl : to_bv (set_next_in_task p _) = _) H1). }
  destruct E1 as (V1 & B1 & N1).
  apply bind_Some in H as (e1 & He1 & H).
  apply bind_Some in H as (tm2 & H2 & H).
  assert (E2 : (forall j, view tm2 j = view tm1 j) /\ buckets tm2 = buckets tm1 /\
               num_buckets tm2 = num_buckets tm1).
  { destruct (0 <=? next_in_task e1); [|injection H2 as <-; auto].
    apply bind_Some in H2 as (n & Hn & H2). exact (put_entry_keeps_view _ _ _ n _ Hn (eq_refl : to_bv (set_prev_in_task n _) = _) H2). }
  destruct E2 as (V2 & B2 & N2).
  apply bind_Some in H as (e2 & He2 & H).
  pose proof H as H'.
  apply (put_entry_keeps_view _ _ _ e2 _ He2 (eq_refl : to_bv (set_task_links e2 (-1) (-1)) = _)) in H as (V3 & B3 & N3).
  apply put_entry_spec in H' as (_ & _ & _ & _ & _ & Hg).
  split; [intros j; rewrite V3, V2, V1; reflexivity|].
  split; [congruence|]. split; [congruence|].
  exists (set_task_links e2 (-1) (-1)). rewrite Hg, Z.eqb_refl. auto.
Qed.

Lemma remove_from_bucket_clears (tm tm' : PTO2TensorMap) (off : Z) :
  pto2_tensormap_remove_from_bucket tm off = Some tm' ->
  exists e, get_entry tm' off = Some e /\ in_bucket e = false.
Proof.
  intros H. unfold pto2_tensormap_remove_from_bucket in H.
  apply bind_Some in H as (e & He & H).
  destruct (in_bucket e) eqn:Hin; simpl in H; [|injection H as <-; eauto].
  apply bind_Some in H as (tm1 & _ & H).
  apply bind_Some in H as (e1 & _ & H).
  apply bind_Some in H as (tm2 & _ & H).
  apply bind_Some in H as (e2 & _ & H).
  apply put_entry_spec in H as (_ & _ & _ & _ & _ & Hg).
  exists (set_bucket_links e2 false (-1) (-1)). rewrite Hg, Z.eqb_refl. auto.
Qed.

(** X15: [pto2_tensormap_remove_entry] keeps the map well formed, clears the entry's bucket flag and task links, and leaves it on no bucket chain. *)
Theorem remove_entry_unlinks (tm tm' : PTO2TensorMap) (off G : Z) :
  tm_inv tm G -> pto2_tensormap_remove_entry tm off = Some tm' ->
  tm_inv tm' G /\
  (exists e, get_entry tm' off = Some e /\ in_bucket e = false /\
             next_in_task e = -1 /\ prev_in_task e = -1) /\
  (forall b L, 0 <= b < Z.of_nat (length (buckets tm')) ->
     vchain (view tm') (bucket_head tm' b) L -> ~ In off L).
Proof.
  intros Hinv H. unfold pto2_tensormap_remove_entry in H.
  apply bind_Some in H as (tm1 & H1 & H2).
  pose proof (remove_from_bucket_inv _ _ _ _ Hinv H1) as Hinv1.
  destruct (remove_from_bucket_clears _ _ _ H1) as (e1 & He1 & Hin1).
  destruct (remove_from_task_view _ _ _ H2) as (V & B & N & e & He & Hn & Hp).
  assert (Hinv' : tm_inv tm' G).
  { apply (tm_inv_ext tm1); auto.
    - intros c. unfold bucket_head. rewrite B. reflexivity.
    - rewrite B. reflexivity. }
  assert (Hv : view tm' off = Some (to_bv e1)) by (rewrite V; exact (view_get _ _ _ He1)).
  assert (Hin : in_bucket e = false).
  { rewrite (view_get _ _ _ He) in Hv. apply (f_equal (option_map bv_in)) in Hv.
    simpl in Hv. congruence. }
  split; [exact Hinv'|]. split; [eauto|].
  intros b L Hb Hc HL.
  destruct Hinv' as [Hall _]. destruct (Hall b Hb) as (L' & Hc' & Hmem & _).
  pose proof (vchain_det _ _ _ _ Hc Hc') as <-.
  destruct (Hmem off HL) as (v & Hv' & Hvin & _).
  rewrite (view_get _ _ _ He) in Hv'. apply (f_equal (option_map bv_in)) in Hv'.
  simpl in Hv'. congruence.
Qed.

(* ------------------------------------------------------------------ *)
(** ** Witnesses of the properties above *)
Lemma view_offsets_in_parent_witness :
  In 13 (elem_offsets (tensor_view s4_A [2; 3] [1; 2])) /\
  (In 13 (elem_offsets (tensor_view s4_A [2; 3] [1; 2])) -> In 13 (elem_offsets s4_A)).
Proof.
  split; [vm_compute; tauto|].
  apply (view_offsets_in_parent s4_A [2; 3] [1; 2]); unfold s4_A.
  - split; reflexivity.
  - split; [simpl; lia|split; repeat constructor; lia].
  - intros i Hi. destruct i as [|[|i]]; simpl in *; lia.
  - vm_compute. reflexivity.
  - reflexivity.
Defined.

Lemma transpose_permutes_offsets_witness :
  valid_transpose s4_A 0 1 = true /\ elem_offsets (transpose s4_A 0 1) ≡ₚ elem_offsets s4_A.
Proof.
  split; [reflexivity|].
  apply transpose_permutes_offsets; [split; reflexivity|reflexivity].
Defined.

Lemma offset_ndims_round_trip_witness :
  offset_to_ndims (mkTensor (mkBuf 4096 1024) 27 [10; 1] [3; 6] 2 FLOAT32 0 Accurate) = [2; 7] /\
  offset_ndim_to_1d (mkTensor (mkBuf 4096 1024) 27 [10; 1] [3; 6] 2 FLOAT32 0 Accurate)
    (offset_to_ndims (mkTensor (mkBuf 4096 1024) 27 [10; 1] [3; 6] 2 FLOAT32 0 Accurate)) = 27.
Proof.
  split; [vm_compute; reflexivity|].
  apply offset_ndims_round_trip.
  - split; reflexivity.
  - simpl; lia.
  - simpl; lia.
  - repeat constructor; lia.
  - reflexivity.
Defined.

Lemma numel_counts_offsets_witness :
  Z.of_nat (length (elem_offsets s4_A)) = numel s4_A /\ numel s4_A = 18.
Proof.
  split; [|vm_compute; reflexivity].
  apply numel_counts_offsets; unfold s4_A.
  - split; reflexivity.
  - simpl; lia.
  - repeat constructor; lia.
  - vm_compute. reflexivity.
Defined.

Lemma make_1d_contiguous_bytes_witness :
  reach_byte (make_1d_contiguous 4096 10 FLOAT32 0) 7 /\
  ~ reach_byte (make_1d_contiguous 4096 10 FLOAT32 0) 8.
Proof.
  split.
  - apply (make_1d_contiguous_bytes 4096 10 FLOAT32 0 7); [lia|]. change (0 <= 7 < 8). lia.
  - rewrite (make_1d_contiguous_bytes 4096 10 FLOAT32 0 8) by lia. change (~ (0 <= 8 < 8)). lia.
Defined.

Lemma make_tensor_external_layout_witness :
  make_tensor [2; 3] 2 FLOAT32 0 = make_tensor_external 0 [2; 3] 2 FLOAT32 0 /\
  exists t, make_tensor_external 4096 [2; 3] 2 FLOAT32 0 = Some t /\
    is_contiguous t = true /\ elem_offsets t = zseq (zprod [2; 3]) /\
    size (buffer t) = zprod [2; 3] * get_element_size FLOAT32 /\
    (forall b, reach_byte t b <-> 0 <= b < size (buffer t)).
Proof.
  apply make_tensor_external_layout.
  - reflexivity.
  - cbv; split; lia.
  - repeat constructor; lia.
  - vm_compute. reflexivity.
Defined.

Lemma valid_tensor_normalized_in_bounds_witness :
  is_valid_tensor s4_A = Some true /\
  normalized s4_A /\ (forall b, reach_byte s4_A b -> 0 <= b < size (buffer s4_A)).
Proof.
  split; [reflexivity|].
  apply valid_tensor_normalized_in_bounds; unfold s4_A.
  - split; reflexivity.
  - split; [simpl; lia|split; repeat constructor; lia].
  - repeat constructor; lia.
  - intros i Hi. destruct i as [|[|i]]; simpl in *; lia.
  - vm_compute. reflexivity.
  - reflexivity.
Defined.

Lemma fuzzy_disjoint_no_overlap_witness :
  is_overlap (mkTensor (mkBuf 4096 1024) 0 [1] [64] 1 FLOAT32 0 Accurate)
             (mkTensor (mkBuf 4096 1024) 64 [1] [64] 1 FLOAT32 0 Accurate) = NO_OVERLAP /\
  (forall b, reach_byte (mkTensor (mkBuf 4096 1024) 0 [1] [64] 1 FLOAT32 0 Accurate) b ->
             reach_byte (mkTensor (mkBuf 4096 1024) 64 [1] [64] 1 FLOAT32 0 Accurate) b -> False).
Proof.
  apply fuzzy_disjoint_no_overlap.
  - split; reflexivity.
  - split; [simpl; lia|split; repeat constructor; lia].
  - repeat constructor; lia.
  - vm_compute. reflexivity.
  - split; reflexivity.
  - split; [simpl; lia|split; repeat constructor; lia].
  - repeat constructor; lia.
  - vm_compute. reflexivity.
  - simpl; lia.
  - reflexivity.
Defined.

Lemma optimize_sorts_strides_witness :
  strides (optimize (mkTensor (mkBuf 4096 1024) 2 [1; 10] [6; 3] 2 FLOAT32 0 Accurate)) = [10; 1] /\
  nth 1 (strides (optimize (mkTensor (mkBuf 4096 1024) 2 [1; 10] [6; 3] 2 FLOAT32 0 Accurate))) 0
  <= nth 0 (strides (optimize (mkTensor (mkBuf 4096 1024) 2 [1; 10] [6; 3] 2 FLOAT32 0 Accurate))) 0.
Proof.
  split; [vm_compute; reflexivity|].
  apply (optimize_sorts_strides (mkTensor (mkBuf 4096 1024) 2 [1; 10] [6; 3] 2 FLOAT32 0 Accurate)).
  - split; reflexivity.
  - simpl; lia.
Defined.

Lemma lookup_reports_valid_overlaps_witness :
  exists e, get_entry tm_small_w 0 = Some e /\ last_task_alive tm_small_w <= producer_task_id e /\
            OTHER = is_overlap s3_read (tensor e) /\ OTHER <> NO_OVERLAP.
Proof.
  apply (lookup_reports_valid_overlaps 8 tm_small_w tm_small_w s3_read [(0, OTHER)]).
  - vm_compute. reflexivity.
  - left. reflexivity.
Defined.


Lemma reset_empties_witness :
  exists tm', pto2_tensormap_reset tm_small_w = Some tm' /\
    tm_inv tm' 0 /\ pto2_tensormap_valid_count tm' = Some 0 /\
    (forall r fuel, 0 <= pto2_tensormap_hash tm' r < num_buckets tm' ->
       pto2_tensormap_lookup (S fuel) tm' r = Some ([], tm')).
Proof.
  apply reset_empties; vm_compute; reflexivity.
Defined.


Lemma remove_entry_unlinks_witness :
  tm_inv tm_small_r 0 /\
  (exists e, get_entry tm_small_r 0 = Some e /\ in_bucket e = false /\
             next_in_task e = -1 /\ prev_in_task e = -1) /\
  (forall b L, 0 <= b < Z.of_nat (length (buckets tm_small_r)) ->
     vchain (view tm_small_r) (bucket_head tm_small_r b) L -> ~ In 0 L).
Proof.
  apply (remove_entry_unlinks tm_small_w tm_small_r 0 0).
  - apply (insert_inv tm_small tm_small_w s3_write 0 false 0).
    + apply (init_inv 4 4). vm_compute. reflexivity.
    + lia.
    + vm_compute. reflexivity.
  - vm_compute. reflexivity.
Defined.
